(** * QazaqLit: the aggregation core of [src/index.js] and
      [src/components/TemporalTrends.js]

    A shallow embedding of the routines that turn the per-document topic
    weights into the datasets the charts consume: the normalisation decision,
    the yearly, author and decade aggregates, the topic correlation matrix and
    the keyword merger.

    JavaScript numbers are IEEE-754 binary64 values; they are modelled by
    Rocq's primitive [float], whose operations are the same binary64
    operations (round to nearest, ties to even), so [NaN], the infinities and
    rounding behave here as they do in the program.  Counters that the program
    only ever increments by one from zero ([count++]) are modelled by [nat]:
    they stay far below 2^53, where the two agree, and they are converted with
    [float_of_nat] wherever the program uses them in float arithmetic. *)

From Stdlib Require Import Floats ZArith List Bool Lia String Ascii DecimalString.
From Stdlib Require Import QArith Qabs.
From Stdlib Require DecimalPos.
From stdpp Require Import base option list sorting gmap.

Set Warnings "-inexact-float".
Local Open Scope float_scope.

(** ** Numbers *)

Definition float_of_nat (n : nat) : float :=
  PrimFloat.of_uint63 (Uint63.of_Z (Z.of_nat n)).

(** [Number.isSafeInteger(z)] on an integer: up to [2^53 - 1] in absolute
    value every integer is a binary64 number, and the sums, differences and
    products of the program that stay in that range are exact.  Integers of
    the program (years, topic numbers, counts) are modelled by [Z] or [nat];
    where a result depends on the arithmetic or on the numeral of such an
    integer, it is stated for safe integers. *)
Definition isSafeInteger (z : Z) : bool := (Z.abs z <=? 9007199254740991)%Z.

(** [x > 0] on JavaScript numbers. *)
Definition gt0 (x : float) : bool := 0 <? x.

(** On JavaScript numbers: [x] is not [NaN]. *)
Definition comparable (x : float) : bool := x =? x.

(** [x >= 0] on JavaScript numbers: a zero of either sign, a positive
    number or [Infinity]. *)
Definition nonneg (x : float) : bool := 0 <=? x.

(** The same two notions, and "is a zero", on the specification floats. *)
Definition SFnonneg (x : spec_float) : Prop :=
  match x with
  | S754_zero _ | S754_finite false _ _ | S754_infinity false => True
  | _ => False
  end.

Definition SFzero (x : spec_float) : Prop :=
  match x with S754_zero _ => True | _ => False end.

(** The value of a finite number in units of [2^emin], the spacing of the
    smallest numbers of the format: every finite binary64 number is a whole
    number of these units. *)
Definition SFscaled (x : spec_float) : Z :=
  match x with
  | S754_finite s m e => cond_Zopp s (Zpos m * 2 ^ (e - emin))
  | _ => 0
  end.

(** A zero or a positive finite number. *)
Definition SFfinite_nonneg (x : spec_float) : Prop :=
  match x with
  | S754_zero _ | S754_finite false _ _ => True
  | _ => False
  end.

(** [Number.isFinite(x) && x >= 0]. *)
Definition finite_nonneg (x : float) : bool := (0 <=? x) && (x <? infinity).

(** The real number a finite [x] stands for: a whole number of units
    [2^-1074].  [NaN] and the infinities stand for no number; they are given
    0 here and are excluded wherever a value is used. *)
Definition scaled (x : float) : Z := SFscaled (Prim2SF x).

Definition float_value (x : float) : Q :=
  (inject_Z (scaled x) / inject_Z (2 ^ 1074))%Q.

(** The exact sum of the entries of a vector, in units and as a number. *)
Definition scaled_sum (v : list float) : Z :=
  foldr (fun x s => (scaled x + s)%Z) 0%Z v.

Definition vector_sum (v : list float) : Q :=
  foldr (fun x s => (float_value x + s)%Q) 0%Q v.

(** [v.reduce((s, x) => s + x, 0)]: the sum as the program would compute it. *)
Definition float_sum (v : list float) : float :=
  foldl (fun s x => s + x) 0 v.

(** ** Strings

    A JavaScript string is a sequence of UTF-16 code units. *)

Definition jsstring := list N.

Definition js (s : string) : jsstring :=
  map N_of_ascii (list_ascii_of_string s).

(** ** Documents

    One row of the document-topic table, as PapaParse hands it over with
    [header: true].  A column that is missing from the row reads as
    [undefined], modelled by [None].  [Topic_j] is the [j-1]-th entry of
    [Topics]; an entry beyond the end of the list is [undefined] as well. *)

Record document := {
  Author : option jsstring;
  Year : option Z;
  Book_Title : option jsstring;
  Topics : list (option float)
}.

(** [doc[`Topic_${j}`]], for [j] from 1. *)
Definition topic_of (doc : document) (j : nat) : option float :=
  mjoin (Topics doc !! pred j).

(** Every year of the collection is a safe integer. *)
Definition safe_years (documentTopics : list document) : bool :=
  forallb (fun doc => match Year doc with
                      | Some y => isSafeInteger y
                      | None => true
                      end) documentTopics.

(** The keys visited by [for (let j = 1; j <= 13; j++)]. *)
Definition numTopics : nat := 13.
Definition topic_ids : list nat := seq 1 numTopics.

(** The inner loop shared by every aggregator:
<<
    let docTotal = 0;
    for (let j = 1; j <= 13; j++) {
      const topicKey = `Topic_${j}`;
      if (doc[topicKey] !== undefined) docTotal += doc[topicKey];
    }
>> *)
Definition docTotal (doc : document) : float :=
  foldl (fun total j =>
           match topic_of doc j with
           | Some w => total + w
           | None => total
           end) 0 topic_ids.

(** ** Row normaliser: the sampling decision

    The first lines of [aggregateBooksByYear], [getTopAuthors],
    [calculateTopicEvolutionByYear] and [calculateTopicCorrelations] are the
    same loop over [documentTopics[0 .. sampleSize-1]].  An index below
    [sampleSize] is always inside the array; the [None] branch below is the
    out-of-range read, which that bound excludes. *)

Definition sampleSize (documentTopics : list document) : nat :=
  Nat.min 100 (length documentTopics).

Definition sampleTotal (documentTopics : list document) : float :=
  foldl (fun total i =>
           match documentTopics !! i with
           | Some doc => total + docTotal doc
           | None => total
           end) 0 (seq 0 (sampleSize documentTopics)).

Definition avgTotal (documentTopics : list document) : float :=
  sampleTotal documentTopics / float_of_nat (sampleSize documentTopics).

Definition needsNormalization (documentTopics : list document) : bool :=
  avgTotal documentTopics <? 0.95.

(** The decision as the specification words it.  The topic-weight fields a
    document has among [Topic_1 .. Topic_13], in the order of the topics, and
    its raw topic-weight sum: the sum of these, to which a missing field adds
    nothing. *)
Definition present_weights (doc : document) : list float :=
  omap id (take numTopics (Topics doc)).

Definition raw_sum (doc : document) : float :=
  float_sum (present_weights doc).

(** The mean, over a sample, of the documents' raw sums, and its strict
    comparison with 0.95 on the first [min(100, N)] documents.  Sums and
    quotient are those of binary64 arithmetic, taken from left to right. *)
Definition sample_mean (sample : list document) : float :=
  float_sum (map raw_sum sample) / float_of_nat (length sample).

Definition needsNormalization_spec (documentTopics : list document) : bool :=
  sample_mean (take (Nat.min 100 (length documentTopics)) documentTopics) <? 0.95.

(** The raw sum and the sample mean in exact arithmetic, for weights that
    are finite numbers: what the same words say when no operation rounds. *)
Definition exact_raw_sum (doc : document) : Q :=
  vector_sum (present_weights doc).

Definition exact_sample_mean (sample : list document) : Q :=
  (foldr (fun doc s => exact_raw_sum doc + s) 0 sample
   / inject_Z (Z.of_nat (length sample)))%Q.

(** ** Arrays of numbers

    [a[i]] on an array of numbers: an index past the end reads [undefined],
    which arithmetic turns into [NaN]. *)
Definition get (a : list float) (i : nat) : float := default nan (a !! i).

Definition get2 (m : list (list float)) (i j : nat) : float :=
  get (default [] (m !! i)) j.

(** [for (let i = 0; i < n; i++) a[i] = f(i, a[i])]: each round rewrites one
    cell of the array in place. *)
Definition for_cells {A} (n : nat) (f : nat -> A -> A) (a : list A) : list A :=
  foldl (fun a i => alter (f i) i a) a (seq 0 n).

(** ** Row normaliser: the per-document vector

    The callback of [documentTopics.map] in [calculateTopicCorrelations]; the
    flag is the enclosing function's [needsNormalization].
<<
    const val = doc[topicKey] !== undefined ? doc[topicKey] : 0;
    normalizedValues.push((needsNormalization && docTotal > 0) ? val / docTotal : val);
>> *)
Definition normalizedValues (needsNormalization : bool) (doc : document) : list float :=
  let docTotal := docTotal doc in
  map (fun i =>
         let val := default 0 (topic_of doc i) in
         if needsNormalization && gt0 docTotal then val / docTotal else val)
      topic_ids.

(** The same expression as the yearly and the author aggregator write it, for
    a weight that is present:
<<
    const normalizedValue = (needsNormalization && docTotal > 0)
      ? doc[topicKey] / docTotal
      : doc[topicKey];
>> *)
Definition normalizedValue (needsNormalization : bool) (docTotal w : float) : float :=
  if needsNormalization && gt0 docTotal then w / docTotal else w.

(** The accumulation loop of both aggregators: a running sum per topic, kept
    in an object with the keys [Topic_1 .. Topic_13] (here the cells
    [0 .. 12]), to which every present weight of the document is added. *)
Definition add_topics (needsNormalization : bool) (doc : document)
    (sums : list float) : list float :=
  let docTotal := docTotal doc in
  foldl (fun sums i =>
           match topic_of doc i with
           | Some w => alter (fun s => s + normalizedValue needsNormalization docTotal w)
                             (pred i) sums
           | None => sums
           end) sums topic_ids.

(** [Array(13).fill(0).reduce((obj, _, i) => { obj[`Topic_${i + 1}`] = 0; return obj; }, {})] *)
Definition zero_distribution : list float := replicate numTopics 0.

(** ** [Array.prototype.sort]

    The comparator returns a number; [x] goes before [y] when it is not
    positive.  The sort is stable, as ECMAScript requires. *)
Fixpoint sort_insert {A} (cmp : A -> A -> Z) (x : A) (l : list A) : list A :=
  match l with
  | [] => [x]
  | y :: l' => if (cmp x y <=? 0)%Z then x :: l else y :: sort_insert cmp x l'
  end.

Definition Array_sort {A} (cmp : A -> A -> Z) (l : list A) : list A :=
  foldr (sort_insert cmp) [] l.

(** ** Correlation engine: [calculateTopicCorrelations] *)

Definition topicMeans_of (normalizedDocs : list (list float)) (docCount : float) : list float :=
  let sums :=
    foldl (fun topicMeans normalizedValues =>
             for_cells numTopics (fun i m => m + get normalizedValues i) topicMeans)
          (replicate numTopics 0) normalizedDocs in
  for_cells numTopics (fun _ m => m / docCount) sums.

Definition covarianceMatrix_of (normalizedDocs : list (list float))
    (topicMeans : list float) (docCount : float) : list (list float) :=
  let sums :=
    foldl (fun cov normalizedValues =>
             for_cells numTopics (fun i row =>
               for_cells numTopics (fun j c =>
                 c + (get normalizedValues i - get topicMeans i)
                     * (get normalizedValues j - get topicMeans j)) row) cov)
          (replicate numTopics (replicate numTopics 0)) normalizedDocs in
  for_cells numTopics (fun _ row => for_cells numTopics (fun _ c => c / docCount) row) sums.

(** [Math.pow(x, 2)] is taken as the correctly rounded square [x * x]. *)
Definition pow2 (x : float) : float := x * x.

Definition topicStdDevs_of (normalizedDocs : list (list float))
    (topicMeans : list float) (docCount : float) : list float :=
  let topicVariances :=
    foldl (fun vars normalizedValues =>
             for_cells numTopics (fun i v =>
               v + pow2 (get normalizedValues i - get topicMeans i)) vars)
          (replicate numTopics 0) normalizedDocs in
  map (fun v => PrimFloat.sqrt (v / docCount)) topicVariances.

Definition correlationMatrix_of (covarianceMatrix : list (list float))
    (topicStdDevs : list float) : list (list float) :=
  for_cells numTopics (fun i row =>
    for_cells numTopics (fun j _ =>
      if gt0 (get topicStdDevs i) && gt0 (get topicStdDevs j)
      then get2 covarianceMatrix i j / (get topicStdDevs i * get topicStdDevs j)
      else 0) row)
    (replicate numTopics (replicate numTopics 0)).

(** The intermediate values of [calculateTopicCorrelations], each as a
    function of its argument. *)
Definition normalizedDocs (documentTopics : list document) : list (list float) :=
  map (normalizedValues (needsNormalization documentTopics)) documentTopics.

Definition docCount (documentTopics : list document) : float :=
  float_of_nat (length documentTopics).

Definition topicMeans (documentTopics : list document) : list float :=
  topicMeans_of (normalizedDocs documentTopics) (docCount documentTopics).

Definition covarianceMatrix (documentTopics : list document) : list (list float) :=
  covarianceMatrix_of (normalizedDocs documentTopics) (topicMeans documentTopics)
    (docCount documentTopics).

Definition topicStdDevs (documentTopics : list document) : list float :=
  topicStdDevs_of (normalizedDocs documentTopics) (topicMeans documentTopics)
    (docCount documentTopics).

Definition calculateTopicCorrelations (documentTopics : list document) : list (list float) :=
  correlationMatrix_of (covarianceMatrix documentTopics) (topicStdDevs documentTopics).

(** The population variance of topic [i] (from 0) as the function computes
    it on the way to [topicStdDevs[i]]: the mean of the squared deviations
    from [topicMeans[i]]. *)
Definition topicVariance (documentTopics : list document) (i : nat) : float :=
  foldl (fun v normalizedValues =>
           v + pow2 (get normalizedValues i - get (topicMeans documentTopics) i))
        0 (normalizedDocs documentTopics)
  / docCount documentTopics.

(** The covariance of the topics [i] and [j] (from 0) written cell by cell:
    the mean of the products of the deviations. *)
Definition covariance (documentTopics : list document) (i j : nat) : float :=
  foldl (fun c normalizedValues =>
           c + (get normalizedValues i - get (topicMeans documentTopics) i)
               * (get normalizedValues j - get (topicMeans documentTopics) j))
        0 (normalizedDocs documentTopics)
  / docCount documentTopics.

(** ** First-seen order

    The first occurrence of every element of a list, in order: what is left
    of a sequence of insertions into a collection that keeps the order of
    insertion and refuses what it already holds. *)
Fixpoint first_seen {A} `{EqDecision A} (ws : list A) : list A :=
  match ws with
  | [] => []
  | w :: ws' => w :: filter (fun w' => w' <> w) (first_seen ws')
  end.

(** ** Yearly aggregator: [aggregateBooksByYear]

    [booksByYear] is an object used as a map from the year to
    [{ count, topicDistribution }]. *)
Module Yearly.

Record entry := {
  count : nat;
  topicDistribution : list float
}.

(** [!doc.Year]: the year is missing, or it is the number 0. *)
Definition falsy_year (y : option Z) : bool :=
  match y with
  | Some y => (y =? 0)%Z
  | None => true
  end.

Definition new_entry : entry :=
  {| count := 0; topicDistribution := zero_distribution |}.

(** The body of [documentTopics.forEach(doc => ...)]. *)
Definition add_doc (needsNormalization : bool) (booksByYear : gmap Z entry)
    (doc : document) : gmap Z entry :=
  match Year doc with
  | Some y =>
      if falsy_year (Some y) then booksByYear
      else
        let e := default new_entry (booksByYear !! y) in
        <[ y := {| count := S (count e);
                   topicDistribution :=
                     add_topics needsNormalization doc (topicDistribution e) |} ]>
          booksByYear
  | None => booksByYear
  end.

(** The closing loop: every year's sums are divided by its count. *)
Definition average (e : entry) : entry :=
  if (0 <? count e)%nat
  then {| count := count e;
          topicDistribution :=
            map (fun s => s / float_of_nat (count e)) (topicDistribution e) |}
  else e.

Definition aggregateBooksByYear (documentTopics : list document) : gmap Z entry :=
  let needsNormalization := needsNormalization documentTopics in
  average <$> foldl (add_doc needsNormalization) ∅ documentTopics.

(** [sum over years of documentCount]. *)
Definition total_count (booksByYear : gmap Z entry) : nat :=
  map_fold (fun _ e n => count e + n)%nat 0%nat booksByYear.

(** The count stored under one year (0 when the year has no entry). *)
Definition count_at (m : gmap Z entry) (y : Z) : nat :=
  default 0%nat (count <$> m !! y).

End Yearly.

(** ** Decade aggregator: the data part of [createTemporalVisualization]
    in [src/components/TemporalTrends.js] *)
Module Decades.

(** [count] and [totalBooks] are used as numbers here: the first is
    multiplied with the topic values, the second is summed, tested with
    [> 0] and divided by. *)
Record yearItem := {
  year : Z;
  count : float;
  topicDistribution : list float
}.

(** [decadeData[decade]]; [dominantTopic] is [null] until the second loop
    assigns it. *)
Record entry := {
  decade : Z;
  totalBooks : float;
  years : list yearItem;
  topicSums : list float;
  dominantTopics : list float;
  dominantTopic : option nat
}.

(** [Object.entries(booksByYear).map(...).sort((a, b) => a.year - b.year)].
    The keys are the years, all different, so the sorted array does not
    depend on the order in which [Object.entries] lists them. *)
Definition yearData (booksByYear : gmap Z Yearly.entry) : list yearItem :=
  Array_sort (fun a b => year a - year b)%Z
    (map (fun '(y, data) =>
            {| year := y;
               count := float_of_nat (Yearly.count data);
               topicDistribution := Yearly.topicDistribution data |})
         (map_to_list booksByYear)).

(** [Math.floor(yearItem.year / 10) * 10] on an integer year.  For a safe
    integer the binary64 operations of the program give this integer: the
    quotient is below 2^50 in absolute value, where binary64 numbers are 1/8
    apart or closer, so it is rounded to a number between the same two
    integers, and the product of its floor by 10 is a safe integer again.
    For a greater year the program's result need not be a multiple of 10
    (2^60 gives 2^60); what is proved from the arithmetic of the decade is
    stated for safe integers. *)
Definition decade_of (y : Z) : Z := (y / 10 * 10)%Z.

Definition new_entry (d : Z) : entry :=
  {| decade := d; totalBooks := 0; years := [];
     topicSums := replicate numTopics 0;
     dominantTopics := replicate numTopics 0;
     dominantTopic := None |}.

(** The loop that sums the topic values of one year into its decade:
<<
    for (let i = 2; i <= 13; i++) {
      const topicKey = `Topic_${i}`;
      if (yearItem.topicDistribution[topicKey] !== undefined) {
        decadeData[decade].topicSums[topicKey] += yearItem.topicDistribution[topicKey] * yearItem.count;
      }
    }
>>
    It starts at [i = 2]. *)
Definition add_year_topics (yearItem : yearItem) (topicSums : list float) : list float :=
  foldl (fun sums i =>
           match topicDistribution yearItem !! pred i with
           | Some v => alter (fun s => s + v * count yearItem) (pred i) sums
           | None => sums
           end) topicSums (seq 2 12).

(** The body of [yearData.forEach(yearItem => ...)]. *)
Definition add_year (decadeData : gmap Z entry) (yearItem : yearItem) : gmap Z entry :=
  let d := decade_of (year yearItem) in
  let e := default (new_entry d) (decadeData !! d) in
  <[ d := {| decade := decade e;
             totalBooks := totalBooks e + count yearItem;
             years := years e ++ [yearItem];
             topicSums := add_year_topics yearItem (topicSums e);
             dominantTopics := dominantTopics e;
             dominantTopic := dominantTopic e |} ]> decadeData.

(** The scan for the dominant topic:
<<
    let maxTopic = null;
    let maxValue = -Infinity;
    for (let i = 1; i <= 13; i++) {
      const topicKey = `Topic_${i}`;
      if (decade.topicSums[topicKey] > maxValue) {
        maxValue = decade.topicSums[topicKey];
        maxTopic = topicKey;
      }
    }
>> *)
Definition scan_max (topicSums : list float) : option nat * float :=
  foldl (fun '(maxTopic, maxValue) i =>
           if maxValue <? get topicSums (pred i)
           then (Some i, get topicSums (pred i))
           else (maxTopic, maxValue))
        (None, neg_infinity) topic_ids.

(** The body of [Object.values(decadeData).forEach(decade => ...)]. *)
Definition finish (e : entry) : entry :=
  let sums :=
    if gt0 (totalBooks e)
    then for_cells numTopics (fun _ s => s / totalBooks e) (topicSums e)
    else topicSums e in
  {| decade := decade e;
     totalBooks := totalBooks e;
     years := years e;
     topicSums := sums;
     dominantTopics := dominantTopics e;
     dominantTopic := fst (scan_max sums) |}.

(** [Object.values(decadeData).sort((a, b) => a.decade - b.decade)], after
    the two loops above. *)
Definition decadeArray (booksByYear : gmap Z Yearly.entry) : list entry :=
  let decadeData := foldl add_year ∅ (yearData booksByYear) in
  Array_sort (fun a b => decade a - decade b)%Z
    (map snd (map_to_list (finish <$> decadeData))).

(** The value the specification gives the decade mean of topic [i]: the
    sum over the decade's years of [count * mean], over the decade's total
    count. *)
Definition weighted_mean (e : entry) (i : nat) : float :=
  foldl (fun s y => s + get (topicDistribution y) (pred i) * count y) 0 (years e)
  / totalBooks e.

(** The decade mean of topic [j] as the aggregator stores it. *)
Definition decade_mean (e : entry) (j : nat) : float :=
  get (topicSums e) (pred j).

End Decades.

(** ** Author aggregator: [getTopAuthors] *)
Module Authors.

(** [String.prototype.trim] strips the code units ECMAScript lists as
    white space or line terminators from both ends. *)
Definition isWhiteSpace (c : N) : bool :=
  ((9 <=? c) && (c <=? 13) || (c =? 32) || (c =? 160) || (c =? 5760)
   || (8192 <=? c) && (c <=? 8202) || (c =? 8232) || (c =? 8233)
   || (c =? 8239) || (c =? 8287) || (c =? 12288) || (c =? 65279))%N.

Fixpoint trimStart (s : jsstring) : jsstring :=
  match s with
  | c :: s' => if isWhiteSpace c then trimStart s' else s
  | [] => []
  end.

Definition trim (s : jsstring) : jsstring :=
  rev (trimStart (rev (trimStart s))).

(** A string is truthy when it is not empty. *)
Definition truthy (s : jsstring) : bool :=
  match s with [] => false | _ => true end.

(** The key under which a document is counted: [doc.Author.trim()], unless
    [!doc.Author || !doc.Author.trim()]. *)
Definition author_key (doc : document) : option jsstring :=
  match Author doc with
  | Some a => if truthy a && truthy (trim a) then Some (trim a) else None
  | None => None
  end.

(** The value [authorMap] holds for an author. *)
Record authorRecord := {
  name : jsstring;
  count : nat;
  books : list jsstring;
  topicSums : list float
}.

(** [authorMap] is a [Map]: it keeps its keys in insertion order. *)
Definition Map_has (k : jsstring) (m : list (jsstring * authorRecord)) : bool :=
  bool_decide (k ∈ m.*1).

Fixpoint Map_get (k : jsstring) (m : list (jsstring * authorRecord)) : option authorRecord :=
  match m with
  | [] => None
  | (k', v) :: m' => if decide (k' = k) then Some v else Map_get k m'
  end.

Fixpoint Map_set (k : jsstring) (v : authorRecord) (m : list (jsstring * authorRecord))
    : list (jsstring * authorRecord) :=
  match m with
  | [] => [(k, v)]
  | (k', v') :: m' => if decide (k' = k) then (k, v) :: m' else (k', v') :: Map_set k v m'
  end.

(** [Set.prototype.add] on a set kept in insertion order. *)
Definition Set_add (x : jsstring) (s : list jsstring) : list jsstring :=
  if decide (x ∈ s) then s else s ++ [x].

Definition new_authorData (authorName : jsstring) : authorRecord :=
  {| name := authorName; count := 0; books := []; topicSums := zero_distribution |}.

(** What the loop body does to the author's entry:
<<
    authorData.count++;
    if (doc["Book Title"]) authorData.books.add(doc["Book Title"]);
    ... authorData.topicSums[topicKey] += normalizedValue;
>> *)
Definition count_doc (needsNormalization : bool) (doc : document)
    (authorData : authorRecord) : authorRecord :=
  {| name := name authorData;
     count := S (count authorData);
     books := match Book_Title doc with
              | Some t => if truthy t then Set_add t (books authorData)
                          else books authorData
              | None => books authorData
              end;
     topicSums := add_topics needsNormalization doc (topicSums authorData) |}.

(** The body of [documentTopics.forEach(doc => ...)].  The map holds a
    reference to [authorData]; the updates made through it are written
    back under the same key. *)
Definition add_doc (needsNormalization : bool) (authorMap : list (jsstring * authorRecord))
    (doc : document) : list (jsstring * authorRecord) :=
  match author_key doc with
  | None => authorMap
  | Some authorName =>
      let authorMap :=
        if Map_has authorName authorMap then authorMap
        else Map_set authorName (new_authorData authorName) authorMap in
      match Map_get authorName authorMap with
      | None => authorMap
      | Some authorData =>
          Map_set authorName (count_doc needsNormalization doc authorData) authorMap
      end
  end.

(** An element of the returned array. *)
Record author := {
  author_name : jsstring;
  author_count : nat;
  bookCount : nat;
  topicDistribution : list float;
  totalDistribution : float
}.

(** The callback of [Array.from(authorMap.values()).map(author => ...)]. *)
Definition summarize (a : authorRecord) : author :=
  let topicDistribution :=
    map (fun i => if (0 <? count a)%nat
                  then get (topicSums a) (pred i) / float_of_nat (count a)
                  else 0) topic_ids in
  {| author_name := name a;
     author_count := count a;
     bookCount := length (books a);
     topicDistribution := topicDistribution;
     totalDistribution := foldl (fun totalDist val => totalDist + val) 0 topicDistribution |}.

(** [(a, b) => b.count - a.count] *)
Definition by_count (a b : author) : Z :=
  (Z.of_nat (author_count b) - Z.of_nat (author_count a))%Z.

(** All authors, in the order in which the documents first name them. *)
Definition authors_of (documentTopics : list document) : list author :=
  let needsNormalization := needsNormalization documentTopics in
  let authorMap := foldl (add_doc needsNormalization) [] documentTopics in
  map summarize (map snd authorMap).

Definition getTopAuthors (documentTopics : list document) (topN : nat) : list author :=
  let authors := Array_sort by_count (authors_of documentTopics) in
  take topN authors.

(** The number of documents counted under an author's name. *)
Definition documents_of (authorName : jsstring) (documentTopics : list document) : nat :=
  length (filter (fun doc => author_key doc = Some authorName) documentTopics).

End Authors.

(** ** Keyword merger: [prepareTopicKeywords] and [enhanceTopicKeywords]

    The topic entries are JavaScript objects: an array of topics holds
    references to them, and [topic.keywords.push(word)] changes the object
    every holder of the reference sees.  The objects live in a store; an array
    of topics is a list of locations. *)
Module Keywords.

Record topic := {
  id : Z;
  name : jsstring;
  keywords : list jsstring
}.

Abbreviation loc := nat (only parsing).
Abbreviation store := (gmap nat topic) (only parsing).

Record wordItem := {
  topic_id : Z;
  word : jsstring
}.

Record label := {
  Topic_Number : jsstring;
  Topic_Name : jsstring
}.

(** The template literal [`Topic ${n}`]. *)
Definition topic_label (n : nat) : jsstring :=
  js "Topic " ++ js (NilZero.string_of_uint (Nat.to_uint n)).

(** One round of the loop of [prepareTopicKeywords], for the row
    [nmfTopics[topicIndex + 1]]; [keywordRow.filter(Boolean)] drops the
    empty strings. *)
Definition prepare_row (topicLabels : list label) (topicIndex : nat)
    (keywordRow : list jsstring) : topic :=
  let topicLabel :=
    find (fun l => bool_decide (Topic_Number l = topic_label (topicIndex + 1))) topicLabels in
  {| id := Z.of_nat (topicIndex + 1);
     name := match topicLabel with
             | Some l => Topic_Name l
             | None => topic_label (topicIndex + 1)
             end;
     keywords := filter (fun w => w <> []) keywordRow |}.

(** [prepareTopicKeywords]: row 0 of [nmfTopics] is the header. *)
Definition prepareTopicKeywords (nmfTopics : list (list jsstring))
    (topicLabels : list label) : list topic :=
  imap (prepare_row topicLabels) (tail nmfTopics).

(** The objects of a freshly built array, each at a location of its own. *)
Definition allocate (topics : list topic) : store * list loc :=
  (list_to_map (imap (fun i t => (i, t)) topics), seq 0 (length topics)).

(** [enhancedKeywords.find(t => t.id === topicId)] *)
Definition find_topic (h : store) (enhancedKeywords : list loc) (topicId : Z) : option loc :=
  find (fun l => match h !! l with
                 | Some t => bool_decide (id t = topicId)
                 | None => false
                 end) enhancedKeywords.

(** The body of [expandedWordlist.forEach(wordItem => ...)]. *)
Definition add_word (enhancedKeywords : list loc) (h : store) (wordItem : wordItem) : store :=
  let topicId := topic_id wordItem in
  let word := word wordItem in
  if bool_decide (topicId = 0%Z) || bool_decide (word = []) then h
  else
    match find_topic h enhancedKeywords topicId with
    | Some l =>
        match h !! l with
        | Some topic =>
            if bool_decide (word ∈ keywords topic) then h
            else <[ l := {| id := id topic; name := name topic;
                            keywords := keywords topic ++ [word] |} ]> h
        | None => h
        end
    | None => h
    end.

(** [enhanceTopicKeywords]: [[...topicKeywords]] is a new array with the
    same references in it.  The result is the store after the call and the
    returned array. *)
Definition enhanceTopicKeywords (h : store) (topicKeywords : list loc)
    (expandedWordlist : list wordItem) : store * list loc :=
  let enhancedKeywords := topicKeywords in
  (foldl (add_word enhancedKeywords) h expandedWordlist, enhancedKeywords).

(** The keyword lists an array of topics shows in a store. *)
Definition keywords_at (h : store) (l : loc) : list jsstring :=
  default [] (keywords <$> h !! l).

Definition keyword_lists (h : store) (topics : list loc) : list (list jsstring) :=
  map (keywords_at h) topics.

(** What [topic.keywords.push(word)], guarded by [includes], does to a
    topic. *)
Definition push_new (word : jsstring) (t : topic) : topic :=
  {| id := id t;
     name := name t;
     keywords := if decide (word ∈ keywords t) then keywords t else keywords t ++ [word] |}.

(** The row is not skipped and [find] returns the object at [l]: the first
    object of the array whose id is the row's. *)
Definition reaches (h : store) (topics : list loc) (l : loc) (w : wordItem) : Prop :=
  topic_id w <> 0%Z /\ word w <> [] /\ find_topic h topics (topic_id w) = Some l.

(** The words of the expanded rows that reach the topic at [l], in the
    order of the rows. *)
Definition words_for (h : store) (topics : list loc) (l : loc)
    (expandedWordlist : list wordItem) : list jsstring :=
  map word (filter (reaches h topics l) expandedWordlist).

(** Base order, then the new words in the order in which they are first
    seen. *)
Definition merged (base ws : list jsstring) : list jsstring :=
  base ++ first_seen (filter (fun w => w ∉ base) ws).

End Keywords.

(** ** Numbers as property keys, [parseInt] and the order of strings

    An integer used as a property key, or in a template literal, becomes its
    decimal numeral: that is [Number::toString] on a safe integer.  Above
    2^53 the program prints the shortest digits that read back as the same
    binary64 number, padded with zeros, and from 10^21 on an exponent form
    such as [1e+21]; the numeral below is then not the string the program
    has.  What is proved from the numeral of a year or of a topic number is
    therefore stated for safe integers ([isSafeInteger]). *)
Definition toString (z : Z) : jsstring :=
  js (NilZero.string_of_int (Z.to_int z)).

(** The value of a code unit as a digit of the given radix. *)
Definition digit_value (radix : N) (c : N) : option N :=
  let v := if (48 <=? c)%N && (c <=? 57)%N then Some (c - 48)%N
           else if (97 <=? c)%N && (c <=? 122)%N then Some (c - 87)%N
           else if (65 <=? c)%N && (c <=? 90)%N then Some (c - 55)%N
           else None in
  match v with
  | Some d => if (d <? radix)%N then Some d else None
  | None => None
  end.

(** The value of the longest prefix of digits; [None] while no digit has
    been read. *)
Fixpoint parse_digits (radix : N) (s : jsstring) (acc : option N) : option N :=
  match s with
  | [] => acc
  | c :: s' =>
      match digit_value radix c with
      | Some d => parse_digits radix s' (Some (default 0 acc * radix + d)%N)
      | None => acc
      end
  end.

(** [parseInt(s)] without a radix: leading white space is skipped, a sign is
    read, [0x] or [0X] selects radix 16, and the digits up to the first code
    unit that is none are the value; [None] is [NaN].  The result is given as
    the integer itself: the number the program gets is that integer rounded
    to binary64, which is 0, or equal to a safe integer, exactly when the
    integer is ([-0] is 0 here).  A longer run of digits gives the program a
    rounded number (1e20 for twenty nines); what is proved from the value
    read, beyond its being 0 or not, is stated for safe integers. *)
Definition parseInt (s : jsstring) : option Z :=
  let s := Authors.trimStart s in
  let '(negative, s) :=
    match s with
    | 45%N :: r => (true, r)
    | 43%N :: r => (false, r)
    | _ => (false, s)
    end in
  let '(radix, s) :=
    match s with
    | 48%N :: x :: r => if (x =? 120)%N || (x =? 88)%N then (16%N, r) else (10%N, s)
    | _ => (10%N, s)
    end in
  match parse_digits radix s None with
  | Some n => Some (if negative then - Z.of_N n else Z.of_N n)%Z
  | None => None
  end.

(** [a < b] on strings: the order of the code units at the first place
    where they differ; a proper prefix comes first. *)
Fixpoint String_lt (a b : jsstring) : bool :=
  match a, b with
  | _, [] => false
  | [], _ :: _ => true
  | x :: a', y :: b' =>
      if (x <? y)%N then true else if (y <? x)%N then false else String_lt a' b'
  end.

(** The comparison [Array.prototype.sort] uses when it is given no
    comparator, on an array of strings. *)
Definition default_compare (x y : jsstring) : Z :=
  if String_lt x y then (-1)%Z else if String_lt y x then 1%Z else 0%Z.
(** ** Topic evolution: [calculateTopicEvolutionByYear]

    [yearlyData] is an object used as a map from the year, as a property
    key, to [{ documents }]. *)
Module Evolution.

Record entry := {
  year : option Z;
  documentCount : nat;
  topicDistribution : list float
}.

(** The body of [documentTopics.forEach(doc => ...)]: a document with a
    year joins the documents of that year. *)
Definition group_doc (yearlyData : gmap jsstring (list document)) (doc : document)
    : gmap jsstring (list document) :=
  match Year doc with
  | Some y =>
      if Yearly.falsy_year (Some y) then yearlyData
      else <[ toString y := default [] (yearlyData !! toString y) ++ [doc] ]> yearlyData
  | None => yearlyData
  end.

Definition yearlyData (documentTopics : list document) : gmap jsstring (list document) :=
  foldl group_doc ∅ documentTopics.

(** The callback of [Object.keys(yearlyData).sort().map(year => ...)]. *)
Definition year_entry (needsNormalization : bool) (yearlyData : gmap jsstring (list document))
    (year : jsstring) : entry :=
  let yearDocs := default [] (yearlyData !! year) in
  let topicSums :=
    foldl (fun topicSums doc => add_topics needsNormalization doc topicSums)
          zero_distribution yearDocs in
  let docCount := length yearDocs in
  {| year := parseInt year;
     documentCount := docCount;
     topicDistribution := map (fun s => s / float_of_nat docCount) topicSums |}.

(** [Object.keys(yearlyData).sort()]: the keys are all different and the
    order of strings is total, so the sorted array does not depend on the
    order in which [Object.keys] lists them. *)
Definition sorted_keys (yearlyData : gmap jsstring (list document)) : list jsstring :=
  Array_sort default_compare (map fst (map_to_list yearlyData)).

Definition calculateTopicEvolutionByYear (documentTopics : list document) : list entry :=
  let needsNormalization := needsNormalization documentTopics in
  let yearlyData := yearlyData documentTopics in
  map (year_entry needsNormalization yearlyData) (sorted_keys yearlyData).

(** The documents that carry the year [y]. *)
Definition documents_of (y : Z) (documentTopics : list document) : list document :=
  filter (fun doc => Year doc = Some y) documentTopics.

End Evolution.
(** A string that does not begin with white space. *)
Definition no_leading_space (s : jsstring) : Prop :=
  match s with
  | c :: _ => Authors.isWhiteSpace c = false
  | [] => True
  end.

(** ** Expanded wordlist: the rows of [loadExpandedWordlist]

    [Papa.parse] with [header: false] hands over an array of rows, each an
    array of strings. *)
Module Wordlist.

(** An element of [processedWordlist]; a [topic_id] of [None] is [NaN]. *)
Record item := {
  topic_id : option Z;
  word : jsstring
}.

(** [s.startsWith(sub)] and [s.includes(sub)]. *)
Fixpoint startsWith (s sub : jsstring) : bool :=
  match sub, s with
  | [], _ => true
  | c :: sub', d :: s' => (c =? d)%N && startsWith s' sub'
  | _ :: _, [] => false
  end.

Fixpoint includes (s sub : jsstring) : bool :=
  startsWith s sub
  || match s with
     | [] => false
     | _ :: s' => includes s' sub
     end.

(** [\d] is one of the code units [0] to [9]. *)
Definition isDigit (c : N) : bool := (48 <=? c)%N && (c <=? 57)%N.

Fixpoint digits_prefix (s : jsstring) : jsstring :=
  match s with
  | c :: s' => if isDigit c then c :: digits_prefix s' else []
  | [] => []
  end.

(** [s.match(/\d+$/)]: the match starts as far left as it can, so it is the
    whole run of digits the string ends with; [None] is [null]. *)
Definition match_trailing_digits (s : jsstring) : option jsstring :=
  match rev (digits_prefix (rev s)) with
  | [] => None
  | m => Some m
  end.

(** [String.prototype.toLowerCase] on a string of code units below 128. *)
Definition toLowerCase_latin (s : jsstring) : jsstring :=
  map (fun c => if (65 <=? c)%N && (c <=? 90)%N then (c + 32)%N else c) s.

Section rows.

(** [String.prototype.toLowerCase], which follows the Unicode case
    mappings, is left open. *)
Variable toLowerCase : jsstring -> jsstring.

(** The test that skips the first row:
<<
    rowIndex === 0 && (row[0].toLowerCase().includes('topic') || isNaN(parseInt(row[0])))
>> *)
Definition is_header (rowIndex : nat) (topicCell : jsstring) : bool :=
  (rowIndex =? 0)%nat
  && (includes (toLowerCase topicCell) (js "topic")
      || match parseInt topicCell with None => true | Some _ => false end).

(** The topic of a row:
<<
    let topicId = 0;
    const topicMatch = topicCell.match(/\d+$/);
    if (topicMatch) {
      topicId = parseInt(topicMatch[0]);
    } else if (!isNaN(parseInt(topicCell))) {
      topicId = parseInt(topicCell);
    }
>> *)
Definition topicId_of (topicCell : jsstring) : option Z :=
  match match_trailing_digits topicCell with
  | Some m => parseInt m
  | None =>
      match parseInt topicCell with
      | Some n => Some n
      | None => Some 0%Z
      end
  end.

(** What the callback of [result.data.forEach((row, rowIndex) => ...)] adds
    to [processedWordlist]; [None] is the [TypeError] of a row without a
    first cell, on which [row[0].toLowerCase()] and [topicCell.match] fail. *)
Definition row_items (rowIndex : nat) (row : list jsstring) : option (list item) :=
  match row with
  | [] => None
  | topicCell :: words =>
      if is_header rowIndex topicCell then Some []
      else
        let topicId := topicId_of topicCell in
        if bool_decide (topicId = Some 0%Z) then Some []
        else
          Some (map (fun word => {| topic_id := topicId; word := Authors.trim word |})
                    (filter (fun word => Authors.truthy word && Authors.truthy (Authors.trim word))
                            words))
  end.

(** The array the function returns, or the exception of the first row that
    raises one. *)
Definition processedWordlist (data : list (list jsstring)) : option (list item) :=
  (fun items => concat items) <$> mapM (fun '(rowIndex, row) => row_items rowIndex row) (imap pair data).

End rows.

(** The row as [enhanceTopicKeywords] reads it: it skips an id that is
    [NaN] as it skips the id 0. *)
Definition wordItem_of (i : item) : Keywords.wordItem :=
  {| Keywords.topic_id := default 0%Z (topic_id i); Keywords.word := word i |}.

End Wordlist.
(** ** The keywords [loadAllData] hands to the charts

    [loadAllData] builds the topics from the NMF table and the labels and
    passes them, with the rows of the wordlist, to [enhanceTopicKeywords]:
<<
    const topicKeywords = prepareTopicKeywords(nmfTopics, topicLabels);
    const enhancedTopicKeywords = enhanceTopicKeywords(topicKeywords, expandedWordlist);
>>
    The result is the store after the two calls and the returned array. *)
Definition enhancedTopicKeywords (nmfTopics : list (list jsstring))
    (topicLabels : list Keywords.label) (expandedWordlist : list Keywords.wordItem)
    : gmap nat Keywords.topic * list nat :=
  let '(h, topicKeywords) :=
    Keywords.allocate (Keywords.prepareTopicKeywords nmfTopics topicLabels) in
  Keywords.enhanceTopicKeywords h topicKeywords expandedWordlist.

(** The words the wordlist has for the topic number [n], in the order of
    its rows. *)
Definition words_of_topic (n : Z) (expandedWordlist : list Keywords.wordItem)
    : list jsstring :=
  map Keywords.word
      (filter (fun w => Keywords.topic_id w = n /\ Keywords.word w <> []) expandedWordlist).
(** The titles of the documents counted under an author's name, in the
    order of the documents; a document without a title, or with an empty
    one, has none. *)
Definition titles_of (authorName : jsstring) (documentTopics : list document)
    : list jsstring :=
  omap (fun doc =>
          if decide (Authors.author_key doc = Some authorName)
          then match Book_Title doc with
               | Some t => if Authors.truthy t then Some t else None
               | None => None
               end
          else None) documentTopics.
(** ** Decade chart: the pie of the selected decade

    The part of [createTemporalVisualization] that prepares the pie chart:
<<
    if (selectedDecade) {
      const decadeInfo = decadeArray.find(d => d.decade === selectedDecade);
      if (decadeInfo) {
        const pieData = [];
        for (let i = 1; i <= 13; i++) {
          const topicKey = `Topic_${i}`;
          const topicValue = decadeInfo.topicSums[topicKey];
          if (topicValue > 0) {
            const topicLabel = topicLabels.find(l => l["Topic Number"] === `Topic ${i}`);
            const topicName = topicLabel ? topicLabel["Topic Name"] : topicKey;
            pieData.push({ topic: topicKey, name: topicName, value: topicValue });
          }
        }
>> *)
Module Pie.


(** The template literal [`Topic_${i}`]. *)
Definition topicKey (i : nat) : jsstring :=
  js "Topic_" ++ toString (Z.of_nat i).



End Pie.
(** ** The sum the aggregators keep for one topic

    What the accumulation loop adds up in the cell of topic [i] (from 0)
    over a sequence of documents: the normalised weight of every document
    that has a weight for the topic; a document without one adds nothing. *)
Definition topic_sum (needsNormalization : bool) (documents : list document) (i : nat)
    : float :=
  foldl (fun s doc =>
           match topic_of doc (S i) with
           | Some w => s + normalizedValue needsNormalization (docTotal doc) w
           | None => s
           end) 0 documents.
(** ** Topic network: the links of [createNetworkVisualization]
    in [src/components/KeywordsCloud.js]
<<
    const links = [];
    const threshold = 0.05;
    for (let i = 0; i < correlationMatrix.length; i++) {
      for (let j = i + 1; j < correlationMatrix[i].length; j++) {
        const correlation = correlationMatrix[i][j];
        if (Math.abs(correlation) > threshold) {
          links.push({ source: i, target: j, value: correlation });
        }
      }
    }
>> *)
Module Network.

Record link := {
  source : nat;
  target : nat;
  value : float
}.

Definition threshold : float := 0.05.

Definition links (correlationMatrix : list (list float)) : list link :=
  flat_map (fun i =>
              omap (fun j =>
                      let correlation := get2 correlationMatrix i j in
                      if threshold <? abs correlation
                      then Some {| source := i; target := j; value := correlation |}
                      else None)
                   (seq (i + 1) (length (default [] (correlationMatrix !! i)) - (i + 1))))
           (seq 0 (length correlationMatrix)).

End Network.
(** ** Word cloud: the words of [createWordCloud]
    in [src/components/KeywordsCloud.js] *)
Module WordCloud.

(** [Math.max] on two numbers: [NaN] if one of them is, and [+0] for the two
    zeros. *)
Definition Math_max (a b : float) : float :=
  if a <? b then b
  else if b <? a then a
  else if a =? b then (if 1 / a <? 1 / b then b else a)
  else nan.

Record cloudWord := {
  text : jsstring;
  size : float;
  topic : Z
}.

(** [Math.min(Math.max(maxWords, 5), 30)] on an integer or [NaN] ([None]):
    [maxWords] is the state that starts at 30 and that [handleSliderChange]
    sets to this same expression of [parseInt(e.target.value)]. *)
Definition clamp (maxWords : option Z) : option Z :=
  match maxWords with
  | Some n => Some (Z.min (Z.max n 5) 30)
  | None => None
  end.

(** [a.slice(0, n)]: a negative [n] counts from the end, [NaN] is 0. *)
Definition slice_to {A} (a : list A) (n : option Z) : list A :=
  match n with
  | Some n => if (n <? 0)%Z then take (length a - Z.to_nat (- n)) a else take (Z.to_nat n) a
  | None => []
  end.

Section words.

(** [String.prototype.toLowerCase] is left open, as in the wordlist. *)
Variable toLowerCase : jsstring -> jsstring.

(** The callback of [selectedTopicData.keywords.filter(keyword => ...)]. *)
Definition keep (keyword : jsstring) : bool :=
  Authors.truthy keyword
  && (let keywordStr := Authors.trim keyword in
      Authors.truthy keywordStr
      && negb (Wordlist.includes (toLowerCase keywordStr) (js "topic"))).

(** [Math.max(10, 60 - (i * 60 / limitedKeywords.length))] *)
Definition size_of (i length : nat) : float :=
  Math_max 10 (60 - float_of_nat i * 60 / float_of_nat length).

Definition words (keywords : list jsstring) (selectedTopic : Z) (maxWords : option Z)
    : list cloudWord :=
  let filteredKeywords := filter (fun keyword => keep keyword) keywords in
  let actualMaxWords := clamp maxWords in
  let limitedKeywords := slice_to filteredKeywords actualMaxWords in
  imap (fun i keyword =>
          {| text := Authors.trim keyword;
             size := size_of i (length limitedKeywords);
             topic := selectedTopic |}) limitedKeywords.

End words.

End WordCloud.
(** ** Evolution chart: [formatDataForVisualization]
    in [src/components/TopicEvolution.js] *)
Module TopicEvolution.

Record point := {
  year : option Z;
  value : float
}.

(** The stream view names a series by [key], the line view by [id]; the
    field a view does not set is [undefined]. *)
Record series := {
  key : option jsstring;
  id : option jsstring;
  values : list point
}.

(** [x || 0] on a number or [undefined]: [undefined], [NaN] and the two
    zeros are falsy. *)
Definition or_zero (x : option float) : float :=
  match x with
  | Some v => if (v =? 0) || negb (v =? v) then 0 else v
  | None => 0
  end.

Definition topicValues (evolutionData : list Evolution.entry) (i : nat) : list point :=
  map (fun d => {| year := Evolution.year d;
                   value := or_zero (Evolution.topicDistribution d !! pred i) |})
      evolutionData.

Definition formatDataForVisualization (evolutionData : list Evolution.entry)
    (viewType : jsstring) : list series :=
  if decide (viewType = js "stream")
  then map (fun i => {| key := Some (Pie.topicKey i); id := None;
                        values := topicValues evolutionData i |}) topic_ids
  else map (fun i => {| key := None; id := Some (Pie.topicKey i);
                        values := topicValues evolutionData i |}) topic_ids.

(** [data.find(d => d.id === highlightedTopic)], for a highlighted topic
    that is a string. *)
Definition selectedLine (data : list series) (highlightedTopic : jsstring) : option series :=
  find (fun d => bool_decide (id d = Some highlightedTopic)) data.

(** [a[i]] at an integer index. *)
Definition at_index {A} (a : list A) (i : Z) : option A :=
  if (i <? 0)%Z then None else a !! Z.to_nat i.

(** The markers of the highlighted line:
<<
    const positions = [0, Math.floor(selectedLine.values.length / 2), selectedLine.values.length - 1];
    positions.forEach(i => {
      const point = selectedLine.values[i];
      ... x(point.year) ... y(point.value) ...
>>
    The result is the points the loop reads; [None] is the [TypeError] of
    [point.year] on a point that is [undefined]. *)
Definition positions (selectedLine : series) : list Z :=
  let length := Z.of_nat (length (values selectedLine)) in
  [0; length / 2; length - 1]%Z.

Definition markers (selectedLine : series) : option (list point) :=
  mapM (at_index (values selectedLine)) (positions selectedLine).

End TopicEvolution.
(** ** Colours: [src/utils/colors.js] *)
Module Colors.

(** The object [topicColors], as the list of its entries. *)
Definition topicColors : list (jsstring * jsstring) :=
  [(js "Topic_1", js "#264653"); (js "Topic_2", js "#2a9d8f");
   (js "Topic_3", js "#e9c46a"); (js "Topic_4", js "#f4a261");
   (js "Topic_5", js "#e76f51"); (js "Topic_6", js "#bc4749");
   (js "Topic_7", js "#6a994e"); (js "Topic_8", js "#386641");
   (js "Topic_9", js "#073b4c"); (js "Topic_10", js "#457b9d");
   (js "Topic_11", js "#7b2cbf"); (js "Topic_12", js "#3f37c9");
   (js "Topic_13", js "#1b263b")].

(** [topicColors[key]]; [None] is [undefined]. *)
Definition lookup_color (key : jsstring) : option jsstring :=
  snd <$> find (fun kv => bool_decide (fst kv = key)) topicColors.

(** [getTopicColor], for a topic number that is an integer:
<<
    const key = `Topic_${topicNumber}`;
    return topicColors[key] || '#999999';
>> *)
Definition getTopicColor (topicNumber : Z) : jsstring :=
  let key := js "Topic_" ++ toString topicNumber in
  match lookup_color key with
  | Some c => if Authors.truthy c then c else js "#999999"
  | None => js "#999999"
  end.

(** [Array.from({length: 13}, (_, i) => getTopicColor(i + 1))] *)
Definition topicColorArray : list jsstring :=
  map (fun i => getTopicColor (Z.of_nat i + 1)) (seq 0 13).

(** The fill of a bar of the decade chart, [topicColors[d.dominantTopic]];
    the dominant topic [null] reads the key ["null"]. *)
Definition bar_fill (e : Decades.entry) : option jsstring :=
  match Decades.dominantTopic e with
  | Some k => lookup_color (Pie.topicKey k)
  | None => lookup_color (js "null")
  end.

End Colors.

(** ** Sample inputs *)
Module Samples.

Definition doc (author : option jsstring) (year : option Z) (weights : list float)
    : document :=
  {| Author := author; Year := year; Book_Title := None; Topics := map Some weights |}.

(** One book of 1950 whose weight is mostly on [Topic_1]. *)
Definition one_book : list document :=
  [doc (Some (js "A")) (Some 1950%Z) [0.75; 0.25]].

Definition one_book_by_year : gmap Z Yearly.entry :=
  Yearly.aggregateBooksByYear one_book.

Definition one_book_decade : Decades.entry :=
  Eval vm_compute in
    hd (Decades.new_entry 0) (Decades.decadeArray one_book_by_year).

(** A single base topic with the keyword "a", and an expanded row that
    brings "b" to it. *)
Definition base_topic : Keywords.topic :=
  {| Keywords.id := 1; Keywords.name := js "Topic 1"; Keywords.keywords := [js "a"] |}.

Definition row_b : Keywords.wordItem :=
  {| Keywords.topic_id := 1; Keywords.word := js "b" |}.

(** An NMF table (header, then one row per topic) whose only topic lists the
    same keyword twice. *)
Definition nmf_repeated : list (list jsstring) :=
  [[js "Topic"; js "Keyword 1"; js "Keyword 2"]; [js "a"; js "a"]].

(** Three documents with all their weight on [Topic_2] and one with all its
    weight on [Topic_1]: every raw sum is 1, so nothing is renormalised. *)
Definition three_and_one : list document :=
  [doc None None [0; 1]; doc None None [0; 1]; doc None None [0; 1]; doc None None [1; 0]].

(** A document whose two weights are finite and whose raw sum overflows, and
    a collection in which it comes after 100 documents of weight 0. *)
Definition huge : document := doc None None [1e308; 1e308].

Definition zeros_then_huge : list document :=
  replicate 100 (doc None None [0]) ++ [huge].

(** A document whose weights and raw sum are all rounded: the raw sum is
    0.6000000000000001. *)
Definition tenths : document := doc None None [0.1; 0.2; 0.3].

(** A document whose weights cancel. *)
Definition cancelling : document := doc None None [0.5; -0.5].

(** A document with a negative weight: adding 3 to 1e16 gives 1e16 + 4, so
    that the raw sum is 6 where the weights add up to 5. *)
Definition absorbed : document := doc None None [1e16; 3; -1e16; 2].

(** A document whose three weights add up to a little less than the
    binary64 number 0.95, and to that number once the sum is rounded. *)
Definition just_under : document :=
  doc None None [0.5; 0.32499999999999996; 0.12499999999999999].

(** Three documents with the same weights: no topic varies. *)
Definition three_alike : list document :=
  replicate 3 (doc None None [0.1; 0.2; 0.7]).

(** A document of the year 0. *)
Definition year_zero : list document :=
  [doc (Some (js "A")) (Some 0%Z) [1]].

(** Two documents of the years 1960 and 1950, in that order, and two of the
    years 999 and 1000. *)
Definition two_years : list document :=
  [doc None (Some 1960%Z) [1]; doc None (Some 1950%Z) [1]].

Definition years_999_1000 : list document :=
  [doc None (Some 999%Z) [1]; doc None (Some 1000%Z) [1]].

End Samples.

(** * Properties *)

(** ** Loops over the cells of an array *)

Lemma for_cells_S {A} n (f : nat -> A -> A) (a : list A) :
  for_cells (S n) f a = alter (f n) n (for_cells n f a).
Proof.
  unfold for_cells. rewrite seq_S, foldl_app. reflexivity.
Qed.

Lemma for_cells_lookup {A} n (f : nat -> A -> A) (a : list A) k :
  for_cells n f a !! k = if decide (k < n) then f k <$> a !! k else a !! k.
Proof.
  induction n as [|n IH].
  - destruct (decide (k < 0)); [lia | reflexivity].
  - rewrite for_cells_S. destruct (decide (k = n)) as [->|Hne].
    + rewrite list_lookup_alter_eq, IH.
      destruct (decide (n < n)); [lia|]. destruct (decide (n < S n)); [reflexivity | lia].
    + rewrite list_lookup_alter_ne, IH by congruence.
      destruct (decide (k < n)), (decide (k < S n)); try reflexivity; lia.
Qed.

Lemma for_cells_length {A} n (f : nat -> A -> A) (a : list A) :
  length (for_cells n f a) = length a.
Proof.
  induction n as [|n IH]; [reflexivity|].
  rewrite for_cells_S, length_alter. exact IH.
Qed.

(** A pass over all the cells is a [map] that knows the index. *)
Lemma for_cells_all {A} (f : nat -> A -> A) (a : list A) :
  for_cells (length a) f a = imap f a.
Proof.
  apply list_eq. intros k. rewrite for_cells_lookup, list_lookup_imap.
  destruct (decide (k < length a)) as [|Hge]; [reflexivity|].
  rewrite lookup_ge_None_2 by lia. reflexivity.
Qed.

Lemma get_for_cells n (f : nat -> float -> float) (a : list float) k :
  k < n -> k < length a -> get (for_cells n f a) k = f k (get a k).
Proof.
  intros Hk Hlen. unfold get. rewrite for_cells_lookup.
  destruct (decide (k < n)); [|lia].
  destruct (lookup_lt_is_Some_2 a k Hlen) as [x ->]. reflexivity.
Qed.

(** A loop over the documents that updates every cell of an accumulator
    keeps, in each cell, the running value of that cell alone. *)
Lemma foldl_for_cells {A B} n (g : B -> nat -> A -> A) (a : list A) (bs : list B) k :
  k < n ->
  foldl (fun a b => for_cells n (g b) a) a bs !! k
  = (fun x => foldl (fun x b => g b k x) x bs) <$> a !! k.
Proof.
  intros Hk. revert a. induction bs as [|b bs IH]; intros a; simpl.
  - destruct (a !! k); reflexivity.
  - rewrite IH, for_cells_lookup. destruct (decide (k < n)); [|lia].
    destruct (a !! k); reflexivity.
Qed.

Lemma foldl_for_cells_length {A B} n (g : B -> nat -> A -> A) (a : list A) (bs : list B) :
  length (foldl (fun a b => for_cells n (g b) a) a bs) = length a.
Proof.
  revert a. induction bs as [|b bs IH]; intros a; simpl; [reflexivity|].
  rewrite IH. apply for_cells_length.
Qed.

(** ** The sample of the normalisation decision *)

Lemma sample_loop (documentTopics : list document) (z : float) n :
  n <= length documentTopics ->
  foldl (fun total i =>
           match documentTopics !! i with
           | Some doc => total + docTotal doc
           | None => total
           end) z (seq 0 n)
  = foldl (fun total doc => total + docTotal doc) z (take n documentTopics).
Proof.
  induction n as [|n IH]; intros Hn.
  - reflexivity.
  - rewrite seq_S, foldl_app, IH by lia. simpl.
    destruct (lookup_lt_is_Some_2 documentTopics n) as [doc Hdoc]; [lia|].
    rewrite Hdoc, (take_S_r _ _ _ Hdoc), foldl_app. reflexivity.
Qed.

(** The fields [Topic_1 .. Topic_n] that a row has are the entries among its
    first [n] that are there. *)
Lemma present_fields {A} (fields : list (option A)) n :
  omap (fun j => mjoin (fields !! pred j)) (seq 1 n) = omap id (take n fields).
Proof.
  induction n as [|n IH]; [reflexivity|].
  rewrite seq_S, omap_app, IH. f_equal.
  change (omap (fun j => mjoin (fields !! pred j)) [(1 + n)%nat])
    with (match mjoin (fields !! n) with Some y => [y] | None => [] end).
  destruct (fields !! n) as [x|] eqn:Hn.
  - rewrite (take_S_r _ _ _ Hn), omap_app. destruct x; reflexivity.
  - apply lookup_ge_None in Hn. rewrite !take_ge by lia. apply app_nil_r.
Qed.

(** A loop that adds the fields that are there adds up the list of them. *)
Lemma foldl_present (f : nat -> option float) (ids : list nat) (z : float) :
  foldl (fun total j => match f j with Some w => total + w | None => total end) z ids
  = foldl (fun s x => s + x) z (omap f ids).
Proof.
  revert z. induction ids as [|j ids IH]; intros z; [reflexivity|].
  change (omap f (j :: ids))
    with (match f j with Some y => y :: omap f ids | None => omap f ids end).
  cbn [foldl]. destruct (f j); cbn [foldl]; apply IH.
Qed.

(** The inner loop computes the raw sum of the document. *)
Lemma docTotal_raw_sum (doc : document) : docTotal doc = raw_sum doc.
Proof.
  unfold docTotal, raw_sum, float_sum, present_weights, topic_ids.
  rewrite foldl_present. unfold topic_of. rewrite present_fields. reflexivity.
Qed.

Lemma avgTotal_sample_mean (documentTopics : list document) :
  avgTotal documentTopics
  = sample_mean (take (Nat.min 100 (length documentTopics)) documentTopics).
Proof.
  unfold avgTotal, sample_mean, sampleTotal, sampleSize, float_sum.
  rewrite sample_loop by lia. rewrite length_take.
  replace (Nat.min (Nat.min 100 (length documentTopics)) (length documentTopics))
    with (Nat.min 100 (length documentTopics)) by lia.
  f_equal. generalize 0.
  induction (take (Nat.min 100 (length documentTopics)) documentTopics) as [|doc l IH];
    intros z; [reflexivity|].
  cbn [foldl map]. rewrite docTotal_raw_sum. apply IH.
Qed.

(** ** Facts about binary64 arithmetic

    Each is read off the specification of the primitive operation on
    [spec_float]. *)

Lemma SFmul_comm (x y : spec_float) : SF64mul x y = SF64mul y x.
Proof.
  unfold SF64mul, SFmul.
  destruct x as [sx|sx| |sx mx ex], y as [sy|sy| |sy my ey];
    try reflexivity; rewrite ?(xorb_comm sx sy); try reflexivity.
  rewrite (Pos.mul_comm mx my), (Z.add_comm ex ey). reflexivity.
Qed.

Lemma float_mul_comm (x y : float) : x * y = y * x.
Proof.
  apply Prim2SF_inj. rewrite !FloatAxioms.mul_spec. apply SFmul_comm.
Qed.

(** The order of [SFcompare], on the floats that are not [NaN]. *)
Lemma SFltb_trans (x y z : spec_float) :
  SFltb x y = true -> SFltb y z = true -> SFltb x z = true.
Proof.
  unfold SFltb, SFcompare.
  destruct x as [sx|sx| |sx mx ex], y as [sy|sy| |sy my ey], z as [sz|sz| |sz mz ez];
    try discriminate; try reflexivity;
    try destruct sx; try destruct sy; try destruct sz;
    try discriminate; try reflexivity;
    fold (Pos.compare mx my); fold (Pos.compare my mz); fold (Pos.compare mx mz);
    destruct (Z.compare_spec ex ey), (Z.compare_spec ey ez), (Z.compare_spec ex ez);
    try discriminate; try reflexivity; try lia;
    destruct (Pos.compare_spec mx my), (Pos.compare_spec my mz), (Pos.compare_spec mx mz);
    try discriminate; try reflexivity; lia.
Qed.

(** [y <= x] and [x < z] give [y < z]: here [y <= x] is "[x < y] is false,
    and [y] is comparable with itself". *)
Lemma SFltb_le_lt (x y z : spec_float) :
  SFltb x y = false -> SFeqb y y = true -> SFltb x z = true -> SFltb y z = true.
Proof.
  unfold SFltb, SFeqb, SFcompare.
  destruct x as [sx|sx| |sx mx ex], y as [sy|sy| |sy my ey], z as [sz|sz| |sz mz ez];
    try discriminate; try reflexivity;
    try destruct sx; try destruct sy; try destruct sz;
    try discriminate; try reflexivity;
    fold (Pos.compare mx my); fold (Pos.compare my mz); fold (Pos.compare mx mz);
    fold (Pos.compare my my);
    destruct (Z.compare_spec ex ey), (Z.compare_spec ey ez), (Z.compare_spec ex ez);
    try discriminate; try reflexivity; try lia;
    destruct (Pos.compare_spec mx my), (Pos.compare_spec my mz), (Pos.compare_spec mx mz);
    try discriminate; try reflexivity; try lia;
    rewrite ?Z.compare_refl, ?Pos.compare_refl; try discriminate; try reflexivity.
Qed.

Lemma SFleb_of_not_lt (x y : spec_float) :
  SFltb x y = false -> SFeqb x x = true -> SFeqb y y = true -> SFleb y x = true.
Proof.
  unfold SFltb, SFeqb, SFleb, SFcompare.
  destruct x as [sx|sx| |sx mx ex], y as [sy|sy| |sy my ey];
    try discriminate; try reflexivity;
    try destruct sx; try destruct sy;
    try discriminate; try reflexivity;
    fold (Pos.compare mx my); fold (Pos.compare my mx);
    intros H _ _;
    destruct (Z.compare_spec ex ey), (Z.compare_spec ey ex);
    try discriminate; try reflexivity; try lia;
    destruct (Pos.compare_spec mx my), (Pos.compare_spec my mx);
    try discriminate; try reflexivity; lia.
Qed.

Lemma SFltb_not_leb (x y : spec_float) :
  SFltb x y = true -> SFleb y x = false.
Proof.
  unfold SFltb, SFleb, SFcompare.
  destruct x as [sx|sx| |sx mx ex], y as [sy|sy| |sy my ey];
    try discriminate; try reflexivity;
    try destruct sx; try destruct sy;
    try discriminate; try reflexivity;
    fold (Pos.compare mx my); fold (Pos.compare my mx);
    destruct (Z.compare_spec ex ey), (Z.compare_spec ey ex);
    try discriminate; try reflexivity; try lia;
    destruct (Pos.compare_spec mx my), (Pos.compare_spec my mx);
    try discriminate; try reflexivity; lia.
Qed.

Lemma SFltb_comparable (x y : spec_float) :
  SFltb x y = true -> SFeqb x x = true /\ SFeqb y y = true.
Proof.
  unfold SFltb, SFeqb, SFcompare.
  destruct x as [sx|sx| |sx mx ex], y as [sy|sy| |sy my ey];
    try discriminate; intros _;
    try destruct sx; try destruct sy; split; try reflexivity;
    rewrite ?Z.compare_refl; try fold (Pos.compare mx mx); try fold (Pos.compare my my);
    rewrite ?Pos.compare_refl; reflexivity.
Qed.

Lemma float_ltb_trans (x y z : float) :
  (x <? y) = true -> (y <? z) = true -> (x <? z) = true.
Proof. rewrite !FloatAxioms.ltb_spec. apply SFltb_trans. Qed.

Lemma float_ltb_le_lt (x y z : float) :
  (x <? y) = false -> comparable y = true -> (x <? z) = true -> (y <? z) = true.
Proof. unfold comparable. rewrite !FloatAxioms.ltb_spec, FloatAxioms.eqb_spec. apply SFltb_le_lt. Qed.

Lemma float_leb_of_not_lt (x y : float) :
  (x <? y) = false -> comparable x = true -> comparable y = true -> (y <=? x) = true.
Proof. unfold comparable. rewrite !FloatAxioms.ltb_spec, !FloatAxioms.eqb_spec, FloatAxioms.leb_spec. apply SFleb_of_not_lt. Qed.

Lemma float_ltb_not_leb (x y : float) : (x <? y) = true -> (y <=? x) = false.
Proof. rewrite FloatAxioms.ltb_spec, FloatAxioms.leb_spec. apply SFltb_not_leb. Qed.

Lemma float_ltb_comparable (x y : float) :
  (x <? y) = true -> comparable x = true /\ comparable y = true.
Proof. unfold comparable. rewrite FloatAxioms.ltb_spec, !FloatAxioms.eqb_spec. apply SFltb_comparable. Qed.

(** [0 / t] is [+0] for every [t > 0]. *)
Lemma zero_div_pos (t : float) : gt0 t = true -> 0 / t = 0.
Proof.
  unfold gt0. rewrite FloatAxioms.ltb_spec. intros Ht.
  apply Prim2SF_inj. rewrite FloatAxioms.div_spec.
  change (Prim2SF 0) with (S754_zero false) in *.
  destruct (Prim2SF t) as [s|s| |s m e]; try discriminate;
    destruct s; try discriminate; reflexivity.
Qed.

Lemma float_ltb_irrefl (x : float) : (x <? x) = false.
Proof.
  rewrite FloatAxioms.ltb_spec. unfold SFltb, SFcompare.
  destruct (Prim2SF x) as [s|s| |s m e]; try reflexivity; destruct s;
    rewrite ?Z.compare_refl; try fold (Pos.compare m m);
    rewrite ?Pos.compare_refl; reflexivity.
Qed.

Lemma float_leb_comparable (x y : float) :
  (x <=? y) = true -> comparable x = true /\ comparable y = true.
Proof.
  unfold comparable. rewrite FloatAxioms.leb_spec, !FloatAxioms.eqb_spec.
  unfold SFleb, SFeqb, SFcompare.
  destruct (Prim2SF x) as [sx|sx| |sx mx ex], (Prim2SF y) as [sy|sy| |sy my ey];
    try discriminate; intros _;
    try destruct sx; try destruct sy; split; try reflexivity;
    rewrite ?Z.compare_refl; try fold (Pos.compare mx mx); try fold (Pos.compare my my);
    rewrite ?Pos.compare_refl; reflexivity.
Qed.

(** ** [Array.prototype.sort] *)

Lemma sort_insert_perm {A} (cmp : A -> A -> Z) x l : sort_insert cmp x l ≡ₚ x :: l.
Proof.
  induction l as [|y l IH]; simpl; [reflexivity|].
  destruct (cmp x y <=? 0)%Z; [reflexivity|].
  rewrite IH. apply Permutation_swap.
Qed.

Lemma Array_sort_perm {A} (cmp : A -> A -> Z) l : Array_sort cmp l ≡ₚ l.
Proof.
  induction l as [|x l IH]; simpl; [reflexivity|].
  unfold Array_sort in *. simpl. rewrite sort_insert_perm, IH. reflexivity.
Qed.

Lemma Array_sort_elem_of {A} (cmp : A -> A -> Z) l x : x ∈ Array_sort cmp l <-> x ∈ l.
Proof. rewrite (Array_sort_perm cmp l). reflexivity. Qed.

(** ** Decade aggregator: the dominant topic *)

Lemma scan_max_inv (sums : list float) n :
  let st := foldl (fun '(maxTopic, maxValue) i =>
                     if maxValue <? get sums (pred i)
                     then (Some i, get sums (pred i))
                     else (maxTopic, maxValue))
                  (None, neg_infinity) (seq 1 n) in
  comparable (snd st) = true
  /\ (forall j, 1 <= j <= n -> (snd st <? get sums (pred j)) = false)
  /\ match fst st with
     | Some k => 1 <= k <= n /\ snd st = get sums (pred k)
                 /\ forall j, 1 <= j < k -> (snd st <=? get sums (pred j)) = false
     | None => snd st = neg_infinity
     end.
Proof.
  induction n as [|n IH].
  - simpl. repeat split. intros; lia.
  - cbv zeta in *. rewrite seq_S, foldl_app. simpl in *.
    destruct (foldl _ _ (seq 1 n)) as [mt mv]. simpl in *.
    destruct IH as (Hc & Hmax & Hk).
    destruct (mv <? get sums n) eqn:Hlt; simpl.
    + destruct (float_ltb_comparable _ _ Hlt) as [_ Hcn].
      split; [exact Hcn|]. split; [|split; [lia|split; [reflexivity|]]].
      * intros j Hj. destruct (decide (j = S n)) as [->|Hne].
        { apply float_ltb_irrefl. }
        destruct (get sums n <? get sums (pred j)) eqn:Hj'; [|reflexivity].
        rewrite <- (Hmax j) by lia. symmetry. eapply float_ltb_trans; eassumption.
      * intros j Hj.
        destruct (get sums n <=? get sums (pred j)) eqn:Hle; [|reflexivity].
        destruct (float_leb_comparable _ _ Hle) as [_ Hcj].
        pose proof (float_ltb_le_lt _ _ _ (Hmax j ltac:(lia)) Hcj Hlt) as Hjn.
        rewrite (float_ltb_not_leb _ _ Hjn) in Hle. discriminate.
    + split; [exact Hc|]. split.
      * intros j Hj. destruct (decide (j = S n)) as [->|Hne]; [exact Hlt|].
        apply Hmax. lia.
      * destruct mt as [k|]; [|exact Hk].
        destruct Hk as (Hk1 & Hk2 & Hk3). split; [lia|]. split; assumption.
Qed.

(** The scan on any array whose first cell is [+0]. *)
Lemma scan_max_spec (sums : list float) :
  get sums 0 = 0 ->
  exists k, fst (Decades.scan_max sums) = Some k
    /\ 1 <= k <= 13
    /\ comparable (get sums (pred k)) = true
    /\ (forall j, 1 <= j <= 13 -> (get sums (pred k) <? get sums (pred j)) = false)
    /\ (forall j, 1 <= j < k -> (get sums (pred k) <=? get sums (pred j)) = false).
Proof.
  intros H0. pose proof (scan_max_inv sums 13) as Hinv. cbv zeta in Hinv.
  unfold Decades.scan_max, topic_ids, numTopics.
  destruct (foldl _ _ (seq 1 13)) as [mt mv]. cbn [fst snd] in *.
  destruct Hinv as (Hc & Hmax & Hk).
  destruct mt as [k|].
  - destruct Hk as (Hk1 & -> & Hk3). exists k. repeat split; try assumption; lia.
  - subst mv. specialize (Hmax 1%nat ltac:(lia)). simpl in Hmax. rewrite H0 in Hmax.
    discriminate.
Qed.

Lemma add_year_topics_first (y : Decades.yearItem) (sums : list float) :
  Decades.add_year_topics y sums !! 0%nat = sums !! 0%nat.
Proof.
  unfold Decades.add_year_topics.
  assert (H : forall ids, Forall (fun i => 2 <= i) ids ->
            forall s : list float, foldl (fun sums i =>
              match Decades.topicDistribution y !! pred i with
              | Some v => alter (fun s => s + v * Decades.count y) (pred i) sums
              | None => sums
              end) s ids !! 0%nat = s !! 0%nat).
  { induction 1 as [|i ids Hi _ IH]; intros s; simpl; [reflexivity|].
    rewrite IH. destruct (Decades.topicDistribution y !! pred i); [|reflexivity].
    apply list_lookup_alter_ne. lia. }
  apply H. apply Forall_forall. intros i Hi. apply elem_of_seq in Hi. lia.
Qed.

(** Every entry of [decadeData] keeps the initial [0] in the cell of
    [Topic_1]: the summing loop never touches it. *)
Lemma decadeData_first (ys : list Decades.yearItem) (decadeData : gmap Z Decades.entry) :
  (forall d e, decadeData !! d = Some e -> Decades.topicSums e !! 0%nat = Some 0) ->
  forall d e, foldl Decades.add_year decadeData ys !! d = Some e ->
              Decades.topicSums e !! 0%nat = Some 0.
Proof.
  revert decadeData. induction ys as [|y ys IH]; intros decadeData Hinv; simpl; [exact Hinv|].
  apply IH. intros d e. unfold Decades.add_year.
  destruct (decide (Decades.decade_of (Decades.year y) = d)) as [<-|Hne].
  - rewrite lookup_insert_eq. intros [= <-]. simpl. rewrite add_year_topics_first.
    destruct (decadeData !! Decades.decade_of (Decades.year y)) as [e0|] eqn:He0; simpl.
    + eapply Hinv. exact He0.
    + reflexivity.
  - rewrite lookup_insert_ne by exact Hne. apply Hinv.
Qed.

Lemma finish_first (e : Decades.entry) :
  Decades.topicSums e !! 0%nat = Some 0 ->
  get (Decades.topicSums (Decades.finish e)) 0 = 0.
Proof.
  intros H0. unfold Decades.finish. simpl.
  destruct (gt0 (Decades.totalBooks e)) eqn:Hgt.
  - unfold get. rewrite for_cells_lookup, H0. simpl.
    apply zero_div_pos. exact Hgt.
  - unfold get. rewrite H0. reflexivity.
Qed.

(** What the decade aggregator returns is [finish] of the entries of
    [decadeData]. *)
Lemma decadeArray_elem (booksByYear : gmap Z Yearly.entry) (e : Decades.entry) :
  e ∈ Decades.decadeArray booksByYear ->
  exists d e0,
    foldl Decades.add_year ∅ (Decades.yearData booksByYear) !! d = Some e0
    /\ e = Decades.finish e0.
Proof.
  unfold Decades.decadeArray. rewrite Array_sort_elem_of.
  intros He. apply list_elem_of_fmap in He as ([d e'] & -> & He).
  apply elem_of_map_to_list in He. rewrite lookup_fmap in He.
  destruct (foldl Decades.add_year ∅ (Decades.yearData booksByYear) !! d) as [e0|] eqn:Hd;
    [|discriminate].
  exists d, e0. split; [exact Hd|]. simpl in *. congruence.
Qed.

Lemma decadeArray_first (booksByYear : gmap Z Yearly.entry) (e : Decades.entry) :
  e ∈ Decades.decadeArray booksByYear -> Decades.decade_mean e 1 = 0.
Proof.
  intros He. apply decadeArray_elem in He as (d & e0 & Hd & ->).
  apply finish_first. eapply decadeData_first; [|exact Hd].
  intros d' e'. rewrite lookup_empty. discriminate.
Qed.

(** The scan over the values the aggregator has stored in [topicSums]: for
    every decade, [dominantTopic] is [Topic_k] for the first [k] whose stored
    value is maximal.  No topic has a greater stored value (every one that is
    a number is at most that of [k]), and every topic with a lower id has a
    strictly smaller one or none.  The stored value of [Topic_1] is not its
    decade mean, see [decadeArray_first]. *)
Theorem dominantTopic_is_first_maximum
    (booksByYear : gmap Z Yearly.entry) (e : Decades.entry) :
  e ∈ Decades.decadeArray booksByYear ->
  exists k, Decades.dominantTopic e = Some k
    /\ 1 <= k <= 13
    /\ comparable (Decades.decade_mean e k) = true
    /\ (forall j, 1 <= j <= 13 -> (Decades.decade_mean e k <? Decades.decade_mean e j) = false)
    /\ (forall j, 1 <= j <= 13 -> comparable (Decades.decade_mean e j) = true ->
                  (Decades.decade_mean e j <=? Decades.decade_mean e k) = true)
    /\ (forall j, 1 <= j < k -> (Decades.decade_mean e k <=? Decades.decade_mean e j) = false).
Proof.
  intros He. pose proof (decadeArray_first _ _ He) as H0.
  apply decadeArray_elem in He as (d & e0 & _ & ->).
  destruct (scan_max_spec (Decades.topicSums (Decades.finish e0)) H0)
    as (k & Hk & Hr & Hc & Hmax & Hlow).
  exists k. split.
  { rewrite <- Hk. reflexivity. }
  split; [exact Hr|]. split; [exact Hc|]. split; [exact Hmax|]. split; [|exact Hlow].
  intros j Hj Hcj.
  apply float_leb_of_not_lt; [apply Hmax; exact Hj | exact Hc | exact Hcj].
Qed.

Lemma dominantTopic_is_first_maximum_witness :
  exists k, Decades.dominantTopic Samples.one_book_decade = Some k
    /\ 1 <= k <= 13
    /\ comparable (Decades.decade_mean Samples.one_book_decade k) = true
    /\ (forall j, 1 <= j <= 13 ->
          (Decades.decade_mean Samples.one_book_decade k <? Decades.decade_mean Samples.one_book_decade j)
          = false)
    /\ (forall j, 1 <= j <= 13 -> comparable (Decades.decade_mean Samples.one_book_decade j) = true ->
          (Decades.decade_mean Samples.one_book_decade j <=? Decades.decade_mean Samples.one_book_decade k)
          = true)
    /\ (forall j, 1 <= j < k ->
          (Decades.decade_mean Samples.one_book_decade k <=? Decades.decade_mean Samples.one_book_decade j)
          = false).
Proof.
  apply (dominantTopic_is_first_maximum Samples.one_book_by_year Samples.one_book_decade).
  vm_compute. apply list_elem_of_here.
Defined.

(** ** Decade aggregator: the decade mean *)

(** C1. The decade mean of [Topic_1] is not the weighted mean of the years:
    the loop that sums the years' values runs from [Topic_2], so the cell of
    [Topic_1] stays at its initial 0.  For the single book of 1950 with
    [Topic_1 = 0.75] and [Topic_2 = 0.25], the year's mean of [Topic_1] is
    0.75, the weighted mean the specification asks for is 0.75, and the
    aggregator stores 0 and names [Topic_2] the dominant topic. *)
Theorem decade_mean_loses_Topic_1 :
  Samples.one_book_by_year
  = {[ 1950%Z := {| Yearly.count := 1;
                    Yearly.topicDistribution := [0.75; 0.25; 0; 0; 0; 0; 0; 0; 0; 0; 0; 0; 0] |} ]}
  /\ map (fun e => (Decades.decade e, Decades.decade_mean e 1, Decades.weighted_mean e 1,
                    Decades.dominantTopic e))
         (Decades.decadeArray Samples.one_book_by_year)
     = [(1950%Z, 0, 0.75, Some 2%nat)].
Proof. split; vm_compute; reflexivity. Qed.

(** The defect at every input: the stored mean of [Topic_1] is 0 in every
    decade. *)
Lemma decade_mean_Topic_1_zero (booksByYear : gmap Z Yearly.entry) :
  Forall (fun e => Decades.decade_mean e 1 = 0) (Decades.decadeArray booksByYear).
Proof. apply Forall_forall. intros e. apply decadeArray_first. Qed.

(** C7. The dominant topic is not the topic with the greatest decade mean.
    For the single book of 1950 with [Topic_1 = 0.75] and [Topic_2 = 0.25]
    the decade means of the 13 topics are 0.75, 0.25 and eleven times 0, the
    greatest is that of [Topic_1], and the aggregator names [Topic_2]: the
    scan reads the stored sums, in which the summing loop, starting at
    [Topic_2], has left the cell of [Topic_1] at 0. *)
Theorem dominantTopic_misses_Topic_1 :
  map (fun e => (Decades.decade e, Decades.dominantTopic e,
                 map (Decades.weighted_mean e) topic_ids,
                 map (Decades.decade_mean e) topic_ids))
      (Decades.decadeArray Samples.one_book_by_year)
  = [(1950%Z, Some 2%nat,
      [0.75; 0.25; 0; 0; 0; 0; 0; 0; 0; 0; 0; 0; 0],
      [0; 0.25; 0; 0; 0; 0; 0; 0; 0; 0; 0; 0; 0])]
  /\ Forall (fun e =>
       (Decades.weighted_mean e 2 <? Decades.weighted_mean e 1) = true
       /\ forall j, j ∈ topic_ids ->
            (Decades.weighted_mean e j <=? Decades.weighted_mean e 1) = true)
     (Decades.decadeArray Samples.one_book_by_year).
Proof.
  split; [vm_compute; reflexivity|].
  assert (Hd : Decades.decadeArray Samples.one_book_by_year = [Samples.one_book_decade])
    by (vm_compute; reflexivity).
  rewrite Hd. constructor; [|constructor].
  split; [vm_compute; reflexivity|].
  intros j Hj. unfold topic_ids, numTopics in Hj.
  repeat (apply elem_of_cons in Hj as [->|Hj]; [vm_compute; reflexivity|]).
  inversion Hj.
Qed.

(** ** The empty collection *)

(** C10. On the empty collection the aggregators return without raising:
    [aggregateBooksByYear] the empty mapping, [getTopAuthors] the empty
    sequence for every [n], and [calculateTopicCorrelations] the 13 x 13 zero
    matrix.  The sample mean [0 / 0] is [NaN], so the flag is [false]; the
    topic means and standard deviations are [NaN], and the guard
    [std > 0] sends every entry to the [0] branch. *)
Theorem empty_collection :
  Yearly.aggregateBooksByYear [] = ∅
  /\ (forall topN, Authors.getTopAuthors [] topN = [])
  /\ calculateTopicCorrelations [] = replicate 13 (replicate 13 0)
  /\ avgTotal [] = nan
  /\ needsNormalization [] = false
  /\ topicMeans [] = replicate 13 nan
  /\ topicStdDevs [] = replicate 13 nan.
Proof.
  split; [apply fmap_empty|].
  split; [intros topN; apply take_nil|].
  repeat split; vm_compute; reflexivity.
Qed.

(** ** Yearly aggregator: the document counts *)

Lemma total_count_insert (m : gmap Z Yearly.entry) y e :
  m !! y = None ->
  Yearly.total_count (<[y:=e]> m) = (Yearly.count e + Yearly.total_count m)%nat.
Proof.
  intros Hy. unfold Yearly.total_count.
  rewrite map_fold_insert_L; [reflexivity| |exact Hy].
  intros; lia.
Qed.

Lemma total_count_update (m : gmap Z Yearly.entry) y e0 e :
  m !! y = Some e0 ->
  (Yearly.total_count (<[y:=e]> m) + Yearly.count e0
   = Yearly.count e + Yearly.total_count m)%nat.
Proof.
  intros Hy. rewrite <- (insert_delete_id m y e0 Hy) at 2.
  rewrite <- (insert_delete_eq m y e).
  rewrite !total_count_insert by apply lookup_delete_eq. lia.
Qed.

Lemma total_count_average (m : gmap Z Yearly.entry) :
  Yearly.total_count (Yearly.average <$> m) = Yearly.total_count m.
Proof.
  induction m as [|y e m Hy IH] using map_ind.
  - rewrite fmap_empty. reflexivity.
  - rewrite fmap_insert, !total_count_insert, IH by (rewrite ?lookup_fmap, Hy; reflexivity).
    unfold Yearly.average. destruct (0 <? Yearly.count e)%nat; reflexivity.
Qed.

Lemma total_count_add_doc flag (m : gmap Z Yearly.entry) (doc : document) :
  Yearly.total_count (Yearly.add_doc flag m doc)
  = (Yearly.total_count m + if Yearly.falsy_year (Year doc) then 0 else 1)%nat.
Proof.
  unfold Yearly.add_doc. destruct (Year doc) as [y|]; [|simpl; lia].
  destruct (Yearly.falsy_year (Some y)); [lia|].
  destruct (m !! y) as [e0|] eqn:Hy; simpl.
  - pose proof (total_count_update m y e0
      {| Yearly.count := S (Yearly.count e0);
         Yearly.topicDistribution :=
           add_topics flag doc (Yearly.topicDistribution e0) |} Hy) as H.
    simpl in H. lia.
  - rewrite total_count_insert by exact Hy. simpl. lia.
Qed.

Lemma total_count_foldl flag (docs : list document) (m : gmap Z Yearly.entry) :
  Yearly.total_count (foldl (Yearly.add_doc flag) m docs)
  = (Yearly.total_count m
     + length (filter (fun doc => Yearly.falsy_year (Year doc) = false) docs))%nat.
Proof.
  revert m. induction docs as [|doc docs IH]; intros m; simpl; [lia|].
  rewrite IH, total_count_add_doc, filter_cons.
  destruct (Yearly.falsy_year (Year doc)) eqn:Hf.
  - destruct (decide (true = false)); [discriminate | simpl; lia].
  - destruct (decide (false = false)); [simpl; lia | congruence].
Qed.

(** The documents without a usable year change nothing. *)
Lemma add_doc_falsy flag (m : gmap Z Yearly.entry) (doc : document) :
  Yearly.falsy_year (Year doc) = true -> Yearly.add_doc flag m doc = m.
Proof.
  unfold Yearly.add_doc. destruct (Year doc) as [y|]; [|reflexivity].
  intros ->. reflexivity.
Qed.

Lemma foldl_add_doc_filter flag (docs : list document) (m : gmap Z Yearly.entry) :
  foldl (Yearly.add_doc flag) m docs
  = foldl (Yearly.add_doc flag) m
      (filter (fun doc => Yearly.falsy_year (Year doc) = false) docs).
Proof.
  revert m. induction docs as [|doc docs IH]; intros m; simpl; [reflexivity|].
  rewrite filter_cons. destruct (Yearly.falsy_year (Year doc)) eqn:Hf.
  - destruct (decide (true = false)); [discriminate|].
    rewrite add_doc_falsy by exact Hf. apply IH.
  - destruct (decide (false = false)); [|congruence]. simpl. apply IH.
Qed.

Lemma count_at_add_doc flag (m : gmap Z Yearly.entry) (doc : document) y :
  Yearly.count_at (Yearly.add_doc flag m doc) y
  = (Yearly.count_at m y + if decide (Year doc = Some y /\ y <> 0%Z) then 1 else 0)%nat.
Proof.
  unfold Yearly.add_doc, Yearly.count_at. destruct (Year doc) as [y'|].
  - simpl. destruct (Z.eqb_spec y' 0) as [->|Hy'].
    + destruct (decide (Some 0%Z = Some y /\ y <> 0%Z)) as [[[= <-] Hne]|]; [congruence | lia].
    + destruct (decide (y' = y)) as [->|Hne].
      * rewrite lookup_insert_eq. simpl.
        destruct (decide (Some y = Some y /\ y <> 0%Z)) as [|Hn]; [|tauto].
        destruct (m !! y); simpl; lia.
      * rewrite lookup_insert_ne by exact Hne.
        destruct (decide (Some y' = Some y /\ y <> 0%Z)) as [[[= ?] _]|]; [congruence | lia].
  - destruct (decide (None = Some y /\ y <> 0%Z)) as [[? _]|]; [discriminate | lia].
Qed.

Lemma count_at_foldl flag (docs : list document) (m : gmap Z Yearly.entry) y :
  Yearly.count_at (foldl (Yearly.add_doc flag) m docs) y
  = (Yearly.count_at m y
     + length (filter (fun doc => Year doc = Some y /\ y <> 0%Z) docs))%nat.
Proof.
  revert m. induction docs as [|doc docs IH]; intros m; simpl; [lia|].
  rewrite IH, count_at_add_doc, filter_cons.
  destruct (decide (Year doc = Some y /\ y <> 0%Z)); simpl; lia.
Qed.

Lemma count_at_average (m : gmap Z Yearly.entry) y :
  Yearly.count_at (Yearly.average <$> m) y = Yearly.count_at m y.
Proof.
  unfold Yearly.count_at. rewrite lookup_fmap. destruct (m !! y) as [e|]; [|reflexivity].
  simpl. unfold Yearly.average. destruct (0 <? Yearly.count e)%nat; reflexivity.
Qed.

(** C4, as the code has it.  The counts of all years add up to the number of
    documents whose year is present and is not 0 ([!doc.Year] also skips the
    year 0).  The other documents are left out of every aggregate: the
    mapping is the one built from the remaining documents alone (under the
    same normalisation flag), and each year's count is the number of
    documents of that year. *)
Theorem year_counts_add_up (documentTopics : list document) :
  let used := filter (fun doc => Yearly.falsy_year (Year doc) = false) documentTopics in
  Yearly.total_count (Yearly.aggregateBooksByYear documentTopics) = length used
  /\ Yearly.aggregateBooksByYear documentTopics
     = Yearly.average <$>
         foldl (Yearly.add_doc (needsNormalization documentTopics)) ∅ used
  /\ forall y, Yearly.count_at (Yearly.aggregateBooksByYear documentTopics) y
               = length (filter (fun doc => Year doc = Some y /\ y <> 0%Z) documentTopics).
Proof.
  unfold Yearly.aggregateBooksByYear. cbv zeta. split; [|split].
  - rewrite total_count_average, total_count_foldl. reflexivity.
  - rewrite <- foldl_add_doc_filter. reflexivity.
  - intros y. rewrite count_at_average, count_at_foldl. reflexivity.
Qed.

(** ** Sorting by a key

    Every comparator of the program is a difference of keys. *)
Section sort_by_key.
Context {A : Type} (cmp : A -> A -> Z) (key : A -> Z).
Hypothesis cmp_key : forall x y, cmp x y = (key x - key y)%Z.

Let ordered (a b : A) : Prop := (key a <= key b)%Z.

Lemma sort_insert_sorted x l :
  StronglySorted ordered l -> StronglySorted ordered (sort_insert cmp x l).
Proof.
  induction 1 as [|y l Hl IH Hy]; simpl.
  - repeat constructor.
  - destruct (Z.leb_spec (cmp x y) 0) as [Hle|Hgt]; rewrite cmp_key in *.
    + constructor; [constructor; assumption|].
      constructor; [unfold ordered; lia|].
      eapply Forall_impl; [exact Hy|]. unfold ordered. intros z Hz. lia.
    + constructor; [exact IH|].
      rewrite sort_insert_perm. constructor; [unfold ordered; lia | exact Hy].
Qed.

Lemma Array_sort_sorted l : StronglySorted ordered (Array_sort cmp l).
Proof.
  induction l as [|x l IH]; [constructor|].
  apply sort_insert_sorted. exact IH.
Qed.

(** Stability: the elements of one key come out in the order they came in. *)
Lemma sort_insert_stable c x l :
  filter (fun a => key a = c) (sort_insert cmp x l)
  = filter (fun a => key a = c) (x :: l).
Proof.
  induction l as [|y l IH]; simpl; [reflexivity|].
  destruct (Z.leb_spec (cmp x y) 0) as [Hle|Hgt]; [reflexivity|].
  rewrite cmp_key in Hgt.
  rewrite (filter_cons _ y), IH, !filter_cons.
  repeat case_decide; try reflexivity; lia.
Qed.

Lemma Array_sort_stable c l :
  filter (fun a => key a = c) (Array_sort cmp l) = filter (fun a => key a = c) l.
Proof.
  induction l as [|x l IH]; [reflexivity|].
  change (Array_sort cmp (x :: l)) with (sort_insert cmp x (Array_sort cmp l)).
  rewrite sort_insert_stable, !filter_cons, IH. reflexivity.
Qed.
End sort_by_key.

(** ** First-seen order *)

Lemma first_seen_elem_of {A} `{EqDecision A} (l : list A) x :
  x ∈ first_seen l <-> x ∈ l.
Proof.
  induction l as [|w l IH]; simpl; [reflexivity|].
  rewrite !elem_of_cons, list_elem_of_filter, IH.
  destruct (decide (x = w)); tauto.
Qed.

Lemma first_seen_NoDup {A} `{EqDecision A} (l : list A) : NoDup (first_seen l).
Proof.
  induction l as [|w l IH]; simpl; constructor.
  - rewrite list_elem_of_filter. tauto.
  - apply NoDup_filter. exact IH.
Qed.

Lemma first_seen_snoc {A} `{EqDecision A} (l : list A) x :
  first_seen (l ++ [x])
  = if decide (x ∈ first_seen l) then first_seen l else first_seen l ++ [x].
Proof.
  induction l as [|w l IH]; simpl.
  - destruct (decide (x ∈ [])) as [Hin|]; [inversion Hin | reflexivity].
  - rewrite IH. destruct (decide (x = w)) as [->|Hne].
    + destruct (decide (w ∈ w :: _)) as [|Hn]; [|exfalso; apply Hn; left].
      destruct (decide (w ∈ first_seen l)); [reflexivity|].
      rewrite filter_app, filter_cons. case_decide; [congruence|].
      rewrite filter_nil, app_nil_r. reflexivity.
    + destruct (decide (x ∈ first_seen l)) as [Hin|Hnin].
      * destruct (decide (x ∈ w :: _)) as [|Hn]; [reflexivity|].
        exfalso. apply Hn. right. apply list_elem_of_filter. tauto.
      * destruct (decide (x ∈ w :: _)) as [Hin'|].
        { apply elem_of_cons in Hin' as [|Hin']; [congruence|].
          apply list_elem_of_filter in Hin'. tauto. }
        rewrite filter_app, filter_cons. case_decide; [|congruence].
        reflexivity.
Qed.

(** A run of insertions that skip what is already there leaves the base
    followed by the new elements in first-seen order. *)
Lemma foldl_insert_new {A} `{EqDecision A} (base ws : list A) :
  foldl (fun acc w => if decide (w ∈ acc) then acc else acc ++ [w]) base ws
  = base ++ first_seen (filter (fun w => w ∉ base) ws).
Proof.
  induction ws as [|w ws IH] using rev_ind; simpl.
  - rewrite app_nil_r. reflexivity.
  - rewrite foldl_app, IH, filter_app, filter_cons, filter_nil. simpl.
    destruct (decide (w ∉ base)) as [Hnb|Hb]; simpl.
    + rewrite first_seen_snoc.
      destruct (decide (w ∈ first_seen _)) as [Hin|Hnin].
      * destruct (decide (w ∈ base ++ _)) as [|Hn]; [reflexivity|].
        exfalso. apply Hn. apply elem_of_app. tauto.
      * destruct (decide (w ∈ base ++ _)) as [Hin|]; [|rewrite app_assoc; reflexivity].
        apply elem_of_app in Hin. tauto.
    + rewrite app_nil_r.
      destruct (decide (w ∈ base ++ _)) as [|Hn]; [reflexivity|].
      exfalso. apply Hn. apply elem_of_app. left.
      destruct (decide (w ∈ base)); tauto.
Qed.

(** ** Author aggregator *)

Lemma Map_get_None k (m : list (jsstring * Authors.authorRecord)) :
  Authors.Map_get k m = None <-> k ∉ m.*1.
Proof.
  induction m as [|[k' v] m IH]; simpl.
  - split; [intros _ Hin; inversion Hin | reflexivity].
  - rewrite not_elem_of_cons. destruct (decide (k' = k)) as [->|Hne].
    + split; [discriminate | tauto].
    + rewrite IH. split; [intros; split; [congruence | assumption] | tauto].
Qed.

Lemma Map_get_set_eq k v (m : list (jsstring * Authors.authorRecord)) :
  Authors.Map_get k (Authors.Map_set k v m) = Some v.
Proof.
  induction m as [|[k' v'] m IH]; simpl.
  - destruct (decide (k = k)); [reflexivity | congruence].
  - destruct (decide (k' = k)) as [->|Hne]; simpl.
    + destruct (decide (k = k)); [reflexivity | congruence].
    + destruct (decide (k' = k)); [congruence | exact IH].
Qed.

Lemma Map_get_set_ne k k' v (m : list (jsstring * Authors.authorRecord)) :
  k <> k' -> Authors.Map_get k' (Authors.Map_set k v m) = Authors.Map_get k' m.
Proof.
  intros Hne. induction m as [|[k0 v0] m IH]; simpl.
  - destruct (decide (k = k')); [congruence | reflexivity].
  - destruct (decide (k0 = k)) as [->|Hne0]; simpl.
    + destruct (decide (k = k')); [congruence | reflexivity].
    + destruct (decide (k0 = k')); [reflexivity | exact IH].
Qed.

Lemma Map_set_keys k v (m : list (jsstring * Authors.authorRecord)) :
  (Authors.Map_set k v m).*1 = if decide (k ∈ m.*1) then m.*1 else m.*1 ++ [k].
Proof.
  induction m as [|[k' v'] m IH].
  - reflexivity.
  - cbn [Authors.Map_set]. destruct (decide (k' = k)) as [->|Hne];
      rewrite !fmap_cons; cbn [fst].
    + clear IH. case_decide as Hn; [reflexivity|]. exfalso. apply Hn. left.
    + rewrite IH. clear IH. repeat case_decide; try reflexivity; exfalso;
      rewrite ?elem_of_app, ?elem_of_cons in *; intuition congruence.
Qed.

Lemma Map_get_elem k v (m : list (jsstring * Authors.authorRecord)) :
  NoDup m.*1 -> (k, v) ∈ m -> Authors.Map_get k m = Some v.
Proof.
  induction m as [|[k' v'] m IH]; simpl; intros Hnd Hin.
  - inversion Hin.
  - apply NoDup_cons in Hnd as [Hk' Hnd].
    apply elem_of_cons in Hin as [[= -> ->]|Hin].
    + destruct (decide (k' = k')); [reflexivity | congruence].
    + destruct (decide (k' = k)) as [->|Hne]; [|apply IH; assumption].
      exfalso. apply Hk'. apply list_elem_of_fmap. exists (k, v). split; [reflexivity | exact Hin].
Qed.

Lemma add_doc_get flag (m : list (jsstring * Authors.authorRecord)) doc k :
  Authors.Map_get k (Authors.add_doc flag m doc)
  = if decide (Authors.author_key doc = Some k)
    then Some (Authors.count_doc flag doc
                 (default (Authors.new_authorData k) (Authors.Map_get k m)))
    else Authors.Map_get k m.
Proof.
  unfold Authors.add_doc. destruct (Authors.author_key doc) as [a|].
  2: { destruct (decide (None = Some k)); [discriminate | reflexivity]. }
  unfold Authors.Map_has.
  destruct (Authors.Map_get a m) as [v|] eqn:Hget.
  - assert (Hin : a ∈ m.*1).
    { destruct (decide (a ∈ m.*1)) as [|Hn]; [assumption|].
      apply Map_get_None in Hn. congruence. }
    rewrite bool_decide_eq_true_2 by exact Hin. rewrite Hget.
    destruct (decide (Some a = Some k)) as [[= <-]|Hne].
    + rewrite Map_get_set_eq, Hget. reflexivity.
    + apply Map_get_set_ne. congruence.
  - assert (Hnin : a ∉ m.*1) by (apply Map_get_None; exact Hget).
    rewrite bool_decide_eq_false_2 by exact Hnin. rewrite Map_get_set_eq.
    destruct (decide (Some a = Some k)) as [[= <-]|Hne].
    + rewrite Map_get_set_eq, Hget. reflexivity.
    + rewrite !Map_get_set_ne by congruence. reflexivity.
Qed.

Lemma add_doc_keys flag (m : list (jsstring * Authors.authorRecord)) doc :
  (Authors.add_doc flag m doc).*1
  = match Authors.author_key doc with
    | Some k => if decide (k ∈ m.*1) then m.*1 else m.*1 ++ [k]
    | None => m.*1
    end.
Proof.
  unfold Authors.add_doc. destruct (Authors.author_key doc) as [a|]; [|reflexivity].
  unfold Authors.Map_has.
  destruct (decide (a ∈ m.*1)) as [Hin|Hnin].
  - rewrite bool_decide_eq_true_2 by exact Hin.
    destruct (Authors.Map_get a m) as [v|] eqn:Hget; [|reflexivity].
    rewrite Map_set_keys. case_decide; [reflexivity | tauto].
  - rewrite bool_decide_eq_false_2 by exact Hnin. rewrite Map_get_set_eq.
    rewrite !Map_set_keys. repeat case_decide; try reflexivity; exfalso;
      rewrite ?elem_of_app, ?elem_of_cons in *; intuition congruence.
Qed.

Lemma documents_of_snoc k (docs : list document) doc :
  Authors.documents_of k (docs ++ [doc])
  = (Authors.documents_of k docs
     + if decide (Authors.author_key doc = Some k) then 1 else 0)%nat.
Proof.
  unfold Authors.documents_of. rewrite filter_app, length_app, filter_cons, filter_nil.
  case_decide; reflexivity.
Qed.

(** The map after the loop: its keys are the trimmed author names in the
    order in which the documents first show them. *)
Lemma authorMap_keys flag (docs : list document) :
  (foldl (Authors.add_doc flag) [] docs).*1 = first_seen (omap Authors.author_key docs).
Proof.
  induction docs as [|doc docs IH] using rev_ind; [reflexivity|].
  rewrite foldl_app, omap_app. simpl. rewrite add_doc_keys, IH.
  destruct (Authors.author_key doc) as [k|].
  - rewrite first_seen_snoc. reflexivity.
  - rewrite app_nil_r. reflexivity.
Qed.

(** The value under a key: the author's name and the number of documents
    counted under it. *)
Lemma authorMap_get flag (docs : list document) k :
  match Authors.Map_get k (foldl (Authors.add_doc flag) [] docs) with
  | Some v => Authors.name v = k
              /\ Authors.count v = Authors.documents_of k docs
              /\ (0 < Authors.count v)%nat
  | None => Authors.documents_of k docs = 0%nat
  end.
Proof.
  induction docs as [|doc docs IH] using rev_ind; [reflexivity|].
  rewrite foldl_app. simpl. rewrite add_doc_get, documents_of_snoc.
  destruct (decide (Authors.author_key doc = Some k)) as [Hk|Hk].
  - destruct (Authors.Map_get k (foldl (Authors.add_doc flag) [] docs)) as [v|]; simpl.
    + destruct IH as (Hn & Hc & _). repeat split; [exact Hn | lia | lia].
    + repeat split; lia.
  - destruct (Authors.Map_get k (foldl (Authors.add_doc flag) [] docs)) as [v|].
    + destruct IH as (Hn & Hc & Hp). repeat split; [exact Hn | lia | exact Hp].
    + lia.
Qed.

Lemma authorMap_entry flag (docs : list document) k v :
  (k, v) ∈ foldl (Authors.add_doc flag) [] docs ->
  Authors.name v = k
  /\ Authors.count v = Authors.documents_of k docs
  /\ (0 < Authors.count v)%nat.
Proof.
  intros Hin. pose proof (authorMap_get flag docs k) as Hget.
  rewrite (Map_get_elem k v) in Hget; [exact Hget | | exact Hin].
  rewrite authorMap_keys. apply first_seen_NoDup.
Qed.

Lemma authors_of_names (docs : list document) :
  map Authors.author_name (Authors.authors_of docs)
  = first_seen (omap Authors.author_key docs).
Proof.
  unfold Authors.authors_of. cbv zeta.
  rewrite <- (authorMap_keys (needsNormalization docs) docs).
  change (map Authors.author_name (map Authors.summarize (map snd ?m)))
    with (Authors.author_name <$> (Authors.summarize <$> (snd <$> m))).
  rewrite <- !list_fmap_compose. apply list_fmap_ext.
  intros i [k v] Hi. simpl.
  apply (authorMap_entry (needsNormalization docs) docs k v).
  apply list_elem_of_lookup. exists i. exact Hi.
Qed.

Lemma authors_of_counts (docs : list document) a :
  a ∈ Authors.authors_of docs ->
  Authors.author_count a = Authors.documents_of (Authors.author_name a) docs
  /\ (0 < Authors.author_count a)%nat.
Proof.
  unfold Authors.authors_of. cbv zeta. intros Ha.
  apply list_elem_of_fmap in Ha as (v & -> & Hv).
  apply list_elem_of_fmap in Hv as ([k v'] & -> & Hkv). simpl.
  destruct (authorMap_entry _ _ _ _ Hkv) as (Hn & Hc & Hp).
  rewrite Hn. split; assumption.
Qed.

Lemma author_key_None (doc : document) :
  Authors.author_key doc = None
  <-> (forall a, Author doc = Some a -> Authors.trim a = []).
Proof.
  unfold Authors.author_key. destruct (Author doc) as [a|].
  - destruct a as [|c a]; simpl.
    + split; [intros _ a [= <-]; reflexivity | reflexivity].
    + destruct (Authors.trim (c :: a)) eqn:Ht; simpl.
      * split; [intros _ a' [= <-]; exact Ht | reflexivity].
      * split; [discriminate|]. intros H. specialize (H _ eq_refl). congruence.
  - split; [intros _ a; discriminate | reflexivity].
Qed.

Lemma by_count_key (a b : Authors.author) :
  Authors.by_count a b
  = (- Z.of_nat (Authors.author_count a) - - Z.of_nat (Authors.author_count b))%Z.
Proof. unfold Authors.by_count. lia. Qed.

Lemma sorted_authors_descending (l : list Authors.author) :
  StronglySorted (fun a b => Authors.author_count b <= Authors.author_count a)
    (Array_sort Authors.by_count l).
Proof.
  pose proof (Array_sort_sorted Authors.by_count
                (fun a => (- Z.of_nat (Authors.author_count a))%Z) by_count_key l) as H.
  induction H as [|a s Hs IH Ha]; constructor; [exact IH|].
  eapply Forall_impl; [exact Ha|]. simpl. intros b Hb. lia.
Qed.

Lemma sorted_authors_stable c (l : list Authors.author) :
  filter (fun a => Authors.author_count a = c) (Array_sort Authors.by_count l)
  = filter (fun a => Authors.author_count a = c) l.
Proof.
  pose proof (Array_sort_stable Authors.by_count
                (fun a => (- Z.of_nat (Authors.author_count a))%Z) by_count_key
                (- Z.of_nat c)%Z l) as H.
  rewrite (list_filter_iff (fun a => Authors.author_count a = c)
             (fun a => (- Z.of_nat (Authors.author_count a))%Z = (- Z.of_nat c)%Z)) by (intros; lia).
  rewrite H. apply list_filter_iff. intros; lia.
Qed.

(** C8. [getTopAuthors] returns the first [topN] authors, or all of them if
    there are fewer, so at most [topN], sorted by document count descending.
    The authors are the different trimmed names of the documents.  Authors
    with the same count come in the order in which the documents first name
    them: for every count, the returned authors of that count are the first
    ones of that count in encounter order.  Every returned author has at
    least the count of every author left out.  An author's count is the
    number of documents whose trimmed author is that name; a document whose
    author is absent, empty or blank after trimming has no key and is counted
    nowhere. *)
Theorem top_authors (documentTopics : list document) (topN : nat) :
  let all := Authors.authors_of documentTopics in
  let top := Authors.getTopAuthors documentTopics topN in
  length top <= topN
  /\ length top = Nat.min topN (length all)
  /\ length all = length (first_seen (omap Authors.author_key documentTopics))
  /\ top ⊆+ all
  /\ StronglySorted (fun a b => Authors.author_count b <= Authors.author_count a) top
  /\ (forall c, filter (fun a => Authors.author_count a = c) top
                `prefix_of` filter (fun a => Authors.author_count a = c) all)
  /\ map Authors.author_name all = first_seen (omap Authors.author_key documentTopics)
  /\ (forall a, a ∈ top -> a ∈ all)
  /\ (forall a b, a ∈ top -> b ∈ all -> b ∉ top ->
                  Authors.author_count b <= Authors.author_count a)
  /\ (forall a, a ∈ all ->
        Authors.author_count a
        = Authors.documents_of (Authors.author_name a) documentTopics
        /\ 0 < Authors.author_count a)
  /\ (forall doc, Authors.author_key doc = None
                  <-> (forall a, Author doc = Some a -> Authors.trim a = [])).
Proof.
  intros all top. subst top. unfold Authors.getTopAuthors. cbv zeta. fold all.
  set (sorted := Array_sort Authors.by_count all).
  assert (Hsplit : sorted = take topN sorted ++ drop topN sorted)
    by (symmetry; apply take_drop).
  assert (Hsorted : StronglySorted
            (fun a b => Authors.author_count b <= Authors.author_count a) sorted)
    by apply sorted_authors_descending.
  assert (Hperm : sorted ≡ₚ all) by apply Array_sort_perm.
  split; [rewrite length_take; lia|].
  split; [rewrite length_take, Hperm; reflexivity|].
  split.
  { unfold all. rewrite <- authors_of_names. symmetry. apply length_map. }
  split; [rewrite <- Hperm; apply sublist_submseteq, sublist_take|].
  split; [rewrite Hsplit in Hsorted; eapply StronglySorted_app_1_l; exact Hsorted|].
  split.
  { intros c. rewrite <- (sorted_authors_stable c all). fold sorted.
    rewrite Hsplit at 2. rewrite filter_app. apply prefix_app_r. reflexivity. }
  split; [apply authors_of_names|].
  split.
  { intros a Ha. apply (Array_sort_elem_of Authors.by_count all). fold sorted.
    rewrite Hsplit. apply elem_of_app. left. exact Ha. }
  split.
  { intros a b Ha Hb Hnb.
    apply (Array_sort_elem_of Authors.by_count all) in Hb. fold sorted in Hb.
    rewrite Hsplit in Hb, Hsorted. apply elem_of_app in Hb as [Hb|Hb]; [tauto|].
    exact (StronglySorted_app_1_elem_of _ _ _ _ _ Hsorted Ha Hb). }
  split; [apply authors_of_counts | apply author_key_None].
Qed.

(** ** Keyword merger *)

Lemma find_topic_found (h : Keywords.store) topics tid l :
  Keywords.find_topic h topics tid = Some l -> is_Some (h !! l).
Proof.
  unfold Keywords.find_topic. intros Hf. apply find_some in Hf as [_ Hf].
  destruct (h !! l); [eexists; reflexivity | discriminate].
Qed.

Lemma add_word_lookup topics (h : Keywords.store) w l :
  Keywords.add_word topics h w !! l
  = if decide (Keywords.reaches h topics l w)
    then Keywords.push_new (Keywords.word w) <$> h !! l
    else h !! l.
Proof.
  unfold Keywords.add_word, Keywords.reaches.
  destruct (decide (Keywords.topic_id w = 0%Z)) as [H0|H0].
  { rewrite (bool_decide_eq_true_2 _ H0). simpl. case_decide; [tauto | reflexivity]. }
  rewrite (bool_decide_eq_false_2 _ H0). simpl.
  destruct (decide (Keywords.word w = [])) as [Hw|Hw].
  { rewrite (bool_decide_eq_true_2 _ Hw). case_decide; [tauto | reflexivity]. }
  rewrite (bool_decide_eq_false_2 _ Hw).
  destruct (Keywords.find_topic h topics (Keywords.topic_id w)) as [l0|] eqn:Hf.
  2: { case_decide as Hr; [|reflexivity]. destruct Hr as (_ & _ & ?). discriminate. }
  destruct (find_topic_found _ _ _ _ Hf) as [t Ht]. rewrite Ht.
  destruct (decide (l0 = l)) as [<-|Hne].
  - case_decide as Hr; [|tauto]. rewrite Ht. simpl. unfold Keywords.push_new.
    destruct (decide (Keywords.word w ∈ Keywords.keywords t)) as [Hin|Hnin].
    + rewrite (bool_decide_eq_true_2 _ Hin), Ht. destruct t; reflexivity.
    + rewrite (bool_decide_eq_false_2 _ Hnin). cbv iota.
      rewrite lookup_insert_eq. reflexivity.
  - case_decide as Hr; [destruct Hr as (_ & _ & ?); congruence|].
    destruct (bool_decide (Keywords.word w ∈ Keywords.keywords t)); [reflexivity|].
    apply lookup_insert_ne. exact Hne.
Qed.

Lemma add_word_id topics (h : Keywords.store) w l :
  Keywords.id <$> Keywords.add_word topics h w !! l = Keywords.id <$> h !! l.
Proof.
  rewrite add_word_lookup. case_decide; [|reflexivity].
  destruct (h !! l); reflexivity.
Qed.

Lemma find_topic_ext (h1 h2 : Keywords.store) topics tid :
  (forall l, Keywords.id <$> h1 !! l = Keywords.id <$> h2 !! l) ->
  Keywords.find_topic h1 topics tid = Keywords.find_topic h2 topics tid.
Proof.
  intros Hid. unfold Keywords.find_topic.
  induction topics as [|l topics IH]; simpl; [reflexivity|].
  specialize (Hid l). rewrite IH.
  destruct (h1 !! l) as [t1|], (h2 !! l) as [t2|]; try discriminate; [|reflexivity].
  simpl in Hid. injection Hid as ->. reflexivity.
Qed.

Lemma words_for_ext (h1 h2 : Keywords.store) topics l rows :
  (forall l, Keywords.id <$> h1 !! l = Keywords.id <$> h2 !! l) ->
  Keywords.words_for h1 topics l rows = Keywords.words_for h2 topics l rows.
Proof.
  intros Hid. unfold Keywords.words_for. f_equal.
  apply list_filter_iff. intros w. unfold Keywords.reaches.
  rewrite (find_topic_ext h1 h2) by exact Hid. reflexivity.
Qed.

(** The store after the loop, one object at a time: the keywords of the
    object at [l] have taken, in order, the words of the rows that reach it,
    skipping those they already hold. *)
Lemma foldl_add_word_lookup topics rows (h : Keywords.store) l :
  foldl (Keywords.add_word topics) h rows !! l
  = (fun t => {| Keywords.id := Keywords.id t;
                 Keywords.name := Keywords.name t;
                 Keywords.keywords :=
                   foldl (fun acc w => if decide (w ∈ acc) then acc else acc ++ [w])
                         (Keywords.keywords t) (Keywords.words_for h topics l rows) |})
    <$> h !! l.
Proof.
  revert h. induction rows as [|w rows IH]; intros h; simpl.
  - destruct (h !! l) as [[]|]; reflexivity.
  - rewrite IH, (words_for_ext (Keywords.add_word topics h w) h)
      by (intros; apply add_word_id).
    rewrite add_word_lookup. unfold Keywords.words_for at 2.
    rewrite filter_cons. fold (Keywords.words_for h topics l rows).
    destruct (decide (Keywords.reaches h topics l w)); [|reflexivity].
    destruct (h !! l) as [t|]; reflexivity.
Qed.

Lemma words_for_absent (h : Keywords.store) topics l rows :
  h !! l = None -> Keywords.words_for h topics l rows = [].
Proof.
  intros Hl. unfold Keywords.words_for.
  induction rows as [|w rows IH]; [reflexivity|].
  rewrite filter_cons. case_decide as Hr; [|exact IH].
  destruct Hr as (_ & _ & Hf). apply find_topic_found in Hf as [t Ht]. congruence.
Qed.

Lemma keywords_at_enhanced (h : Keywords.store) topics rows l :
  Keywords.keywords_at (foldl (Keywords.add_word topics) h rows) l
  = Keywords.merged (Keywords.keywords_at h l) (Keywords.words_for h topics l rows).
Proof.
  unfold Keywords.keywords_at. rewrite foldl_add_word_lookup.
  destruct (h !! l) as [t|] eqn:Hl; simpl.
  - apply foldl_insert_new.
  - rewrite words_for_absent by exact Hl. reflexivity.
Qed.

Lemma merged_NoDup (base ws : list jsstring) :
  NoDup base -> NoDup (Keywords.merged base ws).
Proof.
  intros Hb. unfold Keywords.merged. apply NoDup_app. split; [exact Hb|]. split.
  - intros x Hx Hin. apply first_seen_elem_of, list_elem_of_filter in Hin. tauto.
  - apply first_seen_NoDup.
Qed.

(** C3, as the code has it.  Every returned keyword list is the base list,
    in its order, followed by the words of the expanded rows that reach the
    topic and are not in the base list, each once, in the order in which the
    rows first show them.  It has no duplicate when the base list has none
    (a word the base list repeats stays repeated).  A row reaches a topic
    when its id is not 0, its word is not empty and the topic is the first of
    the array with that id.  Ids and names are unchanged. *)
Theorem merged_keywords (h : Keywords.store) (topicKeywords : list nat)
    (expandedWordlist : list Keywords.wordItem) :
  let h' := fst (Keywords.enhanceTopicKeywords h topicKeywords expandedWordlist) in
  let result := snd (Keywords.enhanceTopicKeywords h topicKeywords expandedWordlist) in
  result = topicKeywords
  /\ Keywords.keyword_lists h' result
     = map (fun l => Keywords.merged (Keywords.keywords_at h l)
                       (Keywords.words_for h topicKeywords l expandedWordlist))
           topicKeywords
  /\ (Forall (fun l => NoDup (Keywords.keywords_at h l)) topicKeywords ->
      Forall (fun kws => NoDup kws) (Keywords.keyword_lists h' result))
  /\ (forall l, Keywords.id <$> h' !! l = Keywords.id <$> h !! l
                /\ Keywords.name <$> h' !! l = Keywords.name <$> h !! l).
Proof.
  unfold Keywords.enhanceTopicKeywords, Keywords.keyword_lists. cbn [fst snd].
  split; [reflexivity|]. split; [|split].
  - apply map_ext. intros l. apply keywords_at_enhanced.
  - intros Hb. apply Forall_fmap. eapply Forall_impl; [exact Hb|].
    intros l Hl. simpl. rewrite keywords_at_enhanced. apply merged_NoDup. exact Hl.
  - intros l. rewrite foldl_add_word_lookup. destruct (h !! l); split; reflexivity.
Qed.

(** A base list that repeats a word: [prepareTopicKeywords] keeps the row
    of the NMF table as it is (it drops the empty strings only), and the
    merger appends to it. *)
Lemma repeated_base_keyword_stays :
  let topics := Keywords.allocate (Keywords.prepareTopicKeywords Samples.nmf_repeated []) in
  let h' := fst (Keywords.enhanceTopicKeywords (fst topics) (snd topics) []) in
  let result := snd (Keywords.enhanceTopicKeywords (fst topics) (snd topics) []) in
  Keywords.keyword_lists h' result = [[js "a"; js "a"]]
  /\ ~ Forall (fun kws => NoDup kws) (Keywords.keyword_lists h' result).
Proof.
  split; [vm_compute; reflexivity|].
  intros H. apply Forall_inv in H. apply NoDup_cons in H as [H _].
  apply H. vm_compute. left.
Qed.

(** C2. [enhanceTopicKeywords] changes its argument: the copy
    [[...topicKeywords]] holds the same topic objects, and
    [topic.keywords.push(word)] writes into them.  For the base topic with
    the keyword "a" and the expanded row (1, "b"), the keyword list the
    caller's array shows is ["a"] before the call and ["a", "b"] after it. *)
Theorem enhanceTopicKeywords_writes_its_argument :
  let topicKeywords := Keywords.allocate [Samples.base_topic] in
  let h' := fst (Keywords.enhanceTopicKeywords (fst topicKeywords) (snd topicKeywords)
                   [Samples.row_b]) in
  Keywords.keyword_lists (fst topicKeywords) (snd topicKeywords) = [[js "a"]]
  /\ Keywords.keyword_lists h' (snd topicKeywords) = [[js "a"; js "b"]].
Proof. split; vm_compute; reflexivity. Qed.

(** A document of the year 0 has a year and is counted nowhere. *)
Lemma year_zero_not_counted :
  Yearly.total_count (Yearly.aggregateBooksByYear Samples.year_zero)
  <> length (filter (fun doc => is_Some (Year doc)) Samples.year_zero).
Proof. vm_compute. discriminate. Qed.

(** ** Correlation engine *)

Lemma foldl_ext_all {A B} (f g : A -> B -> A) (a : A) (l : list B) :
  (forall a b, f a b = g a b) -> foldl f a l = foldl g a l.
Proof.
  intros Hfg. revert a. induction l as [|b l IH]; intros a; simpl; [reflexivity|].
  rewrite Hfg. apply IH.
Qed.

Lemma get_replicate n (x : float) i : i < n -> get (replicate n x) i = x.
Proof.
  intros Hi. unfold get. rewrite lookup_replicate_2 by exact Hi. reflexivity.
Qed.

Lemma get2_lookup (m : list (list float)) i j row x :
  m !! i = Some row -> row !! j = Some x -> get2 m i j = x.
Proof. intros Hi Hj. unfold get2, get. rewrite Hi. simpl. rewrite Hj. reflexivity. Qed.

Lemma covarianceMatrix_cell (documentTopics : list document) i j :
  i < 13 -> j < 13 ->
  get2 (covarianceMatrix documentTopics) i j = covariance documentTopics i j.
Proof.
  intros Hi Hj. unfold covarianceMatrix, covarianceMatrix_of, covariance, numTopics.
  eapply get2_lookup.
  - rewrite for_cells_lookup. destruct (decide (i < 13)); [|lia].
    rewrite (foldl_for_cells 13
               (fun normalizedValues i row =>
                  for_cells 13 (fun j c =>
                    c + (get normalizedValues i - get (topicMeans documentTopics) i)
                        * (get normalizedValues j - get (topicMeans documentTopics) j)) row))
      by exact Hi.
    rewrite lookup_replicate_2 by exact Hi. reflexivity.
  - rewrite for_cells_lookup. destruct (decide (j < 13)); [|lia].
    rewrite (foldl_for_cells 13
               (fun normalizedValues j c =>
                  c + (get normalizedValues i - get (topicMeans documentTopics) i)
                      * (get normalizedValues j - get (topicMeans documentTopics) j)))
      by exact Hj.
    rewrite lookup_replicate_2 by exact Hj. reflexivity.
Qed.

Lemma topicStdDevs_cell (documentTopics : list document) i :
  i < 13 ->
  get (topicStdDevs documentTopics) i = PrimFloat.sqrt (topicVariance documentTopics i).
Proof.
  intros Hi. unfold topicStdDevs, topicStdDevs_of, topicVariance, numTopics, get.
  rewrite list_lookup_fmap.
  rewrite (foldl_for_cells 13
             (fun normalizedValues i v =>
                v + pow2 (get normalizedValues i - get (topicMeans documentTopics) i)))
    by exact Hi.
  rewrite lookup_replicate_2 by exact Hi. reflexivity.
Qed.

Lemma correlationMatrix_cell (cov : list (list float)) (std : list float) i j :
  i < 13 -> j < 13 ->
  get2 (correlationMatrix_of cov std) i j
  = if gt0 (get std i) && gt0 (get std j)
    then get2 cov i j / (get std i * get std j)
    else 0.
Proof.
  intros Hi Hj. unfold correlationMatrix_of, numTopics. eapply get2_lookup.
  - rewrite for_cells_lookup. destruct (decide (i < 13)); [|lia].
    rewrite lookup_replicate_2 by exact Hi. reflexivity.
  - rewrite for_cells_lookup. destruct (decide (j < 13)); [|lia].
    rewrite lookup_replicate_2 by exact Hj. reflexivity.
Qed.

Lemma correlationMatrix_shape (cov : list (list float)) (std : list float) :
  length (correlationMatrix_of cov std) = 13%nat
  /\ Forall (fun row => length row = 13%nat) (correlationMatrix_of cov std).
Proof.
  unfold correlationMatrix_of, numTopics. split.
  - rewrite for_cells_length. apply length_replicate.
  - apply Forall_forall. intros row Hrow.
    apply list_elem_of_lookup in Hrow as [i Hi].
    rewrite for_cells_lookup in Hi.
    destruct (decide (i < 13)) as [Hlt|Hge].
    + rewrite lookup_replicate_2 in Hi by exact Hlt. injection Hi as <-.
      rewrite for_cells_length. reflexivity.
    + apply lookup_replicate in Hi as [-> _]. reflexivity.
Qed.

Lemma covariance_sym (documentTopics : list document) i j :
  covariance documentTopics i j = covariance documentTopics j i.
Proof.
  unfold covariance. f_equal. apply foldl_ext_all. intros c nv.
  f_equal. apply float_mul_comm.
Qed.

(** The square root of a zero is that zero, which is not greater than 0. *)
Lemma sqrt_zero_not_positive (v : float) :
  (v =? 0) = true -> gt0 (PrimFloat.sqrt v) = false.
Proof.
  unfold gt0. rewrite FloatAxioms.eqb_spec, FloatAxioms.ltb_spec, FloatAxioms.sqrt_spec.
  change (Prim2SF 0) with (S754_zero false).
  destruct (Prim2SF v) as [s|s| |s m e]; try discriminate;
    destruct s; try discriminate; reflexivity.
Qed.

(** The matrix as the function computes it.  It is 13 x 13 and symmetric.
    An entry is 0 whenever the standard deviation of one of its two topics is
    not greater than 0, which is the case when the variance the function has
    computed for the topic is a zero; otherwise it is the covariance divided
    by the product of the two standard deviations, each the square root of
    the computed variance. *)
Theorem correlation_matrix (documentTopics : list document) :
  let corr := calculateTopicCorrelations documentTopics in
  let std := get (topicStdDevs documentTopics) in
  length corr = 13%nat
  /\ Forall (fun row => length row = 13%nat) corr
  /\ (forall i j, i < 13 -> j < 13 -> get2 corr i j = get2 corr j i)
  /\ (forall i, i < 13 -> std i = PrimFloat.sqrt (topicVariance documentTopics i))
  /\ (forall i j, i < 13 -> j < 13 ->
        gt0 (std i) && gt0 (std j) = false -> get2 corr i j = 0)
  /\ (forall i j, i < 13 -> j < 13 ->
        (topicVariance documentTopics i =? 0) = true
        \/ (topicVariance documentTopics j =? 0) = true ->
        get2 corr i j = 0)
  /\ (forall i j, i < 13 -> j < 13 ->
        gt0 (std i) && gt0 (std j) = true ->
        get2 corr i j = covariance documentTopics i j / (std i * std j)).
Proof.
  intros corr std. subst corr std. unfold calculateTopicCorrelations.
  destruct (correlationMatrix_shape (covarianceMatrix documentTopics)
              (topicStdDevs documentTopics)) as [Hlen Hrows].
  split; [exact Hlen|]. split; [exact Hrows|]. split; [|split; [|split; [|split]]].
  - intros i j Hi Hj. rewrite !correlationMatrix_cell by assumption.
    rewrite !covarianceMatrix_cell by assumption.
    rewrite (andb_comm (gt0 (get (topicStdDevs documentTopics) j))).
    rewrite (covariance_sym documentTopics j i).
    rewrite (float_mul_comm (get (topicStdDevs documentTopics) j)).
    reflexivity.
  - intros i Hi. apply topicStdDevs_cell. exact Hi.
  - intros i j Hi Hj Hstd. rewrite correlationMatrix_cell by assumption.
    rewrite Hstd. reflexivity.
  - intros i j Hi Hj Hvar. rewrite correlationMatrix_cell by assumption.
    rewrite !topicStdDevs_cell by assumption.
    destruct Hvar as [Hv|Hv]; rewrite (sqrt_zero_not_positive _ Hv).
    + reflexivity.
    + rewrite andb_false_r. reflexivity.
  - intros i j Hi Hj Hstd. rewrite correlationMatrix_cell by assumption.
    rewrite Hstd, covarianceMatrix_cell by assumption. reflexivity.
Qed.

(** Three documents with [Topic_1 = 0] and one with [Topic_1 = 1]: the
    variance of [Topic_1] is 0.1875, its standard deviation squared rounds
    below that, and the diagonal entry comes out above 1. *)
Lemma diagonal_above_one :
  let corr := calculateTopicCorrelations Samples.three_and_one in
  (topicVariance Samples.three_and_one 0 =? 0) = false
  /\ get2 corr 0 0 = 1.0000000000000002
  /\ get2 corr 0 0 <> 1
  /\ (get2 corr 0 0 <=? 1) = false
  /\ (-1 <=? get2 corr 0 1) = false.
Proof.
  cbv zeta. split; [vm_compute; reflexivity|]. split; [vm_compute; reflexivity|].
  split; [|split; vm_compute; reflexivity].
  intros H. apply (f_equal (fun x => x =? 1)) in H. vm_compute in H. discriminate.
Qed.

(** C9. Topics without variance are given correlations.  In three documents
    with the same weights 0.1, 0.2 and 0.7 no topic varies, and the matrix
    should be all zeros.  The mean of three times 0.1 is computed as
    0.10000000000000002, so every document is found to deviate from it: the
    variances come out as 1.9e-34, 7.7e-34 and 1.2e-32 instead of 0, the guard
    [topicStdDevs[i] > 0 && topicStdDevs[j] > 0] lets the three topics
    through, and their entries are 1 and -1. *)
Theorem constant_topics_correlated :
  let documentTopics := Samples.three_alike in
  let corr := calculateTopicCorrelations documentTopics in
  needsNormalization documentTopics = false
  /\ normalizedDocs documentTopics
     = replicate 3 [0.1; 0.2; 0.7; 0; 0; 0; 0; 0; 0; 0; 0; 0; 0]
  /\ take 3 (topicMeans documentTopics)
     = [0.10000000000000002; 0.20000000000000004; 0.69999999999999984]
  /\ map (topicVariance documentTopics) [0; 1; 2]%nat
     = [1.9259299443872359e-34; 7.7037197775489434e-34; 1.2325951644078309e-32]
  /\ map (fun i => gt0 (get (topicStdDevs documentTopics) i)) [0; 1; 2]%nat
     = [true; true; true]
  /\ map (take 3) (take 3 corr) = [[1; 1; -1]; [1; 1; -1]; [-1; -1; 1]]
  /\ get2 corr 0 1 <> 0.
Proof.
  cbv zeta. repeat (split; [vm_compute; reflexivity|]).
  intros H. apply (f_equal (fun x => x =? 0)) in H. vm_compute in H. discriminate.
Qed.

(** ** Rounding

    [binary_round_aux] shifts the mantissa to the precision of the format,
    rounds it and shifts once more.  The lemmas below follow a mantissa that
    is not negative through these steps and bound what the sum and the
    quotient of two such numbers lose. *)
Local Open Scope Z_scope.

Lemma shr_1_m mrs : 0 <= shr_m mrs -> shr_m (shr_1 mrs) = shr_m mrs / 2.
Proof.
  destruct mrs as [m r s]. simpl. intros Hm.
  destruct m as [|p|p]; [reflexivity| |lia].
  destruct p as [p|p|]; simpl.
  - rewrite Pos2Z.inj_xI. apply Z.div_unique with 1; lia.
  - rewrite Pos2Z.inj_xO. apply Z.div_unique with 0; lia.
  - reflexivity.
Qed.

Lemma shr_iter_m n mrs :
  0 <= shr_m mrs -> shr_m (SpecFloat.iter_pos shr_1 n mrs) = shr_m mrs / 2 ^ Zpos n.
Proof.
  revert mrs. induction n as [n IH|n IH|]; intros mrs Hm; cbn [SpecFloat.iter_pos].
  - assert (H1 : 0 <= shr_m (shr_1 mrs)) by (rewrite shr_1_m by lia; apply Z.div_pos; lia).
    assert (H2 : 0 <= shr_m (SpecFloat.iter_pos shr_1 n (shr_1 mrs))) by (rewrite IH by lia; apply Z.div_pos; lia).
    rewrite IH, IH, shr_1_m by assumption.
    rewrite !Z.div_div by lia. f_equal.
    rewrite Pos2Z.inj_xI. rewrite <- !Z.pow_add_r, <- Z.pow_succ_r by lia. f_equal. lia.
  - assert (H2 : 0 <= shr_m (SpecFloat.iter_pos shr_1 n mrs)) by (rewrite IH by lia; apply Z.div_pos; lia).
    rewrite IH, IH by assumption.
    rewrite !Z.div_div by lia. f_equal.
    rewrite Pos2Z.inj_xO. rewrite <- !Z.pow_add_r by lia. f_equal. lia.
  - rewrite shr_1_m by lia. reflexivity.
Qed.

(** The shift of [shr], whatever the sign of the count. *)
Lemma shr_spec mrs e n :
  0 <= shr_m mrs ->
  shr_m (fst (shr mrs e n)) = shr_m mrs / 2 ^ Z.max 0 n
  /\ snd (shr mrs e n) = e + Z.max 0 n.
Proof.
  intros Hm. unfold shr. destruct n as [|p|p]; simpl fst; simpl snd.
  - rewrite Z.div_1_r. lia.
  - rewrite shr_iter_m by exact Hm. replace (Z.max 0 (Z.pos p)) with (Z.pos p) by lia. lia.
  - replace (Z.max 0 (Z.neg p)) with 0 by lia. rewrite Z.div_1_r. lia.
Qed.

Lemma digits2_bounds p :
  2 ^ (Zpos (digits2_pos p) - 1) <= Zpos p < 2 ^ Zpos (digits2_pos p).
Proof.
  induction p as [p IH|p IH|]; cbn [digits2_pos].
  - rewrite Pos2Z.inj_succ.
    replace (Z.succ (Zpos (digits2_pos p)) - 1) with (Z.succ (Zpos (digits2_pos p) - 1)) by lia.
    rewrite !Z.pow_succ_r by lia. lia.
  - rewrite Pos2Z.inj_succ.
    replace (Z.succ (Zpos (digits2_pos p)) - 1) with (Z.succ (Zpos (digits2_pos p) - 1)) by lia.
    rewrite !Z.pow_succ_r by lia. lia.
  - simpl. lia.
Qed.

(** The number of binary digits of a mantissa that is not negative. *)
Lemma Zdigits2_nonneg m : 0 <= m -> 0 <= Zdigits2 m.
Proof. destruct m; simpl; lia. Qed.

Lemma Zdigits2_bounds m :
  0 < m -> 2 ^ (Zdigits2 m - 1) <= m < 2 ^ Zdigits2 m.
Proof. destruct m as [|p|p]; try lia. intros _. apply digits2_bounds. Qed.

Lemma Zdigits2_le m k : 0 <= m < 2 ^ k -> 0 <= k -> Zdigits2 m <= k.
Proof.
  intros [Hm Hk] Hk0. destruct (Z.eq_dec m 0) as [->|Hne]; [simpl; lia|].
  destruct (Zdigits2_bounds m ltac:(lia)) as [Hlo _].
  destruct (Z_le_gt_dec (Zdigits2 m) k) as [|Hgt]; [assumption|].
  assert (2 ^ k <= 2 ^ (Zdigits2 m - 1)) by (apply Z.pow_le_mono_r; lia). lia.
Qed.

Lemma Zdigits2_ge m k : 2 ^ k <= m -> 0 <= k -> k + 1 <= Zdigits2 m.
Proof.
  intros Hm Hk0. assert (0 < m) by (pose proof (Z.pow_pos_nonneg 2 k); lia).
  destruct (Zdigits2_bounds m ltac:(lia)) as [_ Hhi].
  destruct (Z_le_gt_dec (k + 1) (Zdigits2 m)) as [|Hgt]; [assumption|].
  pose proof (Zdigits2_nonneg m ltac:(lia)).
  assert (2 ^ Zdigits2 m <= 2 ^ k) by (apply Z.pow_le_mono_r; lia). lia.
Qed.

Lemma div_pow2_digits m n :
  0 <= m -> 0 <= n -> Zdigits2 (m / 2 ^ n) <= Z.max 0 (Zdigits2 m - n).
Proof.
  intros Hm Hn. destruct (Z.eq_dec m 0) as [->|Hne].
  { rewrite Z.div_0_l by (pose proof (Z.pow_pos_nonneg 2 n); lia). simpl. lia. }
  destruct (Zdigits2_bounds m ltac:(lia)) as [Hlo Hhi].
  pose proof (Zdigits2_nonneg m Hm) as Hd.
  assert (H2n : 0 < 2 ^ n) by (apply Z.pow_pos_nonneg; lia).
  apply Zdigits2_le; [|lia]. split; [apply Z.div_pos; lia|].
  apply Z.div_lt_upper_bound; [lia|].
  destruct (Z_le_gt_dec n (Zdigits2 m)) as [Hle|Hgt].
  - replace (Z.max 0 (Zdigits2 m - n)) with (Zdigits2 m - n) by lia.
    rewrite <- Z.pow_add_r by lia. replace (n + (Zdigits2 m - n)) with (Zdigits2 m) by lia. lia.
  - replace (Z.max 0 (Zdigits2 m - n)) with 0 by lia.
    assert (2 ^ Zdigits2 m <= 2 ^ n) by (apply Z.pow_le_mono_r; lia). lia.
Qed.

Lemma shr_record_of_loc_m m l : shr_m (shr_record_of_loc m l) = m.
Proof. destruct l as [|[]]; reflexivity. Qed.

Lemma loc_of_shr_record_of_loc m l : loc_of_shr_record (shr_record_of_loc m l) = l.
Proof. destruct l as [|[]]; reflexivity. Qed.

Lemma round_nearest_even_cases m l :
  round_nearest_even m l = m \/ round_nearest_even m l = m + 1.
Proof. destruct l as [|[]]; simpl; auto. destruct (Z.even m); auto. Qed.

Lemma shr_nonpos mrs e n : n <= 0 -> shr mrs e n = (mrs, e).
Proof. intros Hn. unfold shr. destruct n; try reflexivity. lia. Qed.

(** The two shifts and the rounding of [binary_round_aux], on a mantissa that
    is not negative: the first shift leaves at most 53 digits at an exponent
    not below [emin], the rounding keeps that mantissa or adds one, and the
    second shift loses nothing. *)
Lemma binary_round_aux_spec sx mx ex lx :
  0 <= mx ->
  let n1 := Z.max 0 (fexp prec emax (Zdigits2 mx + ex) - ex) in
  let m1 := mx / 2 ^ n1 in
  let e1 := ex + n1 in
  exists mr,
    (mr = m1 \/ mr = m1 + 1)
    /\ (lx = loc_Exact -> n1 = 0 -> mr = m1)
    /\ emin <= e1
    /\ m1 < 2 ^ 53
    /\ (mr = 0 /\ binary_round_aux prec emax sx mx ex lx = S754_zero sx
        \/ 0 < mr /\
           (binary_round_aux prec emax sx mx ex lx = S754_infinity sx
              /\ emax - prec <= e1
            \/ exists m2 e2,
                 binary_round_aux prec emax sx mx ex lx = S754_finite sx m2 e2
                 /\ e1 <= e2 /\ Zpos m2 * 2 ^ (e2 - e1) = mr)).
Proof.
  intros Hmx n1 m1 e1.
  assert (Hn1 : 0 <= n1) by (subst n1; lia).
  assert (H2n1 : 0 < 2 ^ n1) by (apply Z.pow_pos_nonneg; lia).
  assert (Hm1 : 0 <= m1) by (subst m1; apply Z.div_pos; lia).
  assert (He1 : emin <= e1).
  { subst e1 n1. unfold fexp, SpecFloat.emin, prec, emax. lia. }
  pose proof (Zdigits2_nonneg mx Hmx) as Hd.
  assert (Hd1 : Zdigits2 m1 <= 53).
  { pose proof (div_pow2_digits mx n1 Hmx Hn1) as H. fold m1 in H.
    subst n1. unfold fexp, SpecFloat.emin, prec, emax in *. lia. }
  assert (Hm1lt : m1 < 2 ^ 53).
  { destruct (Z.eq_dec m1 0) as [->|Hne]; [reflexivity|].
    destruct (Zdigits2_bounds m1 ltac:(lia)) as [_ Hhi].
    pose proof (Zdigits2_nonneg m1 Hm1).
    assert (2 ^ Zdigits2 m1 <= 2 ^ 53) by (apply Z.pow_le_mono_r; lia). lia. }
  unfold binary_round_aux, shr_fexp.
  pose proof (shr_spec (shr_record_of_loc mx lx) ex
                (fexp prec emax (Zdigits2 mx + ex) - ex)) as Hs1.
  rewrite shr_record_of_loc_m in Hs1. specialize (Hs1 Hmx).
  fold n1 in Hs1. fold m1 in Hs1. fold e1 in Hs1.
  assert (Hexact : lx = loc_Exact -> n1 = 0 ->
            shr (shr_record_of_loc mx lx) ex (fexp prec emax (Zdigits2 mx + ex) - ex)
            = (shr_record_of_loc mx loc_Exact, ex)).
  { intros -> Hn. apply shr_nonpos. subst n1. lia. }
  destruct (shr (shr_record_of_loc mx lx) ex (fexp prec emax (Zdigits2 mx + ex) - ex))
    as [mrs' e'] eqn:Hshr1.
  simpl in Hs1. destruct Hs1 as [Hs1m Hs1e]. subst e'.
  set (mr := round_nearest_even (shr_m mrs') (loc_of_shr_record mrs')).
  assert (Hmr : mr = m1 \/ mr = m1 + 1).
  { subst mr. rewrite <- Hs1m. apply round_nearest_even_cases. }
  assert (Hmr0 : 0 <= mr) by lia.
  exists mr. split; [exact Hmr|]. split.
  { intros Hl Hn. specialize (Hexact Hl Hn). injection Hexact as Hrec _.
    subst mr m1. rewrite Hrec, Hn. simpl. symmetry. apply Z.div_1_r. }
  split; [exact He1|]. split; [exact Hm1lt|].
  pose proof (shr_spec (shr_record_of_loc mr loc_Exact) e1
                (fexp prec emax (Zdigits2 mr + e1) - e1)) as Hs2.
  rewrite shr_record_of_loc_m in Hs2. specialize (Hs2 Hmr0).
  destruct (shr (shr_record_of_loc mr loc_Exact) e1 (fexp prec emax (Zdigits2 mr + e1) - e1))
    as [mrs'' e''] eqn:Hshr2.
  simpl in Hs2. destruct Hs2 as [Hs2m Hs2e].
  set (n2 := Z.max 0 (fexp prec emax (Zdigits2 mr + e1) - e1)) in *.
  assert (Hdr : Zdigits2 mr <= 54).
  { apply Zdigits2_le; [|lia]. change (2 ^ 54) with (2 * 2 ^ 53). lia. }
  assert (Hn2 : n2 = 0 \/ n2 = 1 /\ mr = 2 ^ 53).
  { subst n2. unfold fexp, SpecFloat.emin, prec, emax in *.
    destruct (Z_le_gt_dec (Zdigits2 mr) 53) as [Hle|Hgt]; [left; lia|].
    right. split; [lia|].
    destruct (Z_lt_le_dec mr (2 ^ 53)) as [Hlt|Hge]; [|lia].
    pose proof (Zdigits2_le mr 53 ltac:(lia) ltac:(lia)). lia. }
  destruct (Z.eq_dec mr 0) as [Hz|Hnz].
  - left. split; [exact Hz|]. rewrite Hs2m, Hz.
    rewrite Z.div_0_l by (destruct Hn2 as [->|[-> _]]; simpl; lia). reflexivity.
  - right. split; [lia|].
    assert (Hm2 : 0 < shr_m mrs'' /\ shr_m mrs'' * 2 ^ (e'' - e1) = mr).
    { rewrite Hs2m, Hs2e. replace (e1 + n2 - e1) with n2 by lia.
      destruct Hn2 as [->|[-> ->]].
      - simpl. rewrite Z.div_1_r. lia.
      - simpl. split; reflexivity. }
    destruct Hm2 as [Hpos Hval].
    destruct (shr_m mrs'') as [|m2|m2]; try lia.
    destruct (Z.leb_spec e'' (emax - prec)) as [Hle|Hgt].
    + right. exists m2, e''. split; [reflexivity|]. split; [lia | exact Hval].
    + left. split; [reflexivity|]. destruct Hn2 as [Hn2|[Hn2 _]]; lia.
Qed.

Lemma iter_xO m d : Zpos (Pos.iter xO m d) = Zpos m * 2 ^ Zpos d.
Proof.
  revert m. induction d as [d IH|d IH|]; intros m; cbn [Pos.iter].
  - change (Z.pos (Pos.iter xO (Pos.iter xO m d) d)~0)
      with (2 * Z.pos (Pos.iter xO (Pos.iter xO m d) d)).
    rewrite IH, IH.
    replace (Z.pos d~1) with (Z.pos d + Z.pos d + 1) by lia.
    rewrite !Z.pow_add_r by lia. change (2 ^ 1) with 2. ring.
  - rewrite IH, IH.
    replace (Z.pos d~0) with (Z.pos d + Z.pos d) by lia.
    rewrite !Z.pow_add_r by lia. ring.
  - change (Z.pos m~0) with (2 * Z.pos m). change (2 ^ 1) with 2. ring.
Qed.

Lemma shl_align_spec m e et :
  snd (shl_align m e et) = Z.min e et
  /\ Zpos (fst (shl_align m e et)) = Zpos m * 2 ^ (e - Z.min e et).
Proof.
  unfold shl_align. destruct (et - e) as [|d|d] eqn:Hd; simpl fst; simpl snd.
  - replace (Z.min e et) with e by lia. rewrite Z.sub_diag. simpl. lia.
  - replace (Z.min e et) with e by lia. rewrite Z.sub_diag. simpl. lia.
  - replace (Z.min e et) with et by lia. split; [reflexivity|].
    rewrite iter_xO. f_equal. f_equal. lia.
Qed.

Lemma valid_exponent s m e : valid_binary (S754_finite s m e) = true -> emin <= e.
Proof.
  unfold valid_binary, bounded, canonical_mantissa, fexp, SpecFloat.emin, prec, emax.
  intros H. apply andb_prop in H as [H _]. apply Z.eqb_eq in H. lia.
Qed.

(** Rounding a positive whole number of units [2^e], [e] not below [emin]:
    the result is a positive number within one part in [2^52] of it, or
    [Infinity], and that only for a number of at least [2^971]. *)
Lemma binary_round_bound M e :
  emin <= e ->
  let z := binary_round prec emax false M e in
  z = S754_infinity false /\ 2 ^ 2045 <= Zpos M * 2 ^ (e - emin)
  \/ (exists m2 e2, z = S754_finite false m2 e2)
     /\ (2 ^ 52 - 1) * (Zpos M * 2 ^ (e - emin)) <= 2 ^ 52 * SFscaled z
     /\ 2 ^ 52 * SFscaled z <= (2 ^ 52 + 1) * (Zpos M * 2 ^ (e - emin)).
Proof.
  intros He z. subst z. unfold binary_round.
  destruct (shl_align_spec M e (fexp prec emax (Zpos (digits2_pos M) + e))) as [Hez Hmz].
  destruct (shl_align M e (fexp prec emax (Z.pos (digits2_pos M) + e))) as [mz ez].
  cbn [fst snd] in Hez, Hmz.
  assert (Hez' : emin <= ez <= e).
  { rewrite Hez. unfold fexp. lia. }
  assert (Hval : Zpos M * 2 ^ (e - emin) = Zpos mz * 2 ^ (ez - emin)).
  { rewrite Hmz, <- Hez, <- Z.mul_assoc, <- Z.pow_add_r by lia.
    f_equal. f_equal. lia. }
  rewrite Hval. clear Hval Hmz Hez M.
  destruct (binary_round_aux_spec false (Zpos mz) ez loc_Exact ltac:(lia))
    as (mr & Hmr & Hexact & He1 & Hm1lt & Hres).
  set (n1 := Z.max 0 (fexp prec emax (Zdigits2 (Z.pos mz) + ez) - ez)) in *.
  set (m1 := Z.pos mz / 2 ^ n1) in *.
  assert (Hn1 : 0 <= n1) by (subst n1; lia).
  assert (HP : 0 < 2 ^ n1) by (apply Z.pow_pos_nonneg; lia).
  assert (HG : 0 < 2 ^ (ez - emin)) by (apply Z.pow_pos_nonneg; lia).
  pose proof (Z.div_mod (Z.pos mz) (2 ^ n1) ltac:(lia)) as Hdm.
  pose proof (Z.mod_pos_bound (Z.pos mz) (2 ^ n1) HP) as Hmod.
  fold m1 in Hdm.
  (* the mantissa after the first shift has 53 digits when anything is shifted out *)
  assert (Hbig : n1 = 0 \/ 2 ^ 52 <= m1).
  { destruct (Z.eq_dec n1 0) as [|Hne]; [left; assumption | right].
    assert (Hn1d : n1 = Zdigits2 (Z.pos mz) - 53).
    { subst n1. unfold fexp, SpecFloat.emin, prec, emax in *. lia. }
    destruct (Zdigits2_bounds (Z.pos mz) ltac:(lia)) as [Hlo _].
    subst m1. apply Z.div_le_lower_bound; [lia|].
    rewrite <- Z.pow_add_r by lia.
    replace (n1 + 52) with (Zdigits2 (Z.pos mz) - 1) by lia. exact Hlo. }
  assert (Hm1pos : 0 < m1).
  { destruct Hbig as [Hn|Hb]; [|lia]. subst m1. rewrite Hn, Z.pow_0_r, Z.div_1_r. lia. }
  destruct Hres as [[Hz _]|[Hpos Hres]]; [lia|].
  destruct Hres as [[Hinf Hlarge]|(m2 & e2 & Hfin & He2 & Hm2)].
  { left. split; [exact Hinf|].
    assert (Hmz : 2 ^ n1 <= Z.pos mz).
    { assert (2 ^ n1 * 1 <= 2 ^ n1 * m1) by (apply Z.mul_le_mono_nonneg_l; lia). lia. }
    apply (Z.mul_le_mono_nonneg_r _ _ (2 ^ (ez - emin))) in Hmz; [|lia].
    rewrite <- Z.pow_add_r in Hmz by lia.
    assert (2 ^ 2045 <= 2 ^ (n1 + (ez - emin))).
    { apply Z.pow_le_mono_r; [lia|]. unfold prec, emax, emin in *. lia. }
    lia. }
  right. split; [exists m2, e2; exact Hfin|].
  rewrite Hfin. cbn [SFscaled cond_Zopp].
  assert (Hsz : Z.pos m2 * 2 ^ (e2 - emin) = mr * 2 ^ n1 * 2 ^ (ez - emin)).
  { rewrite <- Hm2. rewrite <- !Z.mul_assoc, <- !Z.pow_add_r by lia.
    f_equal. f_equal. lia. }
  rewrite Hsz.
  assert (Hcore : (2 ^ 52 - 1) * Z.pos mz <= 2 ^ 52 * (mr * 2 ^ n1)
                  /\ 2 ^ 52 * (mr * 2 ^ n1) <= (2 ^ 52 + 1) * Z.pos mz).
  { destruct Hbig as [Hn|Hb].
    - rewrite (Hexact eq_refl Hn). subst m1. rewrite Hn, Z.pow_0_r, Z.div_1_r. lia.
    - assert (2 ^ 52 * 2 ^ n1 <= m1 * 2 ^ n1) by (apply Z.mul_le_mono_nonneg_r; lia).
      destruct Hmr as [->| ->]; lia. }
  destruct Hcore as [Hlo Hhi]. split.
  - apply (Z.mul_le_mono_nonneg_r _ _ (2 ^ (ez - emin))) in Hlo; [|lia]. lia.
  - apply (Z.mul_le_mono_nonneg_r _ _ (2 ^ (ez - emin))) in Hhi; [|lia]. lia.
Qed.

Lemma SFscaled_nonneg x : SFfinite_nonneg x -> 0 <= SFscaled x.
Proof.
  destruct x as [s|s| |s m e]; cbn [SFscaled SFfinite_nonneg]; try lia.
  destruct s; [contradiction|].
  intros _. cbn [cond_Zopp]. pose proof (Z.pow_nonneg 2 (e - emin)). lia.
Qed.

(** The sum of two finite numbers that are not negative is within one part
    in [2^52] of the exact sum, or [Infinity], and that only when the exact
    sum is at least [2^971]. *)
Lemma SFadd_bound x y :
  valid_binary x = true -> valid_binary y = true ->
  SFfinite_nonneg x -> SFfinite_nonneg y ->
  let z := SF64add x y in
  z = S754_infinity false /\ 2 ^ 2045 <= SFscaled x + SFscaled y
  \/ SFfinite_nonneg z
     /\ (2 ^ 52 - 1) * (SFscaled x + SFscaled y) <= 2 ^ 52 * SFscaled z
     /\ 2 ^ 52 * SFscaled z <= (2 ^ 52 + 1) * (SFscaled x + SFscaled y).
Proof.
  intros Vx Vy Nx Ny z. subst z.
  pose proof (SFscaled_nonneg x Nx) as Hx. pose proof (SFscaled_nonneg y Ny) as Hy.
  unfold SF64add, SFadd.
  destruct x as [sx|sx| |sx mx ex]; try contradiction;
    destruct y as [sy|sy| |sy my ey]; try contradiction.
  - right. split; [destruct sx, sy; exact I|]. destruct sx, sy; cbn [SFscaled]; lia.
  - right. split; [exact Ny|]. cbn [SFscaled] in *. lia.
  - right. split; [exact Nx|]. cbn [SFscaled] in *. lia.
  - destruct sx; [contradiction|]. destruct sy; [contradiction|].
    apply valid_exponent in Vx, Vy. cbv zeta. cbn [cond_Zopp].
    destruct (shl_align_spec mx ex (Z.min ex ey)) as [_ Hmx].
    destruct (shl_align_spec my ey (Z.min ex ey)) as [_ Hmy].
    replace (Z.min ex (Z.min ex ey)) with (Z.min ex ey) in Hmx by lia.
    replace (Z.min ey (Z.min ex ey)) with (Z.min ex ey) in Hmy by lia.
    set (ax := fst (shl_align mx ex (Z.min ex ey))) in *.
    set (ay := fst (shl_align my ey (Z.min ex ey))) in *.
    change (Z.pos ax + Z.pos ay) with (Z.pos (ax + ay)).
    cbn [binary_normalize].
    assert (Hsum : Z.pos (ax + ay) * 2 ^ (Z.min ex ey - emin)
                   = SFscaled (S754_finite false mx ex) + SFscaled (S754_finite false my ey)).
    { cbn [SFscaled cond_Zopp]. rewrite Pos2Z.inj_add, Hmx, Hmy.
      rewrite Z.mul_add_distr_r, <- !Z.mul_assoc, <- !Z.pow_add_r by lia.
      f_equal; f_equal; f_equal; lia. }
    rewrite <- Hsum.
    destruct (binary_round_bound (ax + ay) (Z.min ex ey) ltac:(lia))
      as [Hinf|[(m2 & e2 & Hfin) Hb]]; [left; exact Hinf|].
    right. split; [rewrite Hfin; exact I | exact Hb].
Qed.

(** The quotient and the exponent [SFdiv_core_binary] hands to the rounding:
    the dividend is shifted left by [s] bits, [s] not negative, and divided
    by the divisor. *)
Lemma SFdiv_core_spec mx ex my ey :
  let e' := Z.min (fexp prec emax (Zdigits2 (Zpos mx) + ex - (Zdigits2 (Zpos my) + ey)))
                  (ex - ey) in
  let s := ex - ey - e' in
  exists q lz,
    SFdiv_core_binary prec emax (Zpos mx) ex (Zpos my) ey = (q, e', lz)
    /\ 0 <= s
    /\ 0 <= q
    /\ Zpos my * q <= Zpos mx * 2 ^ s < Zpos my * (q + 1).
Proof.
  intros e' s. unfold SFdiv_core_binary. fold e'. fold s.
  assert (Hs : 0 <= s) by (subst s e'; lia).
  set (m' := match s with Z.pos _ => Z.shiftl (Z.pos mx) s | 0 => Z.pos mx | Z.neg _ => 0 end).
  assert (Hm' : m' = Zpos mx * 2 ^ s).
  { subst m'. destruct s as [|p|p] eqn:Hsp.
    - rewrite Z.pow_0_r. lia.
    - apply Z.shiftl_mul_pow2. lia.
    - lia. }
  pose proof (Z_div_mod m' (Zpos my) ltac:(lia)) as Hdiv.
  destruct (Z.div_eucl m' (Z.pos my)) as [q r].
  exists q, (new_location (Z.pos my) r). split; [reflexivity|]. split; [exact Hs|].
  destruct Hdiv as [Heq Hr].
  assert (Hm'pos : 0 <= m').
  { rewrite Hm'. pose proof (Z.pow_nonneg 2 s). lia. }
  rewrite <- Hm'. split; [nia | lia].
Qed.

Lemma div_arith (U m V G B : Z) :
  0 <= m -> 0 <= V -> 1 <= G -> 0 <= B ->
  U - m <= V -> m - U <= V ->
  2 ^ 52 * V <= m \/ G = 1 ->
  2 ^ 52 * (U * (G * B) - m * (G * B)) <= m * (G * B) + 2 ^ 52 * (V * B)
  /\ 2 ^ 52 * (m * (G * B) - U * (G * B)) <= m * (G * B) + 2 ^ 52 * (V * B).
Proof.
  intros Hm HV HG HB H1 H2 Hc.
  set (c := 2 ^ 52) in *. assert (Hc0 : 0 < c) by (subst c; lia). clearbody c.
  destruct Hc as [Hbig| ->].
  - assert (0 <= G * B) by nia. assert (0 <= V * B) by nia.
    split.
    + assert (c * (U - m) <= m) by nia.
      assert (c * (U - m) * (G * B) <= m * (G * B)) by (apply Z.mul_le_mono_nonneg_r; lia).
      nia.
    + assert (c * (m - U) <= m) by nia.
      assert (c * (m - U) * (G * B) <= m * (G * B)) by (apply Z.mul_le_mono_nonneg_r; lia).
      nia.
  - rewrite !Z.mul_1_l. assert (0 <= m * B) by nia.
    split.
    + assert ((U - m) * B <= V * B) by (apply Z.mul_le_mono_nonneg_r; lia). nia.
    + assert ((m - U) * B <= V * B) by (apply Z.mul_le_mono_nonneg_r; lia). nia.
Qed.

(** The quotient of a finite number that is not negative by a positive
    finite number.  With [X], [Y] and [Z] the dividend, the divisor and the
    result in units of [2^emin], the exact quotient is [X / Y] and its value in
    the same units is [X * 2^1074 / Y].  The result is within one part in
    [2^52] of it, plus one unit; it is [Infinity] only when the exact quotient
    is at least [2^1023]. *)
Lemma SFdiv_bound x my ey :
  valid_binary x = true -> valid_binary (S754_finite false my ey) = true ->
  SFfinite_nonneg x ->
  let y := S754_finite false my ey in
  let z := SF64div x y in
  z = S754_infinity false /\ 2 ^ 2097 * SFscaled y <= SFscaled x * 2 ^ 1074
  \/ SFfinite_nonneg z
     /\ 2 ^ 52 * (SFscaled z * SFscaled y - SFscaled x * 2 ^ 1074)
        <= SFscaled x * 2 ^ 1074 + 2 ^ 52 * SFscaled y
     /\ 2 ^ 52 * (SFscaled x * 2 ^ 1074 - SFscaled z * SFscaled y)
        <= SFscaled x * 2 ^ 1074 + 2 ^ 52 * SFscaled y.
Proof.
  intros Vx Vy Nx y z. subst z y.
  pose proof (SFscaled_nonneg (S754_finite false my ey) I) as HY.
  apply valid_exponent in Vy.
  unfold SF64div, SFdiv.
  destruct x as [sx|sx| |sx mx ex]; try contradiction.
  { right. split; [exact I|]. cbn [SFscaled] in *. lia. }
  destruct sx; [contradiction|]. apply valid_exponent in Vx.
  destruct (SFdiv_core_spec mx ex my ey) as (q & lz & Hcore & Hs & Hq & Hqlo & Hqhi).
  set (e' := Z.min (fexp prec emax (Zdigits2 (Zpos mx) + ex - (Zdigits2 (Zpos my) + ey)))
                   (ex - ey)) in *.
  set (s := ex - ey - e') in *.
  rewrite Hcore. cbn [xorb].
  destruct (binary_round_aux_spec false q e' lz Hq)
    as (mr & Hmr & _ & He1 & Hm1lt & Hres).
  set (n1 := Z.max 0 (fexp prec emax (Zdigits2 q + e') - e')) in *.
  set (m1 := q / 2 ^ n1) in *.
  assert (Hn1 : 0 <= n1) by (subst n1; lia).
  assert (HP : 0 < 2 ^ n1) by (apply Z.pow_pos_nonneg; lia).
  pose proof (Z.div_mod q (2 ^ n1) ltac:(lia)) as Hdm.
  pose proof (Z.mod_pos_bound q (2 ^ n1) HP) as Hmod.
  fold m1 in Hdm.
  assert (Hm1 : 0 <= m1) by (subst m1; apply Z.div_pos; lia).
  (* either 53 digits are kept, or the result is a multiple of the smallest unit *)
  assert (Hcase : 2 ^ 52 * (Zpos my * 2 ^ n1) <= Zpos mx * 2 ^ s \/ e' + n1 = emin).
  { destruct (Z.eq_dec (e' + n1) emin) as [Hemin|Hne]; [right; exact Hemin | left].
    assert (H52 : 2 ^ 52 <= m1).
    { destruct (Z.eq_dec n1 0) as [Hn0|Hn0].
      - (* nothing is shifted out: the quotient has at least 53 digits by construction *)
        subst m1. rewrite Hn0, Z.pow_0_r, Z.div_1_r.
        assert (He'D : e' <= Zdigits2 (Zpos mx) + ex - (Zdigits2 (Zpos my) + ey) - 53).
        { subst e' n1. unfold fexp, SpecFloat.emin, prec, emax in *. lia. }
        destruct (Zdigits2_bounds (Zpos mx) ltac:(lia)) as [Hxlo _].
        destruct (Zdigits2_bounds (Zpos my) ltac:(lia)) as [_ Hyhi].
        pose proof (Zdigits2_nonneg (Zpos my) ltac:(lia)) as Hdy.
        assert (Hdx : 1 <= Zdigits2 (Zpos mx)) by (simpl; lia).
        assert (Hpow : 2 ^ (52 + Zdigits2 (Zpos my)) <= Zpos mx * 2 ^ s).
        { replace (52 + Zdigits2 (Zpos my))
            with ((Zdigits2 (Zpos mx) - 1) + (53 - Zdigits2 (Zpos mx) + Zdigits2 (Zpos my))) by lia.
          assert (Hs53 : 53 - Zdigits2 (Zpos mx) + Zdigits2 (Zpos my) <= s) by (subst s; lia).
          destruct (Z_le_gt_dec 0 (53 - Zdigits2 (Zpos mx) + Zdigits2 (Zpos my))) as [Hk|Hk].
          - rewrite Z.pow_add_r by lia.
            apply Z.mul_le_mono_nonneg;
              [apply Z.pow_nonneg; lia | exact Hxlo | apply Z.pow_nonneg; lia
              | apply Z.pow_le_mono_r; lia].
          - assert (2 ^ (Zdigits2 (Z.pos mx) - 1 + (53 - Zdigits2 (Z.pos mx) + Zdigits2 (Z.pos my)))
                    <= 2 ^ (Zdigits2 (Z.pos mx) - 1)) by (apply Z.pow_le_mono_r; lia).
            assert (1 <= 2 ^ s) by (pose proof (Z.pow_pos_nonneg 2 s); lia).
            nia. }
        rewrite Z.pow_add_r in Hpow by lia.
        assert (2 ^ 52 * Zpos my < Zpos my * (q + 1)) by nia.
        nia.
      - (* bits are shifted out and the exponent is above emin: 53 digits remain *)
        assert (Hn1d : n1 = Zdigits2 q - 53).
        { subst n1. unfold fexp, SpecFloat.emin, prec, emax in *. lia. }
        assert (Hqpos : 0 < q).
        { destruct (Z.eq_dec q 0) as [Hq0|]; [|lia]. rewrite Hq0 in Hn1d. simpl in Hn1d. lia. }
        destruct (Zdigits2_bounds q Hqpos) as [Hlo _].
        subst m1. apply Z.div_le_lower_bound; [lia|].
        rewrite <- Z.pow_add_r by lia.
        replace (n1 + 52) with (Zdigits2 q - 1) by lia. exact Hlo. }
    assert (2 ^ 52 * 2 ^ n1 <= m1 * 2 ^ n1) by (apply Z.mul_le_mono_nonneg_r; lia).
    nia. }
  (* bring everything over the common factor 2^n1 *)
  set (G := 2 ^ (e' + n1 - emin)) in *.
  set (B := 2 ^ (ey - emin)) in *.
  set (P := 2 ^ n1) in *.
  set (m' := Zpos mx * 2 ^ s) in *.
  assert (HG : 1 <= G) by (subst G; pose proof (Z.pow_pos_nonneg 2 (e' + n1 - emin)); lia).
  assert (HB : 0 < B) by (subst B; apply Z.pow_pos_nonneg; lia).
  assert (HXK : Zpos mx * 2 ^ (ex - emin) * 2 ^ 1074 * P = m' * (G * B)).
  { subst m' G B P. rewrite <- !Z.mul_assoc. f_equal.
    rewrite <- !Z.pow_add_r by (unfold SpecFloat.emin, prec, emax in *; lia).
    f_equal. subst s. unfold SpecFloat.emin, prec, emax. lia. }
  assert (Hm'0 : 0 <= m') by (subst m'; pose proof (Z.pow_nonneg 2 s); nia).
  cbn [SFscaled cond_Zopp].
  destruct Hres as [[Hz Hres]|[Hpos [[Hres Hbig]|(m2 & e2 & Hres & He2 & Hm2)]]].
  - (* the result is a zero *)
    right. rewrite Hres. split; [exact I|]. cbn [SFscaled].
    assert (HU : m' <= Zpos my * P) by (destruct Hmr as [Hmr|Hmr]; nia).
    assert (Hc : 2 ^ 52 * (Zpos my * P) <= m' \/ G = 1).
    { destruct Hcase as [Hc|Hc]; [left; exact Hc | right].
      subst G. rewrite Hc, Z.sub_diag. reflexivity. }
    destruct (div_arith 0 m' (Zpos my * P) G B Hm'0 ltac:(lia) HG ltac:(lia)
                ltac:(lia) ltac:(lia) Hc) as [Hg1 Hg2].
    split.
    + pose proof (Z.pow_pos_nonneg 2 (ex - emin)). nia.
    + apply (Z.mul_le_mono_pos_r _ _ P HP). lia.
  - (* overflow: the exact quotient is huge *)
    left. split; [exact Hres|].
    assert (HGbig : 2 ^ 2045 <= G).
    { subst G. apply Z.pow_le_mono_r; [lia|].
      unfold SpecFloat.emin, prec, emax in *. lia. }
    assert (Hc : 2 ^ 52 * (Zpos my * P) <= m').
    { destruct Hcase as [Hc|Hc]; [exact Hc|].
      unfold SpecFloat.emin, prec, emax in *. lia. }
    apply (Z.mul_le_mono_pos_r _ _ P HP).
    replace (Z.pos mx * 2 ^ (ex - emin) * 2 ^ 1074 * P) with (m' * (G * B))
      by (symmetry; exact HXK).
    change (2 ^ 2097) with (2 ^ 52 * 2 ^ 2045).
    assert (2 ^ 52 * (Z.pos my * P) * (G * B) <= m' * (G * B))
      by (apply Z.mul_le_mono_nonneg_r; nia).
    assert (2 ^ 2045 * (Z.pos my * P * B) <= G * (Z.pos my * P * B))
      by (apply Z.mul_le_mono_nonneg_r; nia).
    lia.
  - (* a finite result *)
    right. rewrite Hres. split; [exact I|]. cbn [SFscaled cond_Zopp].
    assert (Hsz : Z.pos m2 * 2 ^ (e2 - emin) = mr * G).
    { subst G. rewrite <- Hm2. rewrite <- Z.mul_assoc, <- Z.pow_add_r by lia.
      f_equal. f_equal. lia. }
    rewrite Hsz.
    assert (HU : mr * P * Zpos my - m' <= Zpos my * P /\ m' - mr * P * Zpos my <= Zpos my * P).
    { destruct Hmr as [->| ->]; nia. }
    destruct HU as [HU1 HU2].
    assert (Hc : 2 ^ 52 * (Zpos my * P) <= m' \/ G = 1).
    { destruct Hcase as [Hc|Hc]; [left; exact Hc | right].
      subst G. rewrite Hc, Z.sub_diag. reflexivity. }
    destruct (div_arith (mr * P * Zpos my) m' (Zpos my * P) G B
                Hm'0 ltac:(lia) HG ltac:(lia) HU1 HU2 Hc) as [Hg1 Hg2].
    split; apply (Z.mul_le_mono_pos_r _ _ P HP); lia.
Qed.

(** In particular the sum of two numbers that are not negative is not
    negative, and it is a zero only when both are. *)
Lemma SFadd_nonneg x y :
  valid_binary x = true -> valid_binary y = true -> SFnonneg x -> SFnonneg y ->
  SFnonneg (SF64add x y) /\ (SFzero (SF64add x y) -> SFzero x /\ SFzero y).
Proof.
  intros Vx Vy Nx Ny. unfold SF64add, SFadd.
  destruct x as [sx|sx| |sx mx ex], y as [sy|sy| |sy my ey]; simpl in Nx, Ny;
    try contradiction; try destruct sx; try destruct sy; try contradiction;
    try (simpl; tauto).
  cbv zeta. cbn [cond_Zopp].
  apply valid_exponent in Vx, Vy.
  change (Z.pos (fst (shl_align mx ex (Z.min ex ey))) + Z.pos (fst (shl_align my ey (Z.min ex ey))))
    with (Z.pos (fst (shl_align mx ex (Z.min ex ey)) + fst (shl_align my ey (Z.min ex ey)))).
  cbn [binary_normalize].
  destruct (binary_round_bound
              (fst (shl_align mx ex (Z.min ex ey)) + fst (shl_align my ey (Z.min ex ey)))
              (Z.min ex ey) ltac:(lia)) as [[-> _]|[(m' & e' & ->) _]]; simpl; tauto.
Qed.

(** Rounding a whole number of units [2^e] that is not zero, [e] not below
    [emin], never gives a zero. *)
Lemma binary_round_not_zero s M e s' :
  emin <= e -> binary_round prec emax s M e <> S754_zero s'.
Proof.
  intros He. unfold binary_round.
  destruct (shl_align_spec M e (fexp prec emax (Zpos (digits2_pos M) + e))) as [Hez Hmz].
  destruct (shl_align M e (fexp prec emax (Z.pos (digits2_pos M) + e))) as [mz ez].
  cbn [fst snd] in Hez, Hmz.
  assert (Hez' : emin <= ez <= e).
  { rewrite Hez. unfold fexp. lia. }
  destruct (binary_round_aux_spec s (Zpos mz) ez loc_Exact ltac:(lia))
    as (mr & Hmr & Hexact & He1 & Hm1lt & Hres).
  set (n1 := Z.max 0 (fexp prec emax (Zdigits2 (Z.pos mz) + ez) - ez)) in *.
  set (m1 := Z.pos mz / 2 ^ n1) in *.
  assert (Hn1 : 0 <= n1) by (subst n1; lia).
  assert (HP : 0 < 2 ^ n1) by (apply Z.pow_pos_nonneg; lia).
  assert (Hbig : n1 = 0 \/ 2 ^ 52 <= m1).
  { destruct (Z.eq_dec n1 0) as [|Hne]; [left; assumption | right].
    assert (Hn1d : n1 = Zdigits2 (Z.pos mz) - 53).
    { subst n1. unfold fexp, SpecFloat.emin, prec, emax in *. lia. }
    destruct (Zdigits2_bounds (Z.pos mz) ltac:(lia)) as [Hlo _].
    subst m1. apply Z.div_le_lower_bound; [lia|].
    rewrite <- Z.pow_add_r by lia.
    replace (n1 + 52) with (Zdigits2 (Z.pos mz) - 1) by lia. exact Hlo. }
  assert (Hm1pos : 0 < m1).
  { destruct Hbig as [Hn|Hb]; [|lia]. subst m1. rewrite Hn, Z.pow_0_r, Z.div_1_r. lia. }
  destruct Hres as [[Hz _]|[Hpos Hres]]; [lia|].
  destruct Hres as [[Hinf _]|(m2 & e2 & Hfin & _)]; [rewrite Hinf | rewrite Hfin]; discriminate.
Qed.

(** A sum is [-0] only when both numbers are. *)
Lemma SFadd_negative_zero x y :
  valid_binary x = true -> valid_binary y = true ->
  SF64add x y = S754_zero true -> x = S754_zero true /\ y = S754_zero true.
Proof.
  intros Vx Vy. unfold SF64add, SFadd.
  destruct x as [sx|sx| |sx mx ex], y as [sy|sy| |sy my ey]; try discriminate.
  - destruct sx, sy; cbn; intros H; try discriminate; auto.
  - destruct sx, sy; cbn; intros H; discriminate.
  - apply valid_exponent in Vx, Vy. cbv zeta.
    destruct (cond_Zopp sx (Z.pos (fst (shl_align mx ex (Z.min ex ey))))
              + cond_Zopp sy (Z.pos (fst (shl_align my ey (Z.min ex ey))))) as [|p|p];
      cbn [binary_normalize]; [discriminate|..]; intros H;
      apply binary_round_not_zero in H; [contradiction|lia|contradiction|lia].
Qed.

Local Close Scope Z_scope.

Lemma nonneg_spec (x : float) : nonneg x = true <-> SFnonneg (Prim2SF x).
Proof.
  unfold nonneg. rewrite FloatAxioms.leb_spec.
  change (Prim2SF 0) with (S754_zero false).
  destruct (Prim2SF x) as [s|s| |s m e]; simpl; try destruct s; simpl;
    intuition discriminate.
Qed.

Lemma is_zero_spec (x : float) : (x =? 0) = true <-> SFzero (Prim2SF x).
Proof.
  rewrite FloatAxioms.eqb_spec. change (Prim2SF 0) with (S754_zero false).
  destruct (Prim2SF x) as [s|s| |s m e]; simpl; try destruct s; simpl;
    intuition discriminate.
Qed.

(** A sum of two numbers that are not negative is not negative, and it is
    zero only when both are. *)
Lemma float_add_nonneg (a b : float) :
  nonneg a = true -> nonneg b = true ->
  nonneg (a + b) = true
  /\ ((a + b =? 0) = true -> (a =? 0) = true /\ (b =? 0) = true).
Proof.
  rewrite !nonneg_spec, !is_zero_spec, FloatAxioms.add_spec. intros Ha Hb.
  apply SFadd_nonneg; auto using Prim2SF_valid.
Qed.

(** ** Row normaliser: the sampling decision *)

(** Adding [0] changes no number but [-0], and a sum that starts from a
    number other than [-0] never is [-0]. *)
Lemma float_add_zero (x : float) : Prim2SF x <> S754_zero true -> x + 0 = x.
Proof.
  intros Hx. apply Prim2SF_inj. rewrite FloatAxioms.add_spec.
  change (Prim2SF 0) with (S754_zero false).
  unfold SF64add, SFadd. destruct (Prim2SF x) as [s|s| |s m e]; try reflexivity.
  destruct s; [congruence|reflexivity].
Qed.

Lemma float_add_not_negative_zero (x y : float) :
  Prim2SF x <> S754_zero true -> Prim2SF (x + y) <> S754_zero true.
Proof.
  intros Hx H. rewrite FloatAxioms.add_spec in H.
  apply SFadd_negative_zero in H; [tauto|apply Prim2SF_valid..].
Qed.

(** In a sum from left to right a missing weight may be left out or be
    taken as 0. *)
Lemma foldl_missing_as_zero (ws : list (option float)) (z : float) :
  Prim2SF z <> S754_zero true ->
  foldl (fun s x => s + x) z (map (default 0) ws)
  = foldl (fun s x => s + x) z (omap id ws).
Proof.
  revert z. induction ws as [|w ws IH]; intros z Hz; [reflexivity|].
  destruct w as [w|].
  - change (omap id (Some w :: ws)) with (w :: omap id ws).
    cbn [map foldl default from_option id].
    apply IH, float_add_not_negative_zero, Hz.
  - change (omap id (None :: ws)) with (omap id ws).
    cbn [map foldl default from_option id].
    rewrite float_add_zero by exact Hz. apply IH, Hz.
Qed.

Lemma raw_sum_missing_as_zero (doc : document) :
  raw_sum doc = float_sum (map (default 0) (take 13 (Topics doc))).
Proof.
  unfold raw_sum, present_weights, float_sum, numTopics. symmetry.
  apply foldl_missing_as_zero. vm_compute. discriminate.
Qed.

(** C5. [needsNormalization] reads exactly the first [min(100, N)] documents.
    The sum the loop keeps for a document is the document's raw topic-weight
    sum: the weights it has among [Topic_1 .. Topic_13], added from left to
    right, which is also their sum when a missing weight is taken as 0.  The
    flag is the strict comparison with 0.95 of the mean of these sums over
    the sample, sums and quotient being those of binary64 arithmetic.
    Documents after the first 100 do not change it, and a sample whose
    computed mean is exactly 0.95 gives [false]. *)
Theorem needsNormalization_sample (documentTopics : list document) :
  let sample := take (Nat.min 100 (length documentTopics)) documentTopics in
  (forall doc, docTotal doc = float_sum (omap id (take 13 (Topics doc))))
  /\ (forall doc, docTotal doc = float_sum (map (default 0) (take 13 (Topics doc))))
  /\ needsNormalization documentTopics
     = (float_sum (map (fun doc => float_sum (omap id (take 13 (Topics doc)))) sample)
        / float_of_nat (length sample) <? 0.95)
  /\ needsNormalization documentTopics = needsNormalization_spec documentTopics
  /\ needsNormalization documentTopics = needsNormalization sample
  /\ (sample_mean sample = 0.95 -> needsNormalization documentTopics = false).
Proof.
  intros sample.
  assert (H : needsNormalization documentTopics = (sample_mean sample <? 0.95)).
  { unfold needsNormalization. rewrite avgTotal_sample_mean. reflexivity. }
  split; [exact docTotal_raw_sum|].
  split; [intros doc; rewrite docTotal_raw_sum; apply raw_sum_missing_as_zero|].
  split; [exact H|]. split; [exact H|]. split.
  - rewrite H. unfold needsNormalization. rewrite avgTotal_sample_mean.
    subst sample. rewrite length_take, take_take. f_equal. f_equal. f_equal. lia.
  - intros Hmean. rewrite H, Hmean. reflexivity.
Qed.

(** The mean of the claim is the exact one.  The three weights of
    [Samples.just_under] add up to less than 0.95, and to less than the
    binary64 number nearest to it; their sum as the loop computes it is that
    binary64 number, and the flag is [false]. *)
Lemma exact_mean_below_threshold :
  let documentTopics := [Samples.just_under] in
  let sample := take (Nat.min 100 (length documentTopics)) documentTopics in
  (exact_sample_mean sample < 95 # 100)%Q
  /\ (exact_sample_mean sample < float_value 0.95)%Q
  /\ sample_mean sample = 0.95
  /\ needsNormalization documentTopics = false
  /\ ~ (needsNormalization documentTopics = true
        <-> (exact_sample_mean sample < 95 # 100)%Q).
Proof.
  cbv zeta.
  assert (Hlt : (exact_sample_mean (take (Nat.min 100 (length [Samples.just_under]))
                                         [Samples.just_under]) < 95 # 100)%Q)
    by (vm_compute; reflexivity).
  assert (Hflag : needsNormalization [Samples.just_under] = false)
    by (vm_compute; reflexivity).
  split; [exact Hlt|]. split; [vm_compute; reflexivity|].
  split; [vm_compute; reflexivity|]. split; [exact Hflag|].
  intros [_ H]. rewrite (H Hlt) in Hflag. discriminate.
Qed.

(** ** Row normaliser: the per-document vector *)

Lemma running_total_nonneg (doc : document) (ids : list nat) (t0 : float) :
  nonneg t0 = true ->
  (forall j w, j ∈ ids -> topic_of doc j = Some w -> nonneg w = true) ->
  let t := foldl (fun total j =>
                    match topic_of doc j with
                    | Some w => total + w
                    | None => total
                    end) t0 ids in
  nonneg t = true
  /\ ((t =? 0) = true ->
      (t0 =? 0) = true
      /\ forall j w, j ∈ ids -> topic_of doc j = Some w -> (w =? 0) = true).
Proof.
  revert t0. induction ids as [|i ids IH]; intros t0 Ht0 Hw; simpl.
  - split; [exact Ht0|]. intros Hz. split; [exact Hz|]. intros j w Hj. inversion Hj.
  - destruct (topic_of doc i) as [wi|] eqn:Hi.
    + assert (Hwi : nonneg wi = true) by (apply (Hw i); [left | exact Hi]).
      destruct (float_add_nonneg t0 wi Ht0 Hwi) as [Hsum Hzero].
      destruct (IH (t0 + wi) Hsum) as [Hn Hz].
      { intros j w Hj. apply Hw. right. exact Hj. }
      split; [exact Hn|]. intros Ht. destruct (Hz Ht) as [Hz0 Hrest].
      destruct (Hzero Hz0) as [Ht0z Hwiz]. split; [exact Ht0z|].
      intros j w Hj Hjw. apply elem_of_cons in Hj as [->|Hj].
      * congruence.
      * eapply Hrest; eassumption.
    + destruct (IH t0 Ht0) as [Hn Hz].
      { intros j w Hj. apply Hw. right. exact Hj. }
      split; [exact Hn|]. intros Ht. destruct (Hz Ht) as [Hz0 Hrest].
      split; [exact Hz0|].
      intros j w Hj Hjw. apply elem_of_cons in Hj as [->|Hj].
      * congruence.
      * eapply Hrest; eassumption.
Qed.

Lemma normalizedValues_cell flag (doc : document) i :
  1 <= i <= 13 ->
  get (normalizedValues flag doc) (pred i)
  = if flag && gt0 (docTotal doc)
    then default 0 (topic_of doc i) / docTotal doc
    else default 0 (topic_of doc i).
Proof.
  intros Hi. unfold normalizedValues, get, topic_ids, numTopics.
  change (map ?f ?l) with (f <$> l). rewrite list_lookup_fmap.
  rewrite lookup_seq_lt by lia. simpl.
  replace (S (pred i)) with i by lia. reflexivity.
Qed.

Lemma zero_not_positive (x : float) : (x =? 0) = true -> gt0 x = false.
Proof.
  unfold gt0. rewrite FloatAxioms.eqb_spec, FloatAxioms.ltb_spec.
  change (Prim2SF 0) with (S754_zero false).
  destruct (Prim2SF x) as [s|s| |s m e]; try discriminate;
    destruct s; try discriminate; reflexivity.
Qed.

(** ** Row normaliser: the sum of the normalised vector

    The weights, their running total and the quotients are followed in units
    of [2^-1074].  For weights that are not negative every addition and every
    division loses at most one part in [2^52] (and a division at most one
    unit more), and thirteen of each stay far inside the tolerance. *)

Local Open Scope Z_scope.

Lemma SFadd_finite x y :
  SFnonneg x -> SFnonneg y -> SFfinite_nonneg (SF64add x y) ->
  SFfinite_nonneg x /\ SFfinite_nonneg y.
Proof.
  destruct x as [sx|sx| |sx mx ex], y as [sy|sy| |sy my ey]; simpl;
    try destruct sx; try destruct sy; simpl; tauto.
Qed.

Lemma finite_nonneg_spec (x : float) :
  nonneg x = true -> (x <? infinity)%float = true -> SFfinite_nonneg (Prim2SF x).
Proof.
  rewrite nonneg_spec, FloatAxioms.ltb_spec.
  change (Prim2SF infinity) with (S754_infinity false).
  destruct (Prim2SF x) as [s|s| |s m e]; simpl; try destruct s; simpl;
    intuition discriminate.
Qed.

Lemma finite_positive_spec (x : float) :
  gt0 x = true -> (x <? infinity)%float = true ->
  exists m e, Prim2SF x = S754_finite false m e.
Proof.
  unfold gt0. rewrite !FloatAxioms.ltb_spec.
  change (Prim2SF infinity) with (S754_infinity false).
  change (Prim2SF 0) with (S754_zero false).
  destruct (Prim2SF x) as [s|s| |s m e]; simpl; try destruct s; simpl;
    try discriminate. eauto.
Qed.

(** One step of a chain of roundings. *)
Lemma chain_upper (L A X T1 S' U : Z) :
  0 < L -> 0 <= A -> 0 <= S' ->
  X <= A * (T1 + S') -> L * T1 <= (L + 1) * U ->
  L * X <= (L + 1) * A * (U + S').
Proof.
  intros HL HA HS HX HT.
  apply (Z.mul_le_mono_nonneg_l _ _ L) in HX; [|lia].
  apply (Z.mul_le_mono_nonneg_l _ _ A) in HT; [|lia].
  assert (0 <= A * S') by (apply Z.mul_nonneg_nonneg; lia).
  lia.
Qed.

Lemma chain_lower (L A X T1 S' U : Z) :
  0 < L -> 0 <= A -> 0 <= S' ->
  A * (T1 + S') <= X -> (L - 1) * U <= L * T1 ->
  (L - 1) * A * (U + S') <= L * X.
Proof.
  intros HL HA HS HX HT.
  apply (Z.mul_le_mono_nonneg_l _ _ L) in HX; [|lia].
  apply (Z.mul_le_mono_nonneg_l _ _ A) in HT; [|lia].
  assert (0 <= A * S') by (apply Z.mul_nonneg_nonneg; lia).
  lia.
Qed.

Lemma scaled_nonneg (x : float) : SFfinite_nonneg (Prim2SF x) -> 0 <= scaled x.
Proof. apply SFscaled_nonneg. Qed.

Lemma float_add_bound (a b : float) :
  nonneg a = true -> nonneg b = true -> SFfinite_nonneg (Prim2SF (a + b)%float) ->
  SFfinite_nonneg (Prim2SF a) /\ SFfinite_nonneg (Prim2SF b)
  /\ (2 ^ 52 - 1) * (scaled a + scaled b) <= 2 ^ 52 * scaled (a + b)%float
  /\ 2 ^ 52 * scaled (a + b)%float <= (2 ^ 52 + 1) * (scaled a + scaled b).
Proof.
  rewrite !nonneg_spec. unfold scaled. rewrite FloatAxioms.add_spec.
  intros Ha Hb Hab.
  destruct (SFadd_finite _ _ Ha Hb Hab) as [Fa Fb].
  split; [exact Fa|]. split; [exact Fb|].
  destruct (SFadd_bound _ _ (Prim2SF_valid a) (Prim2SF_valid b) Fa Fb) as [[Hinf _]|[_ H]].
  - rewrite Hinf in Hab. contradiction.
  - exact H.
Qed.

Lemma running_total_bound (doc : document) (ids : list nat) (t0 : float) :
  nonneg t0 = true ->
  (forall j w, j ∈ ids -> topic_of doc j = Some w -> nonneg w = true) ->
  let t := foldl (fun total j =>
                    match topic_of doc j with
                    | Some w => (total + w)%float
                    | None => total
                    end) t0 ids in
  SFfinite_nonneg (Prim2SF t) ->
  SFfinite_nonneg (Prim2SF t0)
  /\ (forall j, j ∈ ids -> SFfinite_nonneg (Prim2SF (default 0%float (topic_of doc j))))
  /\ 0 <= scaled_sum (map (fun j => default 0%float (topic_of doc j)) ids)
  /\ let S := scaled t0 + scaled_sum (map (fun j => default 0%float (topic_of doc j)) ids) in
     let n := Z.of_nat (length ids) in
     (2 ^ 52 - 1) ^ n * S <= (2 ^ 52) ^ n * scaled t
     /\ (2 ^ 52) ^ n * scaled t <= (2 ^ 52 + 1) ^ n * S.
Proof.
  cbv zeta. remember (2 ^ 52) as L eqn:HL.
  assert (HLpos : 1 < L) by (subst L; reflexivity).
  revert t0. induction ids as [|i ids IH]; intros t0 Ht0 Hw Hfin.
  - cbn [foldl map scaled_sum foldr length Z.of_nat] in *.
    split; [exact Hfin|]. split; [intros j Hj; inversion Hj|].
    rewrite !Z.pow_0_r. lia.
  - cbn [foldl] in Hfin. cbn [foldl map scaled_sum foldr].
    fold (scaled_sum (map (fun j => default 0%float (topic_of doc j)) ids)).
    replace (Z.of_nat (length (i :: ids))) with (Z.succ (Z.of_nat (length ids)))
      by (cbn [length]; lia).
    rewrite !Z.pow_succ_r by lia.
    set (n := Z.of_nat (length ids)) in *.
    set (S' := scaled_sum (map (fun j => default 0%float (topic_of doc j)) ids)) in *.
    assert (Hrest : forall j w, j ∈ ids -> topic_of doc j = Some w -> nonneg w = true).
    { intros j w Hj. apply Hw. right. exact Hj. }
    assert (Ha : 0 <= (L - 1) ^ n) by (apply Z.pow_nonneg; lia).
    assert (Hc : 0 <= (L + 1) ^ n) by (apply Z.pow_nonneg; lia).
    destruct (topic_of doc i) as [wi|] eqn:Hi.
    + assert (Hwi : nonneg wi = true) by (apply (Hw i); [left | exact Hi]).
      destruct (float_add_nonneg t0 wi Ht0 Hwi) as [Hsum _].
      destruct (IH (t0 + wi)%float Hsum Hrest Hfin) as (F1 & Fall & HS' & Hlo & Hhi).
      destruct (float_add_bound t0 wi Ht0 Hwi F1) as (F0 & Fwi & Blo & Bhi).
      rewrite <- HL in Blo, Bhi.
      change (default 0%float (Some wi)) with wi.
      pose proof (scaled_nonneg wi Fwi) as Hwi0.
      split; [exact F0|]. split.
      { intros j Hj. apply elem_of_cons in Hj as [->|Hj].
        - rewrite Hi. exact Fwi.
        - apply Fall, Hj. }
      split; [lia|]. split.
      * pose proof (chain_lower L _ _ _ _ _ ltac:(lia) Ha HS' Hlo Blo). lia.
      * pose proof (chain_upper L _ _ _ _ _ ltac:(lia) Hc HS' Hhi Bhi). lia.
    + destruct (IH t0 Ht0 Hrest Hfin) as (F0 & Fall & HS' & Hlo & Hhi).
      change (scaled (default 0%float None)) with 0.
      split; [exact F0|]. split.
      { intros j Hj. apply elem_of_cons in Hj as [->|Hj].
        - rewrite Hi. exact I.
        - apply Fall, Hj. }
      pose proof (scaled_nonneg t0 F0) as Ht00.
      split; [lia|]. split.
      * pose proof (chain_lower L _ _ _ _ (scaled t0) ltac:(lia) Ha HS' Hlo ltac:(lia)). lia.
      * pose proof (chain_upper L _ _ _ _ (scaled t0) ltac:(lia) Hc HS' Hhi ltac:(lia)). lia.
Qed.

Lemma float_div_bound (x y : float) :
  SFfinite_nonneg (Prim2SF x) -> gt0 y = true -> (y <? infinity)%float = true ->
  let z := (x / y)%float in
  2 ^ 2097 * scaled y <= scaled x * 2 ^ 1074
  \/ SFfinite_nonneg (Prim2SF z)
     /\ 2 ^ 52 * (scaled z * scaled y - scaled x * 2 ^ 1074)
        <= scaled x * 2 ^ 1074 + 2 ^ 52 * scaled y
     /\ 2 ^ 52 * (scaled x * 2 ^ 1074 - scaled z * scaled y)
        <= scaled x * 2 ^ 1074 + 2 ^ 52 * scaled y.
Proof.
  intros Fx Hpos Hfin. cbv zeta.
  destruct (finite_positive_spec y Hpos Hfin) as (my & ey & Hy).
  unfold scaled. rewrite FloatAxioms.div_spec, Hy.
  pose proof (Prim2SF_valid y) as Vy. rewrite Hy in Vy.
  destruct (SFdiv_bound (Prim2SF x) my ey (Prim2SF_valid x) Vy Fx) as [[_ H]|H].
  - left. exact H.
  - right. exact H.
Qed.

Lemma quotients_bound (t : float) (ws : list float) :
  gt0 t = true -> (t <? infinity)%float = true ->
  (forall w, w ∈ ws -> SFfinite_nonneg (Prim2SF w) /\ scaled w < 2 ^ 1023 * scaled t) ->
  let qs := map (fun w => (w / t)%float) ws in
  (forall q, q ∈ qs -> SFfinite_nonneg (Prim2SF q))
  /\ let P := scaled_sum qs in
     let S := scaled_sum ws in
     let n := Z.of_nat (length ws) in
     2 ^ 52 * (P * scaled t - S * 2 ^ 1074) <= S * 2 ^ 1074 + n * (2 ^ 52 * scaled t)
     /\ 2 ^ 52 * (S * 2 ^ 1074 - P * scaled t) <= S * 2 ^ 1074 + n * (2 ^ 52 * scaled t).
Proof.
  intros Hpos Hfin. cbv zeta.
  remember (2 ^ 52) as L eqn:HL. remember (2 ^ 1074) as K eqn:HK.
  induction ws as [|w ws IH]; intros Hws.
  - cbn [map scaled_sum foldr length Z.of_nat].
    split; [intros q Hq; inversion Hq|]. lia.
  - cbn [map scaled_sum foldr].
    fold (scaled_sum ws). fold (scaled_sum (map (fun w => (w / t)%float) ws)).
    replace (Z.of_nat (length (w :: ws))) with (Z.succ (Z.of_nat (length ws)))
      by (cbn [length]; lia).
    destruct IH as [Fall [Hlo Hhi]].
    { intros w' Hw'. apply Hws. right. exact Hw'. }
    destruct (Hws w ltac:(left)) as [Fw Hsmall].
    destruct (float_div_bound w t Fw Hpos Hfin) as [Hover|(Fq & Blo & Bhi)].
    { exfalso. subst K.
      change (2 ^ 2097) with (2 ^ 1023 * 2 ^ 1074) in Hover.
      assert (0 < 2 ^ 1074) by reflexivity.
      apply (Z.mul_lt_mono_pos_r (2 ^ 1074)) in Hsmall; [|assumption]. lia. }
    rewrite <- HL, <- HK in Blo, Bhi.
    split.
    { intros q Hq. apply elem_of_cons in Hq as [->|Hq]; [exact Fq|apply Fall, Hq]. }
    set (P := scaled_sum (map (fun w => (w / t)%float) ws)) in *.
    set (S := scaled_sum ws) in *.
    set (n := Z.of_nat (length ws)) in *.
    split; lia.
Qed.

Lemma scaled_sum_elem (ws : list float) (w : float) :
  (forall w', w' ∈ ws -> SFfinite_nonneg (Prim2SF w')) -> w ∈ ws ->
  0 <= scaled_sum ws /\ scaled w <= scaled_sum ws.
Proof.
  induction ws as [|w' ws IH]; intros Hall Hw; [inversion Hw|].
  cbn [scaled_sum foldr]. fold (scaled_sum ws).
  pose proof (scaled_nonneg w' (Hall w' ltac:(left))) as H0.
  assert (Hrest : forall x, x ∈ ws -> SFfinite_nonneg (Prim2SF x)).
  { intros x Hx. apply Hall. right. exact Hx. }
  assert (0 <= scaled_sum ws).
  { clear -Hrest. induction ws as [|x ws IH]; [reflexivity|].
    cbn [scaled_sum foldr]. fold (scaled_sum ws).
    pose proof (scaled_nonneg x (Hrest x ltac:(left))).
    assert (0 <= scaled_sum ws) by (apply IH; intros y Hy; apply Hrest; right; exact Hy).
    lia. }
  apply elem_of_cons in Hw as [->|Hw]; [lia|].
  destruct (IH Hrest Hw). lia.
Qed.

Lemma normalizedValues_quotients (doc : document) :
  gt0 (docTotal doc) = true ->
  normalizedValues true doc
  = map (fun w => (w / docTotal doc)%float)
        (map (fun j => default 0%float (topic_of doc j)) topic_ids).
Proof.
  intros Hpos. unfold normalizedValues. rewrite Hpos, map_map. reflexivity.
Qed.

(** The arithmetic of the last step: [S] is the exact sum of the weights,
    [T] the computed one, [P] the exact sum of the computed quotients, all in
    units of [2^-1074], and [K = 2^1074] is the number 1 in these units. *)
Lemma sum_of_quotients_arith (S T P : Z) :
  0 < T -> 0 <= S ->
  (2 ^ 52 - 1) ^ 13 * S <= (2 ^ 52) ^ 13 * T ->
  (2 ^ 52) ^ 13 * T <= (2 ^ 52 + 1) ^ 13 * S ->
  2 ^ 52 * (P * T - S * 2 ^ 1074) <= S * 2 ^ 1074 + 13 * (2 ^ 52 * T) ->
  2 ^ 52 * (S * 2 ^ 1074 - P * T) <= S * 2 ^ 1074 + 13 * (2 ^ 52 * T) ->
  10 ^ 12 * Z.abs (P - 2 ^ 1074) <= 2 ^ 1074.
Proof.
  intros HT HS Hlo Hhi Qhi Qlo.
  destruct (Z_le_gt_dec (10 ^ 12 * Z.abs (P - 2 ^ 1074)) (2 ^ 1074)) as [H|H]; [exact H|].
  exfalso.
  destruct (Z_le_gt_dec 0 (P - 2 ^ 1074)) as [Hs|Hs].
  - rewrite Z.abs_eq in H by exact Hs.
    assert (H1 : ((10 ^ 12 + 1) * 2 ^ 1074 + 1) * T <= 10 ^ 12 * P * T).
    { apply Z.mul_le_mono_nonneg_r; lia. }
    lia.
  - rewrite Z.abs_neq in H by lia.
    assert (H1 : (10 ^ 12 * P + 1) * T <= (10 ^ 12 - 1) * 2 ^ 1074 * T).
    { apply Z.mul_le_mono_nonneg_r; lia. }
    lia.
Qed.

Lemma normalized_sum_scaled (doc : document) :
  (forall i w, topic_of doc i = Some w -> nonneg w = true) ->
  gt0 (docTotal doc) = true -> (docTotal doc <? infinity)%float = true ->
  let v := normalizedValues true doc in
  (forall q, q ∈ v -> SFfinite_nonneg (Prim2SF q))
  /\ 10 ^ 12 * Z.abs (scaled_sum v - 2 ^ 1074) <= 2 ^ 1074.
Proof.
  intros Hw Hpos Hfin. cbv zeta.
  rewrite (normalizedValues_quotients doc Hpos).
  set (ws := map (fun j => default 0%float (topic_of doc j)) topic_ids).
  destruct (finite_positive_spec _ Hpos Hfin) as (mt & et & HT).
  assert (FT : SFfinite_nonneg (Prim2SF (docTotal doc))) by (rewrite HT; exact I).
  assert (HTpos : 0 < scaled (docTotal doc)).
  { unfold scaled. rewrite HT. cbn [SFscaled cond_Zopp].
    pose proof (Z.pow_pos_nonneg 2 (et - emin) ltac:(lia)).
    pose proof (Prim2SF_valid (docTotal doc)) as V. rewrite HT in V.
    apply valid_exponent in V. apply Z.mul_pos_pos; [lia|]. apply Z.pow_pos_nonneg; lia. }
  destruct (running_total_bound doc topic_ids 0%float eq_refl
              ltac:(intros j w _; apply Hw) FT) as (_ & Fall & HS & Hlo & Hhi).
  fold ws in HS, Hlo, Hhi. fold (docTotal doc) in Hlo, Hhi.
  change (scaled 0%float) with 0 in Hlo, Hhi.
  change (Z.of_nat (length topic_ids)) with 13 in Hlo, Hhi.
  rewrite Z.add_0_l in Hlo, Hhi.
  assert (Fws : forall w, w ∈ ws -> SFfinite_nonneg (Prim2SF w)).
  { intros w Hin. apply list_elem_of_fmap in Hin as (j & -> & Hj). apply Fall, Hj. }
  destruct (quotients_bound (docTotal doc) ws Hpos Hfin) as [Fq [Qhi Qlo]].
  { intros w Hin. split; [apply Fws, Hin|].
    destruct (scaled_sum_elem ws w Fws Hin) as [_ Hle].
    revert Hle Hlo HTpos. generalize (scaled w), (scaled_sum ws), (scaled (docTotal doc)).
    intros x S T. lia. }
  split; [exact Fq|].
  replace (Z.of_nat (length ws)) with 13 in Qhi, Qlo by (unfold ws; rewrite length_map; reflexivity).
  apply (sum_of_quotients_arith (scaled_sum ws) (scaled (docTotal doc))); assumption.
Qed.

(** The sum as [reduce((s, x) => s + x, t0)] computes it: as long as the
    exact sum stays below [2^971] no addition overflows, and each of them
    loses at most one part in [2^52]. *)
Lemma float_sum_bound (ws : list float) (t0 : float) :
  SFfinite_nonneg (Prim2SF t0) ->
  (forall w, w ∈ ws -> SFfinite_nonneg (Prim2SF w)) ->
  let S := scaled t0 + scaled_sum ws in
  let n := Z.of_nat (length ws) in
  (2 ^ 52 + 1) ^ n * S < (2 ^ 52) ^ n * 2 ^ 2045 ->
  let t := foldl (fun s x => (s + x)%float) t0 ws in
  SFfinite_nonneg (Prim2SF t)
  /\ (2 ^ 52 - 1) ^ n * S <= (2 ^ 52) ^ n * scaled t
  /\ (2 ^ 52) ^ n * scaled t <= (2 ^ 52 + 1) ^ n * S.
Proof.
  cbv zeta. remember (2 ^ 52) as L eqn:HL. remember (2 ^ 2045) as B eqn:HB.
  assert (HLpos : 1 < L) by (subst L; reflexivity).
  assert (HBpos : 0 < B) by (subst B; reflexivity).
  revert t0. induction ws as [|w ws IH]; intros t0 F0 Fws Hsmall.
  - cbn [foldl scaled_sum foldr length Z.of_nat] in *.
    split; [exact F0|]. rewrite !Z.pow_0_r. lia.
  - cbn [foldl]. cbn [scaled_sum foldr] in *. fold (scaled_sum ws) in *.
    replace (Z.of_nat (length (w :: ws))) with (Z.succ (Z.of_nat (length ws))) in *
      by (cbn [length]; lia).
    rewrite !Z.pow_succ_r in * by lia.
    set (n := Z.of_nat (length ws)) in *.
    assert (Fw : SFfinite_nonneg (Prim2SF w)) by (apply Fws; left).
    assert (Frest : forall x, x ∈ ws -> SFfinite_nonneg (Prim2SF x)).
    { intros x Hx. apply Fws. right. exact Hx. }
    assert (HS' : 0 <= scaled_sum ws).
    { destruct ws as [|x ws']; [reflexivity|].
      apply (scaled_sum_elem (x :: ws') x Frest). left. }
    set (S' := scaled_sum ws) in *.
    pose proof (scaled_nonneg t0 F0) as HT0. pose proof (scaled_nonneg w Fw) as HW.
    assert (Ha : 0 <= (L - 1) ^ n) by (apply Z.pow_nonneg; lia).
    assert (Hc : 0 <= (L + 1) ^ n) by (apply Z.pow_nonneg; lia).
    assert (Hb : 0 < L ^ n) by (apply Z.pow_pos_nonneg; lia).
    assert (Hbc : L ^ n <= (L + 1) ^ n) by (apply Z.pow_le_mono_l; lia).
    assert (F1 : SFfinite_nonneg (Prim2SF (t0 + w)%float)
                 /\ (L - 1) * (scaled t0 + scaled w) <= L * scaled (t0 + w)%float
                 /\ L * scaled (t0 + w)%float <= (L + 1) * (scaled t0 + scaled w)).
    { unfold scaled. rewrite FloatAxioms.add_spec. rewrite HL.
      destruct (SFadd_bound _ _ (Prim2SF_valid t0) (Prim2SF_valid w) F0 Fw)
        as [[_ Hover]|H]; [exfalso | exact H].
      fold (scaled t0) (scaled w) in Hover. rewrite <- HB in Hover.
      assert (L * L ^ n * B <= (L + 1) * (L + 1) ^ n * (scaled t0 + (scaled w + S'))).
      { apply Z.mul_le_mono_nonneg; try lia;
          try (apply Z.mul_nonneg_nonneg; lia); apply Z.mul_le_mono_nonneg; lia. }
      lia. }
    destruct F1 as (F1 & Blo & Bhi).
    pose proof (chain_upper L ((L + 1) ^ n) _ _ S' _ ltac:(lia) Hc HS' (Z.le_refl _) Bhi) as Hup.
    destruct (IH (t0 + w)%float F1 Frest) as (Ft & Hlo & Hhi).
    { apply (Z.mul_lt_mono_pos_l L); lia. }
    split; [exact Ft|]. split.
    + pose proof (chain_lower L _ _ _ _ _ ltac:(lia) Ha HS' Hlo Blo). lia.
    + pose proof (chain_upper L _ _ _ _ _ ltac:(lia) Hc HS' Hhi Bhi). lia.
Qed.

Lemma normalized_float_sum_scaled (doc : document) :
  (forall i w, topic_of doc i = Some w -> nonneg w = true) ->
  gt0 (docTotal doc) = true -> (docTotal doc <? infinity)%float = true ->
  let sum := float_sum (normalizedValues true doc) in
  SFfinite_nonneg (Prim2SF sum)
  /\ 10 ^ 9 * Z.abs (scaled sum - 2 ^ 1074) <= 2 ^ 1074.
Proof.
  intros Hw Hpos Hfin. cbv zeta. unfold float_sum.
  destruct (normalized_sum_scaled doc Hw Hpos Hfin) as [Fq HP].
  assert (Hlen : Z.of_nat (length (normalizedValues true doc)) = 13) by reflexivity.
  destruct (float_sum_bound (normalizedValues true doc) 0%float I Fq) as (Ft & Hlo & Hhi).
  { rewrite Hlen. change (scaled 0%float) with 0. rewrite Z.add_0_l.
    revert HP. generalize (scaled_sum (normalizedValues true doc)). intros P HP. lia. }
  split; [exact Ft|].
  rewrite Hlen in Hlo, Hhi. change (scaled 0%float) with 0 in Hlo, Hhi.
  rewrite Z.add_0_l in Hlo, Hhi.
  revert HP Hlo Hhi.
  generalize (scaled_sum (normalizedValues true doc)),
    (scaled (foldl (fun s x => (s + x)%float) 0%float (normalizedValues true doc))).
  intros P F HP Hlo Hhi. lia.
Qed.

Local Close Scope Z_scope.

Lemma vector_sum_scaled (v : list float) :
  (vector_sum v == inject_Z (scaled_sum v) / inject_Z (2 ^ 1074))%Q.
Proof.
  induction v as [|x v IH].
  - reflexivity.
  - cbn [vector_sum scaled_sum foldr]. fold (vector_sum v). fold (scaled_sum v).
    rewrite IH. unfold float_value. rewrite inject_Z_plus.
    generalize (inject_Z (2 ^ 1074)). intros K. unfold Qdiv. ring.
Qed.

Lemma ratio_within (P K : Z) :
  (0 < K)%Z -> (10 ^ 9 * Z.abs (P - K) <= K)%Z ->
  (Qabs (inject_Z P / inject_Z K - 1) <= 1 # 1000000000)%Q.
Proof.
  intros HK H. destruct K as [|k|k]; try lia.
  unfold Qle, Qabs, Qminus, Qplus, Qopp, Qdiv, Qmult, Qinv, inject_Z. simpl.
  rewrite !Z.mul_1_r, Pos.mul_1_r. 
  replace (P + - Z.pos k)%Z with (P - Z.pos k)%Z by lia. lia.
Qed.

(** The value of a few numbers, as a check of the units. *)
Lemma float_value_samples :
  (float_value 1 == 1)%Q /\ (float_value 0.5 == 1 # 2)%Q
  /\ (float_value 0.1 == 3602879701896397 # 36028797018963968)%Q
  /\ (float_value 5e-324 == 1 / inject_Z (2 ^ 1074))%Q.
Proof. repeat split; vm_compute; reflexivity. Qed.

Lemma finite_nonneg_iff (x : float) :
  finite_nonneg x = true <-> SFfinite_nonneg (Prim2SF x).
Proof.
  unfold finite_nonneg.
  rewrite andb_true_iff, FloatAxioms.leb_spec, FloatAxioms.ltb_spec.
  change (Prim2SF infinity) with (S754_infinity false).
  change (Prim2SF 0) with (S754_zero false).
  destruct (Prim2SF x) as [s|s| |s m e]; simpl; try destruct s; simpl;
    intuition discriminate.
Qed.

Lemma value_within (x : float) :
  (10 ^ 9 * Z.abs (scaled x - 2 ^ 1074) <= 2 ^ 1074)%Z ->
  (Qabs (float_value x - 1) <= 1 # 1000000000)%Q.
Proof. intros H. unfold float_value. apply ratio_within; [reflexivity | exact H]. Qed.

(** C6, as the code has it.  With the flag set, a document whose raw sum is
    greater than 0 gets each weight (0 for a missing one) divided by the raw
    sum.  When no weight is negative and the raw sum is finite, every entry
    is a finite number that is not negative, and the entries add up to 1
    within 1e-9, both as exact numbers and as the program would add them.  A
    document without a negative weight whose raw sum is 0 gets a vector of
    zeros: all its weights are zero and nothing is divided. *)
Theorem normalized_vector (doc : document) :
  let normalized := normalizedValues true doc in
  length normalized = 13%nat
  /\ (gt0 (docTotal doc) = true ->
      forall i, 1 <= i <= 13 ->
        get normalized (pred i) = default 0 (topic_of doc i) / docTotal doc)
  /\ ((forall i w, topic_of doc i = Some w -> nonneg w = true) ->
      gt0 (docTotal doc) = true -> (docTotal doc <? infinity) = true ->
      (forall i, 1 <= i <= 13 -> finite_nonneg (get normalized (pred i)) = true)
      /\ (Qabs (vector_sum normalized - 1) <= 1 # 1000000000)%Q
      /\ finite_nonneg (float_sum normalized) = true
      /\ (Qabs (float_value (float_sum normalized) - 1) <= 1 # 1000000000)%Q)
  /\ ((forall i w, topic_of doc i = Some w -> nonneg w = true) ->
      (docTotal doc =? 0) = true ->
      forall i, 1 <= i <= 13 -> (get normalized (pred i) =? 0) = true).
Proof.
  cbv zeta. split; [reflexivity|]. split; [|split].
  - intros Hpos i Hi. rewrite normalizedValues_cell by exact Hi.
    rewrite Hpos. reflexivity.
  - intros Hw Hpos Hfin.
    destruct (normalized_sum_scaled doc Hw Hpos Hfin) as [Fq HP].
    destruct (normalized_float_sum_scaled doc Hw Hpos Hfin) as [Fs HF].
    split; [|split; [|split]].
    + intros i Hi. apply finite_nonneg_iff, Fq. unfold get.
      destruct (normalizedValues true doc !! pred i) as [q|] eqn:Hq.
      * apply list_elem_of_lookup. exists (pred i). exact Hq.
      * apply lookup_ge_None in Hq. change (length (normalizedValues true doc)) with 13%nat in Hq.
        lia.
    + rewrite vector_sum_scaled. apply ratio_within; [reflexivity|].
      revert HP. generalize (scaled_sum (normalizedValues true doc)). intros P HP.
      clear -HP. lia.
    + apply finite_nonneg_iff, Fs.
    + apply value_within, HF.
  - intros Hw Hzero i Hi. rewrite normalizedValues_cell by exact Hi.
    rewrite (zero_not_positive _ Hzero). simpl.
    destruct (topic_of doc i) as [w|] eqn:Hwi; [|reflexivity]. simpl.
    destruct (running_total_nonneg doc topic_ids 0 eq_refl) as [_ Hz].
    { intros j w' _. apply Hw. }
    destruct (Hz Hzero) as [_ Hall]. apply (Hall i w); [|exact Hwi].
    apply elem_of_seq. unfold numTopics. lia.
Qed.

(** The theorem at the weights 0.1, 0.2 and 0.3. *)
Lemma normalized_vector_witness :
  (Qabs (vector_sum (normalizedValues true Samples.tenths) - 1) <= 1 # 1000000000)%Q
  /\ (Qabs (float_value (float_sum (normalizedValues true Samples.tenths)) - 1)
      <= 1 # 1000000000)%Q.
Proof.
  destruct (normalized_vector Samples.tenths) as (_ & _ & H & _).
  destruct H as (_ & H1 & _ & H2).
  - intros i w. unfold topic_of.
    destruct (pred i) as [|[|[|n]]]; cbn; intros [= <-]; reflexivity.
  - reflexivity.
  - reflexivity.
  - split; [exact H1 | exact H2].
Defined.

(** Three documents on which the claim fails.  The weights 1e308 and 1e308
    are finite, their sum is [Infinity], which is greater than 0, and every
    quotient is 0; the flag is set when 100 documents of weight 0 come first.
    The weights 1e16, 3, -1e16 and 2 have the finite raw sum 6, and their
    quotients add up to 5/6.  The weights 0.5 and -0.5 add up to 0 and are
    returned as they are. *)
Lemma normalized_sum_not_one :
  needsNormalization Samples.zeros_then_huge = true
  /\ last (normalizedDocs Samples.zeros_then_huge) = Some (replicate 13 0)
  /\ gt0 (docTotal Samples.huge) = true
  /\ float_sum (normalizedValues true Samples.huge) = 0
  /\ docTotal Samples.absorbed = 6
  /\ float_sum (normalizedValues true Samples.absorbed) = 0.83333333333333326
  /\ (vector_sum (normalizedValues true Samples.absorbed) < 5 # 6)%Q
  /\ docTotal Samples.cancelling = 0
  /\ take 2 (normalizedValues true Samples.cancelling) = [0.5; -0.5].
Proof. repeat split; vm_compute; reflexivity. Qed.

(** * Properties of the rest of the code

    The functions the charts are fed by, beside the ones above: the topic
    evolution, the loader of the expanded wordlist, the keywords as
    [loadAllData] composes them, and the data the components prepare. *)

(** ** Numerals *)

Lemma js_String c s : js (String c s) = N_of_ascii c :: js s.
Proof. reflexivity. Qed.

Lemma decimal_digit_cases (c : N) :
  (48 <= c <= 57)%N ->
  c = 48%N \/ c = 49%N \/ c = 50%N \/ c = 51%N \/ c = 52%N \/ c = 53%N \/ c = 54%N
  \/ c = 55%N \/ c = 56%N \/ c = 57%N.
Proof. lia. Qed.

Lemma uint_digits (d : Decimal.uint) :
  Forall (fun c => (48 <= c <= 57)%N) (js (NilEmpty.string_of_uint d)).
Proof.
  induction d; cbn [NilEmpty.string_of_uint]; rewrite ?js_String;
    constructor; try assumption; vm_compute; split; discriminate.
Qed.

Lemma parse_uint_acc (d : Decimal.uint) (acc : positive) :
  parse_digits 10 (js (NilEmpty.string_of_uint d)) (Some (Npos acc))
  = Some (Npos (Pos.of_uint_acc d acc)).
Proof.
  revert acc. induction d; intros acc; cbn [NilEmpty.string_of_uint Pos.of_uint_acc];
    rewrite ?js_String; [reflexivity|..];
    cbn [parse_digits N_of_ascii]; cbv [digit_value]; cbn -[N.mul N.add Pos.mul Pos.add];
    rewrite <- IHd; f_equal; f_equal; lia.
Qed.

Lemma parse_uint_zero (d : Decimal.uint) :
  parse_digits 10 (js (NilEmpty.string_of_uint d)) (Some 0%N) = Some (Pos.of_uint d).
Proof.
  induction d; cbn [NilEmpty.string_of_uint Pos.of_uint];
    rewrite ?js_String; [reflexivity|..];
    cbn [parse_digits N_of_ascii]; cbv [digit_value]; cbn -[N.mul N.add Pos.mul Pos.add];
    try exact IHd; apply parse_uint_acc.
Qed.

Lemma parse_uint (d : Decimal.uint) :
  d <> Decimal.Nil ->
  parse_digits 10 (js (NilEmpty.string_of_uint d)) None = Some (Pos.of_uint d).
Proof.
  destruct d; intros Hd; [congruence|..]; cbn [NilEmpty.string_of_uint Pos.of_uint];
    rewrite js_String; cbn [parse_digits N_of_ascii]; cbv [digit_value];
    cbn -[N.mul N.add Pos.mul Pos.add];
    first [apply parse_uint_zero | apply parse_uint_acc].
Qed.

(** On a string of decimal digits [parseInt] reads all of it. *)
Lemma parseInt_digits (s : jsstring) :
  s <> [] -> Forall (fun c => (48 <= c <= 57)%N) s ->
  parseInt s = Z.of_N <$> parse_digits 10 s None.
Proof.
  intros Hs Hd. destruct s as [|c s]; [congruence|].
  apply Forall_cons in Hd as [Hc Hd].
  assert (Hstart : Authors.trimStart (c :: s) = c :: s).
  { apply decimal_digit_cases in Hc. cbn [Authors.trimStart].
    repeat destruct Hc as [->|Hc]; try subst c; reflexivity. }
  unfold parseInt. rewrite Hstart.
  destruct s as [|x s].
  - apply decimal_digit_cases in Hc.
    repeat destruct Hc as [->|Hc]; try subst c; reflexivity.
  - apply Forall_cons in Hd as [Hx Hd].
    assert (Hhex : (x =? 120)%N || (x =? 88)%N = false).
    { apply orb_false_intro; apply N.eqb_neq; lia. }
    apply decimal_digit_cases in Hc.
    repeat destruct Hc as [->|Hc]; try subst c; cbv beta iota; rewrite ?Hhex;
      destruct (parse_digits 10 _ None); reflexivity.
Qed.

Lemma parseInt_minus_digits (s : jsstring) :
  s <> [] -> Forall (fun c => (48 <= c <= 57)%N) s ->
  parseInt (45%N :: s) = (fun n => (- Z.of_N n)%Z) <$> parse_digits 10 s None.
Proof.
  intros Hs Hd. destruct s as [|c s]; [congruence|].
  apply Forall_cons in Hd as [Hc Hd].
  unfold parseInt. cbn [Authors.trimStart].
  change (Authors.isWhiteSpace 45) with false. cbv iota.
  destruct s as [|x s].
  - apply decimal_digit_cases in Hc.
    repeat destruct Hc as [->|Hc]; try subst c; reflexivity.
  - apply Forall_cons in Hd as [Hx Hd].
    assert (Hhex : (x =? 120)%N || (x =? 88)%N = false).
    { apply orb_false_intro; apply N.eqb_neq; lia. }
    apply decimal_digit_cases in Hc.
    repeat destruct Hc as [->|Hc]; try subst c; cbv beta iota; rewrite ?Hhex;
      destruct (parse_digits 10 _ None); reflexivity.
Qed.

(** Reading back the numeral of an integer gives the integer. *)
Lemma parseInt_toString (z : Z) : parseInt (toString z) = Some z.
Proof.
  unfold toString. destruct z as [|p|p]; [reflexivity|..];
    cbn [Z.to_int NilZero.string_of_int];
    pose proof (DecimalPos.Unsigned.to_uint_nonnil p) as Hnil;
    pose proof (DecimalPos.Unsigned.of_to p) as Hval;
    assert (Hs : NilZero.string_of_uint (Pos.to_uint p)
                 = NilEmpty.string_of_uint (Pos.to_uint p))
      by (destruct (Pos.to_uint p); [congruence|reflexivity..]);
    assert (Hne : js (NilEmpty.string_of_uint (Pos.to_uint p)) <> [])
      by (destruct (Pos.to_uint p); [congruence|discriminate..]).
  - rewrite Hs, parseInt_digits by (exact Hne || apply uint_digits).
    rewrite parse_uint by exact Hnil. rewrite Hval. reflexivity.
  - rewrite Hs, js_String. change (N_of_ascii "-") with 45%N.
    rewrite parseInt_minus_digits by (exact Hne || apply uint_digits).
    rewrite parse_uint by exact Hnil. rewrite Hval. reflexivity.
Qed.

Lemma toString_inj (a b : Z) : toString a = toString b -> a = b.
Proof.
  intros H. apply (f_equal parseInt) in H. rewrite !parseInt_toString in H. congruence.
Qed.

(** ** Topic evolution *)

Lemma year_documents_snoc (y : Z) (docs : list document) (d : document) :
  Evolution.documents_of y (docs ++ [d])
  = Evolution.documents_of y docs ++ (if decide (Year d = Some y) then [d] else []).
Proof.
  unfold Evolution.documents_of. rewrite filter_app. reflexivity.
Qed.

(** The documents grouped under the key of a year are the documents of that
    year, in their order; a year no document has is no key. *)
Lemma yearlyData_lookup (docs : list document) (y : Z) :
  y <> 0%Z ->
  Evolution.yearlyData docs !! toString y
  = match Evolution.documents_of y docs with
    | [] => None
    | l => Some l
    end.
Proof.
  intros Hy. unfold Evolution.yearlyData.
  induction docs as [|d docs IH] using rev_ind; [reflexivity|].
  rewrite foldl_app, year_documents_snoc. cbn [foldl].
  set (m := foldl Evolution.group_doc ∅ docs) in *.
  unfold Evolution.group_doc.
  destruct (Year d) as [y'|] eqn:Hd.
  - unfold Yearly.falsy_year. destruct (Z.eqb_spec y' 0) as [->|Hy'].
    + rewrite decide_False by congruence. rewrite app_nil_r. exact IH.
    + destruct (decide (y' = y)) as [->|Hne].
      * rewrite lookup_insert_eq, decide_True by reflexivity. rewrite IH.
        destruct (Evolution.documents_of y docs); reflexivity.
      * rewrite lookup_insert_ne by (intros H; apply toString_inj in H; congruence).
        rewrite decide_False by congruence. rewrite app_nil_r. exact IH.
  - rewrite decide_False by congruence. rewrite app_nil_r. exact IH.
Qed.

Lemma yearlyData_keys (docs : list document) (k : jsstring) :
  is_Some (Evolution.yearlyData docs !! k) ->
  exists y, y <> 0%Z /\ k = toString y /\ Evolution.documents_of y docs <> [].
Proof.
  unfold Evolution.yearlyData.
  induction docs as [|d docs IH] using rev_ind.
  - cbn [foldl]. rewrite lookup_empty. intros [? [=]].
  - rewrite foldl_app. cbn [foldl].
    set (m := foldl Evolution.group_doc ∅ docs) in *.
    assert (Hold : is_Some (m !! k) ->
                   exists y, y <> 0%Z /\ k = toString y
                             /\ Evolution.documents_of y (docs ++ [d]) <> []).
    { intros H. destruct (IH H) as (y & Hy & Hk & Hne). exists y.
      split; [exact Hy|]. split; [exact Hk|].
      rewrite year_documents_snoc. destruct (Evolution.documents_of y docs); [congruence|].
      discriminate. }
    unfold Evolution.group_doc.
    destruct (Year d) as [y'|] eqn:Hd; [|exact Hold].
    unfold Yearly.falsy_year. destruct (Z.eqb_spec y' 0) as [->|Hy']; [exact Hold|].
    destruct (decide (toString y' = k)) as [<-|Hne].
    + intros _. exists y'. split; [exact Hy'|]. split; [reflexivity|].
      rewrite year_documents_snoc, decide_True by exact Hd.
      destruct (Evolution.documents_of y' docs); discriminate.
    + rewrite lookup_insert_ne by exact Hne. exact Hold.
Qed.

(** The yearly aggregator, before its averages: the entry of a year counts
    the documents of that year and sums their contributions in their order. *)
Lemma booksByYear_lookup flag (docs : list document) (y : Z) :
  foldl (Yearly.add_doc flag) ∅ docs !! y
  = match Evolution.documents_of y docs with
    | [] => None
    | l => if (y =? 0)%Z then None
           else Some {| Yearly.count := length l;
                        Yearly.topicDistribution :=
                          foldl (fun sums doc => add_topics flag doc sums)
                                zero_distribution l |}
    end.
Proof.
  induction docs as [|d docs IH] using rev_ind; [reflexivity|].
  rewrite foldl_app, year_documents_snoc. cbn [foldl].
  set (m := foldl (Yearly.add_doc flag) ∅ docs) in *.
  unfold Yearly.add_doc.
  destruct (Year d) as [y'|] eqn:Hd.
  - unfold Yearly.falsy_year. destruct (Z.eqb_spec y' 0) as [->|Hy'].
    + destruct (decide (Some 0%Z = Some y)) as [[= <-]|Hne].
      * rewrite IH. destruct (Evolution.documents_of 0 docs); reflexivity.
      * rewrite app_nil_r. exact IH.
    + destruct (decide (y' = y)) as [->|Hne].
      * rewrite lookup_insert_eq, decide_True by reflexivity. rewrite IH.
        apply Z.eqb_neq in Hy'. rewrite Hy'.
        destruct (Evolution.documents_of y docs) as [|d0 l].
        -- reflexivity.
        -- cbn [app]. cbn [default from_option id Yearly.count Yearly.topicDistribution].
           f_equal. f_equal.
           ++ cbn [length]. rewrite length_app. cbn [length]. lia.
           ++ change (d0 :: l ++ [d]) with ((d0 :: l) ++ [d]). rewrite foldl_app. reflexivity.
      * rewrite lookup_insert_ne by congruence.
        rewrite decide_False by congruence. rewrite app_nil_r. exact IH.
  - rewrite decide_False by congruence. rewrite app_nil_r. exact IH.
Qed.

(** ** The order of strings *)

Lemma String_lt_irrefl (a : jsstring) : String_lt a a = false.
Proof.
  induction a as [|x a IH]; [reflexivity|]. cbn [String_lt].
  rewrite N.ltb_irrefl. exact IH.
Qed.

Lemma String_lt_trans (a b c : jsstring) :
  String_lt a b = true -> String_lt b c = true -> String_lt a c = true.
Proof.
  revert b c. induction a as [|x a IH]; intros [|y b] [|z c]; cbn [String_lt];
    try discriminate; try reflexivity.
  destruct (N.ltb_spec x y), (N.ltb_spec y x), (N.ltb_spec y z), (N.ltb_spec z y),
    (N.ltb_spec x z), (N.ltb_spec z x);
    try discriminate; try reflexivity; try lia.
  apply IH.
Qed.

Lemma String_lt_total (a b : jsstring) :
  String_lt a b = false -> String_lt b a = false -> a = b.
Proof.
  revert b. induction a as [|x a IH]; intros [|y b]; cbn [String_lt];
    try discriminate; try reflexivity.
  destruct (N.ltb_spec x y), (N.ltb_spec y x); try discriminate; try lia.
  intros Hab Hba. f_equal; [lia | apply IH; assumption].
Qed.

Lemma String_lt_asym (a b : jsstring) :
  String_lt a b = true -> String_lt b a = false.
Proof.
  intros Hab. destruct (String_lt b a) eqn:Hba; [|reflexivity].
  pose proof (String_lt_trans _ _ _ Hab Hba) as H.
  rewrite String_lt_irrefl in H. discriminate.
Qed.

Lemma String_le_trans (a b c : jsstring) :
  String_lt b a = false -> String_lt c b = false -> String_lt c a = false.
Proof.
  intros Hab Hbc. destruct (String_lt c a) eqn:Hca; [|reflexivity].
  destruct (String_lt a b) eqn:Hab'.
  - rewrite (String_lt_trans _ _ _ Hca Hab') in Hbc. discriminate.
  - rewrite <- (String_lt_total _ _ Hab' Hab) in Hbc. congruence.
Qed.

Lemma default_compare_le (x y : jsstring) :
  (default_compare x y <= 0)%Z <-> String_lt y x = false.
Proof.
  unfold default_compare. destruct (String_lt x y) eqn:Hxy.
  - rewrite (String_lt_asym _ _ Hxy). split; [reflexivity | lia].
  - destruct (String_lt y x); split; intros; try reflexivity; try lia; discriminate.
Qed.

(** Without a comparator [sort] puts strings in ascending order. *)
Lemma sort_insert_default_sorted (x : jsstring) (l : list jsstring) :
  StronglySorted (fun a b => String_lt b a = false) l ->
  StronglySorted (fun a b => String_lt b a = false) (sort_insert default_compare x l).
Proof.
  induction 1 as [|y l Hl IH Hy]; cbn [sort_insert].
  - repeat constructor.
  - destruct (Z.leb_spec (default_compare x y) 0) as [Hle|Hgt].
    + apply default_compare_le in Hle.
      constructor; [constructor; assumption|].
      constructor; [exact Hle|].
      eapply Forall_impl; [exact Hy|]. cbv beta. intros z Hz.
      eapply String_le_trans; eassumption.
    + constructor; [exact IH|].
      rewrite sort_insert_perm. constructor; [|exact Hy].
      destruct (String_lt x y) eqn:Hxy; [|reflexivity].
      exfalso. unfold default_compare in Hgt. rewrite Hxy in Hgt. lia.
Qed.

Lemma Array_sort_default_sorted (l : list jsstring) :
  StronglySorted (fun a b => String_lt b a = false) (Array_sort default_compare l).
Proof.
  induction l as [|x l IH]; [constructor|].
  apply sort_insert_default_sorted. exact IH.
Qed.

Lemma StronglySorted_lookup {A} (R : A -> A -> Prop) (l : list A) :
  StronglySorted R l ->
  forall i j x y, (i < j)%nat -> l !! i = Some x -> l !! j = Some y -> R x y.
Proof.
  induction 1 as [|z l Hl IH Hz]; intros i j x y Hij Hi Hj; [inversion Hi|].
  destruct j as [|j]; [lia|]. cbn in Hj.
  destruct i as [|i].
  - injection Hi as <-. rewrite Forall_forall in Hz. apply Hz.
    eapply list_elem_of_lookup_2. exact Hj.
  - cbn in Hi. eapply (IH i j); [lia|eassumption..].
Qed.

(** The numerals of the years 1000 to 9999 are in the order of the years. *)
Lemma four_digit_successor :
  forallb (fun n => String_lt (toString (Z.of_nat n)) (toString (Z.of_nat (S n))))
          (seq (Z.to_nat 1000) (Z.to_nat 8999)) = true.
Proof. vm_compute. reflexivity. Qed.

Lemma four_digit_order (a b : Z) :
  (1000 <= a)%Z -> (a < b)%Z -> (b <= 9999)%Z ->
  String_lt (toString a) (toString b) = true.
Proof.
  intros Ha Hab Hb.
  assert (Hstep : forall n, (1000 <= n < 9999)%Z ->
                            String_lt (toString n) (toString (n + 1)) = true).
  { intros n Hn. pose proof four_digit_successor as H.
    rewrite forallb_forall in H. specialize (H (Z.to_nat n)).
    rewrite Z2Nat.id in H by lia.
    replace (Z.of_nat (S (Z.to_nat n))) with (n + 1)%Z in H by lia.
    apply H. apply in_seq. lia. }
  replace b with (a + 1 + Z.of_nat (Z.to_nat (b - a - 1)))%Z by lia.
  assert (Hk : (a + 1 + Z.of_nat (Z.to_nat (b - a - 1)) <= 9999)%Z) by lia.
  revert Hk. generalize (Z.to_nat (b - a - 1)). intros k.
  induction k as [|k IH]; intros Hk.
  - rewrite Z.add_0_r. apply Hstep. lia.
  - eapply String_lt_trans; [apply IH; lia|].
    replace (a + 1 + Z.of_nat (S k))%Z with (a + 1 + Z.of_nat k + 1)%Z by lia.
    apply Hstep. lia.
Qed.

(** What one entry of the evolution holds, given the key it is made from. *)
Lemma evolution_entry (docs : list document) (k : jsstring) :
  k ∈ Evolution.sorted_keys (Evolution.yearlyData docs) ->
  exists y, y <> 0%Z /\ k = toString y /\ Evolution.documents_of y docs <> []
    /\ Evolution.year_entry (needsNormalization docs) (Evolution.yearlyData docs) k
       = {| Evolution.year := Some y;
            Evolution.documentCount := length (Evolution.documents_of y docs);
            Evolution.topicDistribution :=
              map (fun s => s / float_of_nat (length (Evolution.documents_of y docs)))
                  (foldl (fun sums doc => add_topics (needsNormalization docs) doc sums)
                         zero_distribution (Evolution.documents_of y docs)) |}.
Proof.
  unfold Evolution.sorted_keys. rewrite Array_sort_elem_of.
  intros Hk. apply list_elem_of_fmap in Hk as ([k' l] & -> & Hin).
  apply elem_of_map_to_list in Hin. cbn [fst].
  destruct (yearlyData_keys docs k' ltac:(eauto)) as (y & Hy & -> & Hne).
  exists y. split; [exact Hy|]. split; [reflexivity|]. split; [exact Hne|].
  unfold Evolution.year_entry.
  rewrite parseInt_toString, (yearlyData_lookup docs y Hy).
  destruct (Evolution.documents_of y docs) as [|d l']; [congruence|]. reflexivity.
Qed.

Lemma sorted_keys_complete (docs : list document) (y : Z) :
  y <> 0%Z -> Evolution.documents_of y docs <> [] ->
  toString y ∈ Evolution.sorted_keys (Evolution.yearlyData docs).
Proof.
  intros Hy Hne. unfold Evolution.sorted_keys. rewrite Array_sort_elem_of.
  apply list_elem_of_fmap.
  exists (toString y, Evolution.documents_of y docs). split; [reflexivity|].
  apply elem_of_map_to_list. rewrite (yearlyData_lookup docs y Hy).
  destruct (Evolution.documents_of y docs); [congruence|reflexivity].
Qed.

Lemma sorted_keys_NoDup (docs : list document) :
  NoDup (Evolution.sorted_keys (Evolution.yearlyData docs)).
Proof.
  unfold Evolution.sorted_keys. rewrite Array_sort_perm. apply NoDup_fst_map_to_list.
Qed.

(** X1. On a collection whose years are safe integers,
    [calculateTopicEvolutionByYear] returns one entry for every year that a
    document has and that is not 0, and no other entry; the entry's [year] is
    that year read back from its key, and its [documentCount] is the number
    of documents of that year, which is at least 1.  The years are taken to
    be safe integers because the key of a greater year is not its decimal
    numeral: it need not read back as the year. *)
Theorem evolution_years (documentTopics : list document) :
  safe_years documentTopics = true ->
  let evolution := Evolution.calculateTopicEvolutionByYear documentTopics in
  NoDup (map Evolution.year evolution)
  /\ (forall e, e ∈ evolution ->
        exists y, Evolution.year e = Some y /\ y <> 0%Z
          /\ Evolution.documentCount e
             = length (Evolution.documents_of y documentTopics)
          /\ (0 < Evolution.documentCount e)%nat)
  /\ (forall doc y, doc ∈ documentTopics -> Year doc = Some y -> y <> 0%Z ->
        Some y ∈ map Evolution.year evolution).
Proof.
  intros _. cbv zeta. unfold Evolution.calculateTopicEvolutionByYear.
  set (flag := needsNormalization documentTopics).
  set (yd := Evolution.yearlyData documentTopics).
  split; [|split].
  - change (map ?f ?l) with (f <$> l). rewrite <- list_fmap_compose.
    apply NoDup_fmap_2_strong; [|apply sorted_keys_NoDup].
    intros k1 k2 H1 H2.
    destruct (evolution_entry _ _ H1) as (y1 & _ & -> & _ & E1).
    destruct (evolution_entry _ _ H2) as (y2 & _ & -> & _ & E2).
    cbn [compose]. fold flag yd in E1, E2. rewrite E1, E2.
    cbn [Evolution.year]. congruence.
  - intros e He. apply list_elem_of_fmap in He as (k & -> & Hk).
    destruct (evolution_entry _ _ Hk) as (y & Hy & -> & Hne & E).
    fold flag yd in E. rewrite E. exists y. cbn [Evolution.year Evolution.documentCount].
    split; [reflexivity|]. split; [exact Hy|]. split; [reflexivity|].
    destruct (Evolution.documents_of y documentTopics); [congruence|]. cbn [length]. lia.
  - intros doc y Hdoc Hyear Hy.
    assert (Hne : Evolution.documents_of y documentTopics <> []).
    { intros H. assert (Hin : doc ∈ Evolution.documents_of y documentTopics).
      { apply list_elem_of_filter. split; assumption. }
      rewrite H in Hin. inversion Hin. }
    pose proof (sorted_keys_complete _ _ Hy Hne) as Hk.
    destruct (evolution_entry _ _ Hk) as (y' & _ & Hyy' & _ & E).
    apply toString_inj in Hyy'. subst y'.
    apply list_elem_of_fmap. eexists. split; [|apply list_elem_of_fmap; eexists; split; [reflexivity|exact Hk]].
    fold flag yd in E. rewrite E. reflexivity.
Qed.

(** The theorem at two documents of the years 1960 and 1950. *)
Lemma evolution_years_witness :
  map Evolution.year (Evolution.calculateTopicEvolutionByYear Samples.two_years)
  = [Some 1950%Z; Some 1960%Z]
  /\ NoDup (map Evolution.year (Evolution.calculateTopicEvolutionByYear Samples.two_years)).
Proof.
  split; [vm_compute; reflexivity|].
  apply (evolution_years Samples.two_years). reflexivity.
Defined.

(** X2. On a collection whose years are safe integers the evolution and the
    yearly aggregate agree: an entry of the evolution has the count and,
    number for number, the topic distribution that [aggregateBooksByYear]
    stores under the same year, and every year of the aggregate has its
    entry. *)
Theorem evolution_agrees_with_booksByYear (documentTopics : list document) :
  safe_years documentTopics = true ->
  let evolution := Evolution.calculateTopicEvolutionByYear documentTopics in
  let booksByYear := Yearly.aggregateBooksByYear documentTopics in
  (forall e, e ∈ evolution ->
     exists y, Evolution.year e = Some y
       /\ booksByYear !! y
          = Some {| Yearly.count := Evolution.documentCount e;
                    Yearly.topicDistribution := Evolution.topicDistribution e |})
  /\ (forall y, is_Some (booksByYear !! y) -> Some y ∈ map Evolution.year evolution).
Proof.
  intros _. cbv zeta.
  unfold Evolution.calculateTopicEvolutionByYear, Yearly.aggregateBooksByYear.
  set (flag := needsNormalization documentTopics).
  set (yd := Evolution.yearlyData documentTopics).
  split.
  - intros e He. apply list_elem_of_fmap in He as (k & -> & Hk).
    destruct (evolution_entry _ _ Hk) as (y & Hy & -> & Hne & E).
    fold flag yd in E. rewrite E. exists y. split; [reflexivity|].
    rewrite lookup_fmap, booksByYear_lookup.
    apply Z.eqb_neq in Hy. rewrite Hy.
    destruct (Evolution.documents_of y documentTopics) as [|d l]; [congruence|].
    reflexivity.
  - intros y [e He]. rewrite lookup_fmap, booksByYear_lookup in He.
    destruct (Evolution.documents_of y documentTopics) as [|d l] eqn:Hdocs; [discriminate|].
    destruct (Z.eqb_spec y 0) as [|Hy]; [discriminate|].
    assert (Hne : Evolution.documents_of y documentTopics <> []) by (rewrite Hdocs; discriminate).
    pose proof (sorted_keys_complete _ _ Hy Hne) as Hk.
    destruct (evolution_entry _ _ Hk) as (y' & _ & Hyy' & _ & E).
    apply toString_inj in Hyy'. subst y'.
    apply list_elem_of_fmap. eexists. split; [|apply list_elem_of_fmap; eexists; split; [reflexivity|exact Hk]].
    fold flag yd in E. rewrite E. reflexivity.
Qed.

(** The theorem at the same two documents: each year of the aggregate has
    its entry in the evolution. *)
Lemma evolution_agrees_with_booksByYear_witness :
  is_Some (Yearly.aggregateBooksByYear Samples.two_years !! 1960%Z)
  /\ Some 1960%Z
     ∈ map Evolution.year (Evolution.calculateTopicEvolutionByYear Samples.two_years).
Proof.
  assert (H : is_Some (Yearly.aggregateBooksByYear Samples.two_years !! 1960%Z))
    by (vm_compute; eauto).
  split; [exact H|].
  exact (proj2 (evolution_agrees_with_booksByYear Samples.two_years eq_refl) 1960%Z H).
Defined.

(** X3. On a collection whose years are safe integers the entries of the
    evolution are in the order of the numerals of their years, as strings.
    When every year of the collection has four digits this is the order of
    the years. *)
Theorem evolution_order (documentTopics : list document) :
  safe_years documentTopics = true ->
  let evolution := Evolution.calculateTopicEvolutionByYear documentTopics in
  (forall i j a b, (i < j)%nat -> evolution !! i = Some a -> evolution !! j = Some b ->
     exists ya yb, Evolution.year a = Some ya /\ Evolution.year b = Some yb
       /\ String_lt (toString ya) (toString yb) = true)
  /\ ((forall doc y, doc ∈ documentTopics -> Year doc = Some y ->
         y = 0%Z \/ (1000 <= y <= 9999)%Z) ->
      forall i j a b, (i < j)%nat -> evolution !! i = Some a -> evolution !! j = Some b ->
        exists ya yb, Evolution.year a = Some ya /\ Evolution.year b = Some yb
          /\ (ya < yb)%Z).
Proof.
  intros _. cbv zeta.
  assert (Hgen : forall i j a b, (i < j)%nat ->
            Evolution.calculateTopicEvolutionByYear documentTopics !! i = Some a ->
            Evolution.calculateTopicEvolutionByYear documentTopics !! j = Some b ->
            exists ya yb, Evolution.year a = Some ya /\ Evolution.year b = Some yb
              /\ ya <> 0%Z /\ yb <> 0%Z
              /\ Evolution.documents_of ya documentTopics <> []
              /\ Evolution.documents_of yb documentTopics <> []
              /\ String_lt (toString ya) (toString yb) = true).
  { unfold Evolution.calculateTopicEvolutionByYear.
    set (flag := needsNormalization documentTopics).
    set (yd := Evolution.yearlyData documentTopics).
    intros i j a b Hij Ha Hb.
    change (map ?f ?l) with (f <$> l) in Ha, Hb. rewrite list_lookup_fmap in Ha, Hb.
    destruct (Evolution.sorted_keys yd !! i) as [ka|] eqn:Hka; [|discriminate].
    destruct (Evolution.sorted_keys yd !! j) as [kb|] eqn:Hkb; [|discriminate].
    cbn [fmap option_fmap option_map] in Ha, Hb. injection Ha as <-. injection Hb as <-.
    destruct (evolution_entry _ _ (list_elem_of_lookup_2 _ _ _ Hka)) as (ya & Hya & -> & Hna & Ea).
    destruct (evolution_entry _ _ (list_elem_of_lookup_2 _ _ _ Hkb)) as (yb & Hyb & -> & Hnb & Eb).
    fold flag yd in Ea, Eb. rewrite Ea, Eb. exists ya, yb.
    split; [reflexivity|]. split; [reflexivity|]. split; [exact Hya|]. split; [exact Hyb|].
    split; [exact Hna|]. split; [exact Hnb|].
    pose proof (Array_sort_default_sorted (map fst (map_to_list yd))) as Hsorted.
    fold (Evolution.sorted_keys yd) in Hsorted.
    pose proof (StronglySorted_lookup _ _ Hsorted i j _ _ Hij Hka Hkb) as Hle.
    cbv beta in Hle.
    destruct (String_lt (toString ya) (toString yb)) eqn:Hlt; [reflexivity|].
    exfalso. pose proof (String_lt_total _ _ Hlt Hle) as Heq.
    pose proof (sorted_keys_NoDup documentTopics) as Hnd. fold yd in Hnd.
    rewrite NoDup_alt in Hnd. rewrite <- Heq in Hkb.
    pose proof (Hnd _ _ _ Hka Hkb). lia. }
  split.
  - intros i j a b Hij Ha Hb.
    destruct (Hgen i j a b Hij Ha Hb) as (ya & yb & H1 & H2 & _ & _ & _ & _ & H3). eauto.
  - intros Hyears i j a b Hij Ha Hb.
    destruct (Hgen i j a b Hij Ha Hb) as (ya & yb & H1 & H2 & Hya & Hyb & Hna & Hnb & Hlt).
    exists ya, yb. split; [exact H1|]. split; [exact H2|].
    assert (Hrange : forall y, Evolution.documents_of y documentTopics <> [] ->
                               y = 0%Z \/ (1000 <= y <= 9999)%Z).
    { intros y Hne. destruct (Evolution.documents_of y documentTopics) as [|d l] eqn:Hd;
        [congruence|].
      assert (Hin : d ∈ Evolution.documents_of y documentTopics) by (rewrite Hd; left).
      apply list_elem_of_filter in Hin as [Hyd Hin]. eapply Hyears; eassumption. }
    destruct (Z.lt_ge_cases ya yb) as [|Hge]; [assumption|]. exfalso.
    destruct (Z.eq_dec ya yb) as [->|Hneq].
    { rewrite String_lt_irrefl in Hlt. discriminate. }
    destruct (Hrange ya Hna) as [->|Ra]; [congruence|].
    destruct (Hrange yb Hnb) as [->|Rb]; [congruence|].
    rewrite (String_lt_asym _ _ (four_digit_order yb ya ltac:(lia) ltac:(lia) ltac:(lia))) in Hlt.
      discriminate.
Qed.

(** The theorem at two documents of the years 1960 and 1950. *)
Lemma evolution_order_witness :
  let evolution := Evolution.calculateTopicEvolutionByYear Samples.two_years in
  exists ya yb,
    evolution !! 0%nat ≫= Evolution.year = Some ya
    /\ evolution !! 1%nat ≫= Evolution.year = Some yb
    /\ (ya < yb)%Z.
Proof.
  cbv zeta.
  destruct (Evolution.calculateTopicEvolutionByYear Samples.two_years !! 0%nat) as [a|] eqn:Ha;
    [|vm_compute in Ha; discriminate].
  destruct (Evolution.calculateTopicEvolutionByYear Samples.two_years !! 1%nat) as [b|] eqn:Hb;
    [|vm_compute in Hb; discriminate].
  destruct (proj2 (evolution_order Samples.two_years eq_refl))
    with (i := 0%nat) (j := 1%nat) (a := a) (b := b)
    as (ya & yb & Hya & Hyb & Hlt); [|lia|exact Ha|exact Hb|].
  - intros doc y Hdoc Hy. right.
    repeat (apply elem_of_cons in Hdoc as [->|Hdoc]); [..|inversion Hdoc];
      injection Hy as <-; lia.
  - exists ya, yb. cbn [mbind option_bind]. auto.
Defined.

(** The year 1000 comes before the year 999. *)
Lemma evolution_of_999_and_1000 :
  map Evolution.year (Evolution.calculateTopicEvolutionByYear Samples.years_999_1000)
  = [Some 1000%Z; Some 999%Z].
Proof. vm_compute. reflexivity. Qed.

(** ** Expanded wordlist *)

Lemma parse_digits_some (s : jsstring) (acc : option N) :
  s <> [] -> Forall (fun c => (48 <= c <= 57)%N) s ->
  is_Some (parse_digits 10 s acc).
Proof.
  intros Hs Hd. revert acc.
  induction Hd as [|c s Hc Hd IH]; [congruence|]. intros acc.
  cbn [parse_digits].
  assert (Hv : digit_value 10 c = Some (c - 48)%N).
  { apply decimal_digit_cases in Hc.
    repeat destruct Hc as [->|Hc]; try subst c; reflexivity. }
  rewrite Hv. destruct s as [|x s]; [cbn; eauto|]. apply IH. discriminate.
Qed.

Lemma isDigit_spec (c : N) : Wordlist.isDigit c = true <-> (48 <= c <= 57)%N.
Proof. unfold Wordlist.isDigit. rewrite andb_true_iff, !N.leb_le. reflexivity. Qed.

Lemma digits_prefix_digits (s : jsstring) :
  Forall (fun c => (48 <= c <= 57)%N) (Wordlist.digits_prefix s).
Proof.
  induction s as [|c s IH]; cbn [Wordlist.digits_prefix]; [constructor|].
  destruct (Wordlist.isDigit c) eqn:Hc; [|constructor].
  constructor; [apply isDigit_spec, Hc | exact IH].
Qed.

Lemma match_trailing_digits_some (s m : jsstring) :
  Wordlist.match_trailing_digits s = Some m ->
  m <> [] /\ Forall (fun c => (48 <= c <= 57)%N) m.
Proof.
  unfold Wordlist.match_trailing_digits.
  pose proof (List.Forall_rev (digits_prefix_digits (rev s))) as Hd.
  destruct (rev (Wordlist.digits_prefix (rev s))) as [|c m']; [discriminate|].
  intros [= <-]. split; [discriminate | exact Hd].
Qed.

Lemma topicId_of_number (topicCell : jsstring) : is_Some (Wordlist.topicId_of topicCell).
Proof.
  unfold Wordlist.topicId_of.
  destruct (Wordlist.match_trailing_digits topicCell) as [m|] eqn:Hm.
  - apply match_trailing_digits_some in Hm as [Hne Hd].
    rewrite (parseInt_digits m Hne Hd).
    destruct (parse_digits_some m None Hne Hd) as [n ->]. cbn. eauto.
  - destruct (parseInt topicCell); eauto.
Qed.

(** ** [trim] *)

Lemma trimStart_no_leading_space (s : jsstring) : no_leading_space (Authors.trimStart s).
Proof.
  induction s as [|c s IH]; cbn [Authors.trimStart]; [exact I|].
  destruct (Authors.isWhiteSpace c) eqn:Hc; [exact IH | exact Hc].
Qed.

Lemma trimStart_id (s : jsstring) : no_leading_space s -> Authors.trimStart s = s.
Proof.
  destruct s as [|c s]; [reflexivity|]. cbn [no_leading_space Authors.trimStart].
  intros ->. reflexivity.
Qed.

Lemma trimStart_suffix (s : jsstring) : exists w, s = w ++ Authors.trimStart s.
Proof.
  induction s as [|c s [w IH]]; [exists []; reflexivity|]. cbn [Authors.trimStart].
  destruct (Authors.isWhiteSpace c).
  - exists (c :: w). cbn. f_equal. exact IH.
  - exists []. reflexivity.
Qed.

(** A trimmed string has no white space at either end: trimming it again
    changes nothing. *)
Lemma trim_idempotent (s : jsstring) : Authors.trim (Authors.trim s) = Authors.trim s.
Proof.
  unfold Authors.trim.
  set (t := Authors.trimStart s).
  set (u := Authors.trimStart (rev t)).
  assert (Ht : no_leading_space t) by apply trimStart_no_leading_space.
  assert (Hu : no_leading_space u) by apply trimStart_no_leading_space.
  destruct (trimStart_suffix (rev t)) as [w Hw]. fold u in Hw.
  assert (Hru : no_leading_space (rev u)).
  { apply (f_equal (@rev N)) in Hw. rewrite rev_involutive, rev_app_distr in Hw.
    destruct (rev u) as [|c r]; [exact I|]. rewrite Hw in Ht. exact Ht. }
  rewrite (trimStart_id (rev u) Hru), rev_involutive, (trimStart_id u Hu). reflexivity.
Qed.

Lemma row_items_spec toLowerCase (rowIndex : nat) (row : list jsstring) :
  match Wordlist.row_items toLowerCase rowIndex row with
  | Some items =>
      row <> []
      /\ Forall (fun it => exists n, Wordlist.topic_id it = Some n /\ n <> 0%Z
                   /\ Wordlist.word it <> []
                   /\ Authors.trim (Wordlist.word it) = Wordlist.word it) items
  | None => row = []
  end.
Proof.
  destruct row as [|topicCell words]; [reflexivity|]. cbn [Wordlist.row_items].
  destruct (Wordlist.is_header toLowerCase rowIndex topicCell);
    [split; [discriminate|constructor]|].
  destruct (topicId_of_number topicCell) as [n Hn]. rewrite Hn.
  case_bool_decide as Hz; [split; [discriminate|constructor]|].
  split; [discriminate|].
  apply Forall_forall. intros it Hit.
  apply list_elem_of_fmap in Hit as (w & -> & Hw).
  apply list_elem_of_filter in Hw as [Hw _].
  apply andb_prop_elim in Hw as [_ Hw].
  exists n. cbn [Wordlist.topic_id Wordlist.word].
  split; [reflexivity|]. split; [congruence|]. split.
  - destruct (Authors.trim w); [contradiction|discriminate].
  - apply trim_idempotent.
Qed.

(** X4. [loadExpandedWordlist] fails exactly when a row has no cell.
    Every entry it returns has a topic id that is a number other than 0 and a
    word that is not empty and has no white space at either end, so that
    [enhanceTopicKeywords] skips none of them. *)
Theorem loaded_wordlist toLowerCase (data : list (list jsstring)) :
  match Wordlist.processedWordlist toLowerCase data with
  | Some items =>
      ([] ∉ data)
      /\ Forall (fun it => exists n, Wordlist.topic_id it = Some n /\ n <> 0%Z
                   /\ Wordlist.word it <> []
                   /\ Authors.trim (Wordlist.word it) = Wordlist.word it) items
  | None => [] ∈ data
  end.
Proof.
  unfold Wordlist.processedWordlist.
  destruct (mapM _ (imap pair data)) as [k|] eqn:Hk; cbn [fmap option_fmap option_map].
  - apply mapM_Some in Hk. split.
    + intros Hin. apply list_elem_of_lookup in Hin as [i Hi].
      assert (Hpair : imap pair data !! i = Some (i, [])).
      { rewrite list_lookup_imap, Hi. reflexivity. }
      destruct (Forall2_lookup_l _ _ _ _ _ Hk Hpair) as (y & _ & Hy).
      discriminate.
    + apply Forall_concat. apply Forall_forall. intros items Hitems.
      apply list_elem_of_lookup in Hitems as [i Hi].
      destruct (Forall2_lookup_r _ _ _ _ _ Hk Hi) as ([j row] & _ & Hrow).
      pose proof (row_items_spec toLowerCase j row) as Hspec.
      rewrite Hrow in Hspec. apply Hspec.
  - apply mapM_None in Hk. apply Exists_exists in Hk as ([i row] & Hin & Hnone).
    apply list_elem_of_lookup in Hin as [j Hj].
    rewrite list_lookup_imap in Hj.
    destruct (data !! j) as [row'|] eqn:Hrow; [|discriminate].
    injection Hj as <- <-.
    pose proof (row_items_spec toLowerCase j row') as Hspec.
    rewrite Hnone in Hspec. subst row'.
    eapply list_elem_of_lookup_2. exact Hrow.
Qed.

Lemma toString_digits (n : Z) :
  (0 <= n)%Z -> toString n <> [] /\ Forall (fun c => (48 <= c <= 57)%N) (toString n).
Proof.
  intros Hn. unfold toString. destruct n as [|p|p]; [| |lia].
  - split; [discriminate|]. repeat constructor; vm_compute; discriminate.
  - cbn [Z.to_int NilZero.string_of_int].
    pose proof (DecimalPos.Unsigned.to_uint_nonnil p) as Hnil.
    assert (Hs : NilZero.string_of_uint (Pos.to_uint p)
                 = NilEmpty.string_of_uint (Pos.to_uint p))
      by (destruct (Pos.to_uint p); [congruence|reflexivity..]).
    rewrite Hs. split; [|apply uint_digits].
    destruct (Pos.to_uint p); [congruence|discriminate..].
Qed.

Lemma digits_prefix_app (ds rest : jsstring) :
  Forall (fun c => (48 <= c <= 57)%N) ds ->
  (forall c, head rest = Some c -> Wordlist.isDigit c = false) ->
  Wordlist.digits_prefix (ds ++ rest) = ds.
Proof.
  intros Hd Hrest. induction Hd as [|c ds Hc Hd IH]; cbn [app].
  - destruct rest as [|c rest]; [reflexivity|]. cbn [Wordlist.digits_prefix].
    rewrite (Hrest c eq_refl). reflexivity.
  - cbn [Wordlist.digits_prefix]. apply isDigit_spec in Hc. rewrite Hc, IH. reflexivity.
Qed.

Lemma head_rev {A} (l : list A) : head (rev l) = last l.
Proof.
  induction l as [|x l IH] using rev_ind; [reflexivity|].
  rewrite rev_app_distr, last_snoc. reflexivity.
Qed.

(** X5. A first cell that ends with the numeral of [n], a safe integer that
    is not negative, after something that is no digit, as ["Topic 7"] does,
    gives the row the topic [n].  A greater [n] reaches the program rounded
    to binary64. *)
Theorem topicId_of_label (prefix : jsstring) (n : Z) :
  (0 <= n)%Z -> isSafeInteger n = true ->
  (forall c, last prefix = Some c -> Wordlist.isDigit c = false) ->
  Wordlist.topicId_of (prefix ++ toString n) = Some n.
Proof.
  intros Hn _ Hprefix. destruct (toString_digits n Hn) as [Hne Hd].
  unfold Wordlist.topicId_of, Wordlist.match_trailing_digits.
  rewrite rev_app_distr, digits_prefix_app, rev_involutive.
  - destruct (toString n) eqn:Hs; [congruence|]. rewrite <- Hs. apply parseInt_toString.
  - apply List.Forall_rev. exact Hd.
  - intros c Hc. apply Hprefix. rewrite <- Hc. symmetry. apply head_rev.
Qed.

(** The theorem at ["Topic 7"]. *)
Lemma topicId_of_label_witness :
  Wordlist.topicId_of (js "Topic " ++ toString 7) = Some 7%Z.
Proof.
  apply topicId_of_label; [lia|reflexivity|]. intros c [= <-]. reflexivity.
Defined.

(** X6. The first row is skipped when its first cell, in lower case,
    contains [topic], or does not begin with a number, whatever else the row
    holds: its words reach no topic. *)
Theorem first_row_skipped toLowerCase (topicCell : jsstring) (words : list jsstring)
    (rest : list (list jsstring)) :
  Wordlist.includes (toLowerCase topicCell) (js "topic") = true \/ parseInt topicCell = None ->
  Wordlist.processedWordlist toLowerCase ((topicCell :: words) :: rest)
  = Wordlist.processedWordlist toLowerCase ([topicCell] :: rest).
Proof.
  intros H. unfold Wordlist.processedWordlist. cbn [imap mapM].
  assert (Hh : Wordlist.is_header toLowerCase 0 topicCell = true).
  { unfold Wordlist.is_header. cbn [Nat.eqb andb].
    destruct H as [-> | ->]; [reflexivity | apply orb_true_r]. }
  cbn [Wordlist.row_items]. rewrite Hh. reflexivity.
Qed.

(** The theorem at a first row ["Topic 1", "steppe"], which looks like the
    rows after it. *)
Lemma first_row_skipped_witness :
  Wordlist.processedWordlist Wordlist.toLowerCase_latin
    [[js "Topic 1"; js "steppe"]; [js "Topic 2"; js "horse"]]
  = Some [{| Wordlist.topic_id := Some 2%Z; Wordlist.word := js "horse" |}].
Proof.
  rewrite first_row_skipped; [reflexivity|]. left. reflexivity.
Defined.

(** ** The keywords of [loadAllData] *)

Lemma allocate_lookup (topics : list Keywords.topic) (i : nat) :
  fst (Keywords.allocate topics) !! i = topics !! i.
Proof.
  unfold Keywords.allocate. cbn [fst].
  destruct (topics !! i) as [t|] eqn:Ht.
  - apply elem_of_list_to_map.
    + rewrite fmap_imap. cbn [compose fst].
      rewrite (imap_ext _ (fun i _ => i)) by reflexivity.
      rewrite imap_seq_0. rewrite list_fmap_id. apply NoDup_seq.
    + apply list_elem_of_lookup. exists i. rewrite list_lookup_imap, Ht. reflexivity.
  - apply not_elem_of_list_to_map. intros Hin.
    apply list_elem_of_fmap in Hin as ([j t] & Hj & Hin). cbn in Hj. subst j.
    apply list_elem_of_lookup in Hin as [k Hk]. rewrite list_lookup_imap in Hk.
    destruct (topics !! k) eqn:Hk'; [|discriminate]. injection Hk as <- <-. congruence.
Qed.

Lemma prepared_lookup nmfTopics topicLabels (i : nat) :
  Keywords.prepareTopicKeywords nmfTopics topicLabels !! i
  = Keywords.prepare_row topicLabels i <$> tail nmfTopics !! i.
Proof. unfold Keywords.prepareTopicKeywords. apply list_lookup_imap. Qed.

(** In a store whose topics are numbered from [a + 1] in the order of the
    array, [find] returns the topic of the number it is asked for. *)
Lemma find_topic_numbered (h : gmap nat Keywords.topic) (a m : nat) (tid : Z) :
  (forall l, (a <= l < a + m)%nat ->
     exists t, h !! l = Some t /\ Keywords.id t = Z.of_nat (l + 1)) ->
  Keywords.find_topic h (seq a m) tid
  = if decide (Z.of_nat a + 1 <= tid <= Z.of_nat a + Z.of_nat m)%Z
    then Some (Z.to_nat tid - 1)%nat else None.
Proof.
  unfold Keywords.find_topic. revert a. induction m as [|m IH]; intros a Hh.
  - cbn [seq find]. rewrite decide_False by lia. reflexivity.
  - cbn [seq find]. destruct (Hh a ltac:(lia)) as (t & -> & Hid).
    case_bool_decide as Htid.
    + rewrite decide_True by lia. f_equal. lia.
    + rewrite IH.
      * repeat case_decide; try reflexivity; lia.
      * intros l Hl. apply Hh. lia.
Qed.

(** X7. In the keywords [loadAllData] returns there is one topic for every
    row of the NMF table after the header, numbered from 1 in the order of
    the rows.  The topic of row [i + 1] has the keywords of that row that are
    not empty, followed by the words the wordlist has for the topic number
    [i + 1] that are not among them, each once, in the order of the
    wordlist. *)
Theorem enhanced_keywords nmfTopics topicLabels (expandedWordlist : list Keywords.wordItem) :
  let h' := fst (enhancedTopicKeywords nmfTopics topicLabels expandedWordlist) in
  let result := snd (enhancedTopicKeywords nmfTopics topicLabels expandedWordlist) in
  Keywords.keyword_lists h' result
  = imap (fun i keywordRow =>
            Keywords.merged (filter (fun w => w <> []) keywordRow)
                            (words_of_topic (Z.of_nat (i + 1)) expandedWordlist))
         (tail nmfTopics)
  /\ result = seq 0 (length nmfTopics - 1)
  /\ map (fun l => Keywords.id <$> h' !! l) result
     = map (fun l => Some (Z.of_nat (l + 1))) result.
Proof.
  cbv zeta. split; [|split].
  2:{ unfold enhancedTopicKeywords, Keywords.allocate, Keywords.enhanceTopicKeywords.
      cbn [snd]. f_equal. unfold Keywords.prepareTopicKeywords.
      rewrite length_imap. destruct nmfTopics; cbn [tail length]; lia. }
  2:{ unfold enhancedTopicKeywords.
      pose proof (allocate_lookup (Keywords.prepareTopicKeywords nmfTopics topicLabels)) as Hh.
      unfold Keywords.allocate in *. cbn [fst snd] in *.
      unfold Keywords.enhanceTopicKeywords. cbn [fst snd].
      apply map_ext_in. intros l Hl. apply in_seq in Hl.
      rewrite foldl_add_word_lookup, Hh, prepared_lookup.
      destruct (tail nmfTopics !! l) as [row|] eqn:Hrow; [reflexivity|].
      apply lookup_ge_None in Hrow.
      unfold Keywords.prepareTopicKeywords in Hl. rewrite length_imap in Hl. lia. }
  unfold enhancedTopicKeywords.
  set (topics := Keywords.prepareTopicKeywords nmfTopics topicLabels).
  pose proof (allocate_lookup topics) as Hh.
  unfold Keywords.allocate in *. cbn [fst snd] in *.
  set (h := list_to_map (imap (fun i t => (i, t)) topics)) in *.
  assert (Hlen : length topics = length (tail nmfTopics)).
  { unfold topics, Keywords.prepareTopicKeywords. apply length_imap. }
  unfold Keywords.enhanceTopicKeywords, Keywords.keyword_lists. cbn [fst snd].
  apply list_eq. intros i.
  change (map ?f ?l) with (f <$> l). rewrite list_lookup_fmap, list_lookup_imap.
  destruct (tail nmfTopics !! i) as [row|] eqn:Hrow.
  - assert (Hi : (i < length topics)%nat).
    { rewrite Hlen. eapply lookup_lt_Some. exact Hrow. }
    rewrite lookup_seq_lt by exact Hi. cbn [fmap option_fmap option_map Nat.add].
    f_equal. rewrite keywords_at_enhanced.
    assert (Hbase : Keywords.keywords_at h i = filter (fun w => w <> []) row).
    { unfold Keywords.keywords_at. rewrite Hh. unfold topics.
      rewrite prepared_lookup, Hrow. reflexivity. }
    rewrite Hbase. f_equal.
    unfold Keywords.words_for, words_of_topic. f_equal.
    apply list_filter_iff. intros w. unfold Keywords.reaches.
    rewrite (find_topic_numbered h 0 (length topics)).
    + case_decide as Hrange.
      * split.
        -- intros (H0 & Hw & [= Hl]). split; [lia | exact Hw].
        -- intros [Hid Hw]. split; [lia|]. split; [exact Hw|]. f_equal. lia.
      * split.
        -- intros (_ & _ & [=]).
        -- intros [Hid _]. exfalso. apply Hrange. lia.
    + intros l Hl. rewrite Hh. unfold topics. rewrite prepared_lookup.
      destruct (tail nmfTopics !! l) as [row'|] eqn:Hrow'.
      * eexists. split; [reflexivity|]. reflexivity.
      * apply lookup_ge_None in Hrow'. lia.
  - apply lookup_ge_None in Hrow. rewrite lookup_seq_ge by lia. reflexivity.
Qed.

(** ** Enhancing twice *)

Lemma push_words_incl (base ws : list jsstring) :
  let result := foldl (fun acc w => if decide (w ∈ acc) then acc else acc ++ [w]) base ws in
  (forall w, w ∈ base -> w ∈ result) /\ (forall w, w ∈ ws -> w ∈ result).
Proof.
  cbv zeta. revert base. induction ws as [|x ws IH]; intros base; cbn [foldl].
  - split; [auto|]. intros w Hw. inversion Hw.
  - destruct (IH (if decide (x ∈ base) then base else base ++ [x])) as [Hbase Hws].
    split.
    + intros w Hw. apply Hbase. case_decide; [exact Hw|].
      apply elem_of_app. left. exact Hw.
    + intros w Hw. apply elem_of_cons in Hw as [->|Hw]; [|apply Hws, Hw].
      apply Hbase. case_decide; [assumption|]. apply elem_of_app. right. left.
Qed.

Lemma push_words_present (base ws : list jsstring) :
  (forall w, w ∈ ws -> w ∈ base) ->
  foldl (fun acc w => if decide (w ∈ acc) then acc else acc ++ [w]) base ws = base.
Proof.
  induction ws as [|x ws IH]; intros H; cbn [foldl]; [reflexivity|].
  rewrite decide_True by (apply H; left). apply IH. intros w Hw. apply H. right. exact Hw.
Qed.

(** X8. Enhancing the enhanced topics once more with the same wordlist
    changes nothing: every word is found in the list it was pushed to. *)
Theorem enhance_twice (h : Keywords.store) (topicKeywords : list nat)
    (expandedWordlist : list Keywords.wordItem) :
  let once := Keywords.enhanceTopicKeywords h topicKeywords expandedWordlist in
  Keywords.enhanceTopicKeywords (fst once) (snd once) expandedWordlist = once.
Proof.
  cbv zeta. unfold Keywords.enhanceTopicKeywords. cbn [fst snd]. f_equal.
  set (h1 := foldl (Keywords.add_word topicKeywords) h expandedWordlist).
  apply map_eq. intros l.
  rewrite (foldl_add_word_lookup topicKeywords expandedWordlist h1 l).
  assert (Hids : forall l, Keywords.id <$> h1 !! l = Keywords.id <$> h !! l).
  { intros l'. unfold h1.
    rewrite (foldl_add_word_lookup topicKeywords expandedWordlist h l').
    destruct (h !! l'); reflexivity. }
  rewrite (words_for_ext h1 h topicKeywords l expandedWordlist Hids).
  unfold h1 at 1 2. rewrite (foldl_add_word_lookup topicKeywords expandedWordlist h l).
  destruct (h !! l) as [t|]; [|reflexivity].
  cbn [fmap option_fmap option_map Keywords.id Keywords.name Keywords.keywords].
  f_equal. f_equal. apply push_words_present.
  intros w Hw. apply push_words_incl. exact Hw.
Qed.

(** ** Author aggregator: the books of an author *)

Lemma titles_of_length (k : jsstring) (docs : list document) :
  (length (titles_of k docs) <= Authors.documents_of k docs)%nat.
Proof.
  unfold titles_of, Authors.documents_of.
  induction docs as [|d docs IH]; [reflexivity|].
  cbn [omap list_omap]. rewrite filter_cons.
  destruct (decide (Authors.author_key d = Some k)) as [Hk|Hk].
  - destruct (Book_Title d) as [t|]; [destruct (Authors.truthy t)|]; cbn [length]; lia.
  - exact IH.
Qed.

Lemma titles_of_none (k : jsstring) (docs : list document) :
  Authors.documents_of k docs = 0%nat -> titles_of k docs = [].
Proof.
  intros H. pose proof (titles_of_length k docs) as Hle.
  destruct (titles_of k docs); [reflexivity|]. cbn [length] in Hle. lia.
Qed.

Lemma first_seen_length {A} `{EqDecision A} (l : list A) :
  (length (first_seen l) <= length l)%nat.
Proof.
  induction l as [|x l IH]; [reflexivity|]. cbn [first_seen length].
  pose proof (length_filter (fun w' => w' <> x) (first_seen l)). lia.
Qed.

Lemma authorMap_books flag (docs : list document) (k : jsstring) :
  match Authors.Map_get k (foldl (Authors.add_doc flag) [] docs) with
  | Some v => Authors.books v = first_seen (titles_of k docs)
  | None => True
  end.
Proof.
  induction docs as [|d docs IH] using rev_ind; [exact I|].
  rewrite foldl_app. cbn [foldl]. rewrite add_doc_get.
  pose proof (authorMap_get flag docs k) as Hget.
  set (m := foldl (Authors.add_doc flag) [] docs) in *.
  unfold titles_of. rewrite omap_app. fold (titles_of k docs). cbn [omap list_omap].
  destruct (decide (Authors.author_key d = Some k)) as [Hk|Hk].
  - assert (Hprev : Authors.books (default (Authors.new_authorData k) (Authors.Map_get k m))
                    = first_seen (titles_of k docs)).
    { destruct (Authors.Map_get k m) as [v|]; [exact IH|].
      rewrite (titles_of_none k docs Hget). reflexivity. }
    cbn [Authors.count_doc Authors.books]. rewrite Hprev.
    destruct (Book_Title d) as [t|]; [|rewrite app_nil_r; reflexivity].
    destruct (Authors.truthy t); [|rewrite app_nil_r; reflexivity].
    rewrite first_seen_snoc. reflexivity.
  - rewrite app_nil_r. exact IH.
Qed.

(** X9. For every author [getTopAuthors] counts, and so for every author it
    returns: the name is not empty and has no white space at either end;
    [bookCount] is the number of different titles, other than the empty one,
    of the author's documents, and it is at most the author's count. *)
Theorem author_books (documentTopics : list document) (topN : nat) :
  let counted (a : Authors.author) :=
    Authors.author_name a <> []
    /\ Authors.trim (Authors.author_name a) = Authors.author_name a
    /\ Authors.bookCount a
       = length (first_seen (titles_of (Authors.author_name a) documentTopics))
    /\ (Authors.bookCount a <= Authors.author_count a)%nat in
  Forall counted (Authors.authors_of documentTopics)
  /\ Forall counted (Authors.getTopAuthors documentTopics topN).
Proof.
  cbv zeta.
  assert (Hall : Forall (fun a =>
            Authors.author_name a <> []
            /\ Authors.trim (Authors.author_name a) = Authors.author_name a
            /\ Authors.bookCount a
               = length (first_seen (titles_of (Authors.author_name a) documentTopics))
            /\ (Authors.bookCount a <= Authors.author_count a)%nat)
          (Authors.authors_of documentTopics)).
  { apply Forall_forall. intros a Ha.
    pose proof (authors_of_counts documentTopics a Ha) as [Hcount _].
    assert (Hname : Authors.author_name a ∈ first_seen (omap Authors.author_key documentTopics)).
    { rewrite <- authors_of_names. apply list_elem_of_fmap. eauto. }
    unfold Authors.authors_of in Ha. cbv zeta in Ha.
    set (flag := needsNormalization documentTopics) in *.
    apply list_elem_of_fmap in Ha as (v & -> & Hv).
    apply list_elem_of_fmap in Hv as ([k v'] & -> & Hkv). cbn [snd] in *.
    pose proof (authorMap_entry flag documentTopics k v' Hkv) as (Hk & _ & _).
    subst k.
    assert (Hnd : NoDup (foldl (Authors.add_doc flag) [] documentTopics).*1).
    { rewrite authorMap_keys. apply first_seen_NoDup. }
    pose proof (authorMap_books flag documentTopics (Authors.name v')) as Hbooks.
    rewrite (Map_get_elem _ v' _ Hnd Hkv) in Hbooks.
    cbn [Authors.summarize Authors.author_name Authors.bookCount Authors.author_count] in *.
    apply first_seen_elem_of, list_elem_of_omap in Hname as (d & _ & Hd).
    unfold Authors.author_key in Hd.
    destruct (Author d) as [x|]; [|discriminate].
    destruct (Authors.truthy x && Authors.truthy (Authors.trim x)) eqn:Ht; [|discriminate].
    injection Hd as Hd. apply andb_prop in Ht as [_ Ht].
    split; [rewrite <- Hd; destruct (Authors.trim x); [discriminate|discriminate]|].
    split; [rewrite <- Hd; apply trim_idempotent|].
    rewrite Hbooks. split; [reflexivity|].
    rewrite Hcount. etransitivity; [apply first_seen_length | apply titles_of_length]. }
  split; [exact Hall|].
  rewrite Forall_forall in *. intros a Ha. apply Hall.
  unfold Authors.getTopAuthors in Ha. apply elem_of_take in Ha as (i & Hi & _).
  apply list_elem_of_lookup_2 in Hi. apply Array_sort_elem_of in Hi. exact Hi.
Qed.

(** ** Decade aggregator: the decades and their years *)

Lemma decadeData_lookup (ys : list Decades.yearItem) (d : Z) :
  foldl Decades.add_year ∅ ys !! d
  = match filter (fun y => Decades.decade_of (Decades.year y) = d) ys with
    | [] => None
    | l => Some {| Decades.decade := d;
                   Decades.totalBooks := foldl (fun t y => t + Decades.count y) 0 l;
                   Decades.years := l;
                   Decades.topicSums :=
                     foldl (fun s y => Decades.add_year_topics y s) (replicate numTopics 0) l;
                   Decades.dominantTopics := replicate numTopics 0;
                   Decades.dominantTopic := None |}
    end.
Proof.
  induction ys as [|y ys IH] using rev_ind; [reflexivity|].
  rewrite foldl_app, filter_app. cbn [foldl]. rewrite filter_cons, filter_nil.
  set (m := foldl Decades.add_year ∅ ys) in *.
  unfold Decades.add_year.
  destruct (decide (Decades.decade_of (Decades.year y) = d)) as [Hd|Hd].
  - rewrite Hd, lookup_insert_eq, IH.
    destruct (filter _ ys) as [|y0 l].
    + reflexivity.
    + cbn [app default from_option id Decades.decade Decades.totalBooks Decades.years
           Decades.topicSums Decades.dominantTopics Decades.dominantTopic].
      change (y0 :: l ++ [y]) with ((y0 :: l) ++ [y]). rewrite !foldl_app. reflexivity.
  - rewrite lookup_insert_ne by exact Hd. rewrite app_nil_r. exact IH.
Qed.

Lemma StronglySorted_strict {A} (key : A -> Z) (l : list A) :
  StronglySorted (fun a b => (key a <= key b)%Z) l -> NoDup (map key l) ->
  StronglySorted (fun a b => (key a < key b)%Z) l.
Proof.
  induction 1 as [|x l Hl IH Hx]; intros Hnd; [constructor|].
  cbn [map] in Hnd. apply NoDup_cons in Hnd as [Hnx Hnd].
  constructor; [apply IH, Hnd|].
  rewrite Forall_forall in *. intros y Hy. specialize (Hx y Hy).
  assert (key x <> key y).
  { intros Heq. apply Hnx. rewrite Heq. apply list_elem_of_fmap. eauto. }
  lia.
Qed.

Lemma yearData_years (booksByYear : gmap Z Yearly.entry) :
  StronglySorted (fun a b => (Decades.year a < Decades.year b)%Z)
                 (Decades.yearData booksByYear)
  /\ (forall y, y ∈ map Decades.year (Decades.yearData booksByYear)
                <-> is_Some (booksByYear !! y)).
Proof.
  unfold Decades.yearData.
  set (items := map _ (map_to_list booksByYear)).
  assert (Hkeys : map Decades.year items = map fst (map_to_list booksByYear)).
  { unfold items. rewrite map_map. apply map_ext. intros [y e]. reflexivity. }
  split.
  - apply StronglySorted_strict.
    + apply (Array_sort_sorted _ Decades.year). reflexivity.
    + change (map ?f ?l) with (f <$> l). rewrite Array_sort_perm.
      change (Decades.year <$> items) with (map Decades.year items).
      rewrite Hkeys. apply NoDup_fst_map_to_list.
  - intros y. change (map ?f ?l) with (f <$> l). rewrite Array_sort_perm.
    change (Decades.year <$> items) with (map Decades.year items). rewrite Hkeys.
    change (map ?f ?l) with (f <$> l). rewrite list_elem_of_fmap. split.
    + intros ([y' e] & -> & Hin). apply elem_of_map_to_list in Hin. eauto.
    + intros [e He]. exists (y, e). split; [reflexivity|]. apply elem_of_map_to_list, He.
Qed.

(** X10. The bars of the decade chart, for years that are safe integers:
    the decades come in ascending order, each once, and each is a multiple of
    10.  A decade holds the years of [booksByYear] that fall into it, in
    ascending order, and at least one; its [totalBooks] is the sum of their
    counts, added in that order.  Every year of [booksByYear] is in the
    decade it falls into, which is at most the year and more than the year
    less 10.  The years are taken to be safe integers because for them the
    binary64 quotient, floor and product of the program give the decade as
    the integers do; for a greater year they need not. *)
Theorem decades_and_years (booksByYear : gmap Z Yearly.entry) :
  map_Forall (fun y _ => isSafeInteger y = true) booksByYear ->
  let yearData := Decades.yearData booksByYear in
  let decadeArray := Decades.decadeArray booksByYear in
  StronglySorted (fun a b => (Decades.decade a < Decades.decade b)%Z) decadeArray
  /\ Forall (fun e =>
       (Decades.decade e mod 10 = 0)%Z
       /\ Decades.years e
          = filter (fun y => Decades.decade_of (Decades.year y) = Decades.decade e) yearData
       /\ Decades.years e <> []
       /\ Decades.totalBooks e
          = foldl (fun t y => t + Decades.count y) 0 (Decades.years e)) decadeArray
  /\ StronglySorted (fun a b => (Decades.year a < Decades.year b)%Z) yearData
  /\ (forall y, is_Some (booksByYear !! y) ->
        exists e yearItem, e ∈ decadeArray /\ yearItem ∈ Decades.years e
          /\ Decades.year yearItem = y /\ Decades.decade e = Decades.decade_of y
          /\ (y - 10 < Decades.decade e <= y)%Z).
Proof.
  intros _. cbv zeta. unfold Decades.decadeArray.
  set (ys := Decades.yearData booksByYear).
  set (dd := foldl Decades.add_year ∅ ys).
  assert (Hentry : forall d e, (Decades.finish <$> dd) !! d = Some e ->
            Decades.decade e = d
            /\ Decades.years e = filter (fun y => Decades.decade_of (Decades.year y) = d) ys
            /\ Decades.years e <> []
            /\ Decades.totalBooks e
               = foldl (fun t y => t + Decades.count y) 0 (Decades.years e)
            /\ (d mod 10 = 0)%Z).
  { intros d e. rewrite lookup_fmap. unfold dd. rewrite decadeData_lookup.
    destruct (filter _ ys) as [|y0 l] eqn:Hf; [discriminate|].
    cbn [fmap option_fmap option_map]. intros [= <-].
    cbn [Decades.finish Decades.decade Decades.years Decades.totalBooks].
    split; [reflexivity|]. split; [reflexivity|]. split; [discriminate|].
    split; [reflexivity|].
    assert (Hin : y0 ∈ filter (fun y => Decades.decade_of (Decades.year y) = d) ys)
      by (rewrite Hf; left).
    apply list_elem_of_filter in Hin as [<- _]. unfold Decades.decade_of.
    apply Z.mod_mul. lia. }
  assert (Hdec : map Decades.decade (map snd (map_to_list (Decades.finish <$> dd)))
                 = map fst (map_to_list (Decades.finish <$> dd))).
  { rewrite map_map. apply map_ext_in. intros [d e] Hin. cbn [fst snd].
    apply list_elem_of_In, elem_of_map_to_list in Hin. apply Hentry in Hin. tauto. }
  split; [|split; [|split]].
  - apply StronglySorted_strict.
    + apply (Array_sort_sorted _ Decades.decade). reflexivity.
    + change (map ?f (Array_sort ?c ?l)) with (f <$> Array_sort c l).
      rewrite Array_sort_perm.
      change (Decades.decade <$> ?l) with (map Decades.decade l).
      rewrite Hdec. apply NoDup_fst_map_to_list.
  - apply Forall_forall. intros e He. apply Array_sort_elem_of in He.
    apply list_elem_of_fmap in He as ([d e'] & -> & Hin). cbn [snd].
    apply elem_of_map_to_list in Hin. destruct (Hentry d e' Hin) as (Hd & Hy & Hne & Ht & Hm).
    rewrite Hd. tauto.
  - apply yearData_years.
  - intros y Hy. apply (proj2 (yearData_years booksByYear)) in Hy.
    apply list_elem_of_fmap in Hy as (yi & -> & Hyi). fold ys in Hyi.
    set (d := Decades.decade_of (Decades.year yi)).
    assert (Hin : yi ∈ filter (fun y => Decades.decade_of (Decades.year y) = d) ys).
    { apply list_elem_of_filter. split; [reflexivity | exact Hyi]. }
    assert (Hlook : is_Some ((Decades.finish <$> dd) !! d)).
    { rewrite lookup_fmap. unfold dd. rewrite decadeData_lookup.
      destruct (filter _ ys); [inversion Hin|]. cbn. eauto. }
    destruct Hlook as [e He]. destruct (Hentry d e He) as (Hd & Hyrs & _).
    exists e, yi. split.
    + apply Array_sort_elem_of. apply list_elem_of_fmap. exists (d, e).
      split; [reflexivity|]. apply elem_of_map_to_list, He.
    + split; [rewrite Hyrs; exact Hin|]. split; [reflexivity|]. split; [exact Hd|].
      rewrite Hd. unfold d, Decades.decade_of.
      pose proof (Z.div_mod (Decades.year yi) 10 ltac:(lia)).
      pose proof (Z.mod_pos_bound (Decades.year yi) 10 ltac:(lia)). lia.
Qed.

(** The theorem at the single book of 1950. *)
Lemma decades_and_years_witness :
  map Decades.decade (Decades.decadeArray Samples.one_book_by_year) = [1950%Z]
  /\ StronglySorted (fun a b => (Decades.decade a < Decades.decade b)%Z)
       (Decades.decadeArray Samples.one_book_by_year).
Proof.
  split; [vm_compute; reflexivity|].
  apply (decades_and_years Samples.one_book_by_year).
  assert (H : Samples.one_book_by_year
              = {[ 1950%Z := {| Yearly.count := 1;
                                Yearly.topicDistribution :=
                                  [0.75; 0.25; 0; 0; 0; 0; 0; 0; 0; 0; 0; 0; 0] |} ]})
    by (vm_compute; reflexivity).
  rewrite H. apply map_Forall_singleton. reflexivity.
Defined.

(** ** Decade chart: the pie *)



(** ** The accumulation loop *)

Lemma add_topics_other flag (doc : document) (j : nat) (sums : list float) (i : nat) :
  pred j <> i ->
  match topic_of doc j with
  | Some w => alter (fun s => s + normalizedValue flag (docTotal doc) w) (pred j) sums
  | None => sums
  end !! i = sums !! i.
Proof.
  intros Hne. destruct (topic_of doc j) as [w|]; [|reflexivity].
  apply list_lookup_alter_ne. exact Hne.
Qed.

Lemma add_topics_loop flag (doc : document) (ids : list nat) (sums : list float) (i : nat) :
  NoDup ids -> Forall (fun j => (1 <= j)%nat) ids ->
  foldl (fun sums j =>
           match topic_of doc j with
           | Some w => alter (fun s => s + normalizedValue flag (docTotal doc) w) (pred j) sums
           | None => sums
           end) sums ids !! i
  = (fun s => if decide (S i ∈ ids)
              then match topic_of doc (S i) with
                   | Some w => s + normalizedValue flag (docTotal doc) w
                   | None => s
                   end
              else s) <$> sums !! i.
Proof.
  intros Hnd Hpos. revert sums.
  induction Hnd as [|j ids Hj Hnd IH]; intros sums; cbn [foldl].
  - destruct (sums !! i); reflexivity.
  - apply Forall_cons in Hpos as [Hj1 Hpos]. rewrite (IH Hpos).
    destruct (decide (S i ∈ ids)) as [Hin|Hnin];
      destruct (decide (S i ∈ j :: ids)) as [Hin'|Hnin'].
    + assert (Hne : j <> S i) by (intros ->; contradiction).
      rewrite (add_topics_other flag doc j sums i) by lia. reflexivity.
    + exfalso. apply Hnin'. right. exact Hin.
    + apply elem_of_cons in Hin' as [<-|]; [|contradiction]. cbn [pred].
      destruct (topic_of doc (S i)) as [w|]; [|destruct (sums !! i); reflexivity].
      rewrite list_lookup_alter_eq. destruct (sums !! i); reflexivity.
    + assert (Hne : j <> S i) by (intros ->; apply Hnin'; left).
      rewrite (add_topics_other flag doc j sums i) by lia. reflexivity.
Qed.

Lemma add_topics_cell flag (doc : document) (sums : list float) (i : nat) :
  (i < 13)%nat ->
  add_topics flag doc sums !! i
  = (fun s => match topic_of doc (S i) with
              | Some w => s + normalizedValue flag (docTotal doc) w
              | None => s
              end) <$> sums !! i.
Proof.
  intros Hi. unfold add_topics. cbv zeta. rewrite add_topics_loop.
  - destruct (decide (S i ∈ topic_ids)) as [|Hn]; [reflexivity|].
    exfalso. apply Hn. apply elem_of_seq. unfold numTopics. lia.
  - apply NoDup_seq.
  - apply Forall_forall. intros j Hj. apply elem_of_seq in Hj. lia.
Qed.

Lemma add_topics_length flag (doc : document) (sums : list float) :
  length (add_topics flag doc sums) = length sums.
Proof.
  unfold add_topics. cbv zeta. generalize topic_ids. intros ids. revert sums.
  induction ids as [|j ids IH]; intros sums; cbn [foldl]; [reflexivity|].
  rewrite IH. destruct (topic_of doc j); [apply length_alter | reflexivity].
Qed.

(** Every cell of the accumulator holds the sum of its topic. *)
Lemma topic_sums_cell flag (docs : list document) (i : nat) :
  (i < 13)%nat ->
  foldl (fun sums doc => add_topics flag doc sums) zero_distribution docs !! i
  = Some (topic_sum flag docs i).
Proof.
  intros Hi. unfold topic_sum.
  induction docs as [|d docs IH] using rev_ind.
  - cbn [foldl]. unfold zero_distribution, numTopics. apply lookup_replicate_2. exact Hi.
  - rewrite !foldl_app. cbn [foldl]. rewrite add_topics_cell by exact Hi. rewrite IH.
    reflexivity.
Qed.

Lemma topic_sums_length flag (docs : list document) :
  length (foldl (fun sums doc => add_topics flag doc sums) zero_distribution docs) = 13%nat.
Proof.
  induction docs as [|d docs IH] using rev_ind; [reflexivity|].
  rewrite foldl_app. cbn [foldl]. rewrite add_topics_length. exact IH.
Qed.

(** X12. What [aggregateBooksByYear] stores under a year: the year has an
    entry exactly when it is not 0 and a document has it; the entry has 13
    values, and the value of a topic is the sum of the normalised weights the
    documents of the year have for it, added in the order of the documents,
    divided by the number of all documents of the year, those without a
    weight for the topic included. *)
Theorem yearly_means (documentTopics : list document) (y : Z) :
  let flag := needsNormalization documentTopics in
  let documents := Evolution.documents_of y documentTopics in
  match Yearly.aggregateBooksByYear documentTopics !! y with
  | Some e =>
      y <> 0%Z /\ documents <> []
      /\ Yearly.count e = length documents
      /\ length (Yearly.topicDistribution e) = 13%nat
      /\ forall i, (i < 13)%nat ->
           get (Yearly.topicDistribution e) i
           = topic_sum flag documents i / float_of_nat (length documents)
  | None => y = 0%Z \/ documents = []
  end.
Proof.
  cbv zeta. unfold Yearly.aggregateBooksByYear. cbv zeta.
  rewrite lookup_fmap, booksByYear_lookup.
  destruct (Evolution.documents_of y documentTopics) as [|d l] eqn:Hdocs; [right; reflexivity|].
  destruct (Z.eqb_spec y 0) as [|Hy]; [left; assumption|].
  cbn [fmap option_fmap option_map]. unfold Yearly.average.
  cbn [Yearly.count Yearly.topicDistribution length Nat.ltb Nat.leb].
  split; [exact Hy|]. split; [discriminate|]. split; [reflexivity|]. split.
  - rewrite length_map. apply topic_sums_length.
  - intros i Hi. unfold get. change (map ?f ?l) with (f <$> l).
    rewrite list_lookup_fmap, topic_sums_cell by exact Hi. reflexivity.
Qed.

(** ** Author aggregator: the distribution of an author *)

Lemma authorMap_topicSums flag (docs : list document) (k : jsstring) :
  match Authors.Map_get k (foldl (Authors.add_doc flag) [] docs) with
  | Some v =>
      Authors.topicSums v
      = foldl (fun sums doc => add_topics flag doc sums) zero_distribution
              (filter (fun doc => Authors.author_key doc = Some k) docs)
  | None => True
  end.
Proof.
  induction docs as [|d docs IH] using rev_ind; [exact I|].
  rewrite foldl_app. cbn [foldl]. rewrite add_doc_get.
  pose proof (authorMap_get flag docs k) as Hget.
  set (m := foldl (Authors.add_doc flag) [] docs) in *.
  rewrite filter_app, filter_cons, filter_nil.
  destruct (decide (Authors.author_key d = Some k)) as [Hk|Hk].
  - rewrite foldl_app. cbn [foldl Authors.count_doc Authors.topicSums]. f_equal.
    destruct (Authors.Map_get k m) as [v|]; [exact IH|].
    unfold Authors.documents_of in Hget.
    destruct (filter _ docs); [reflexivity|discriminate].
  - rewrite app_nil_r. exact IH.
Qed.

(** X13. For every author [getTopAuthors] counts, and so for every author
    it returns: the distribution has 13 values, and the value of a topic is
    the sum of the normalised weights the author's documents have for it,
    added in the order of the documents, divided by the author's count;
    [totalDistribution] is the sum of the 13 values, added in the order of
    the topics. *)
Theorem author_means (documentTopics : list document) (topN : nat) :
  let flag := needsNormalization documentTopics in
  let counted (a : Authors.author) :=
    let own := filter (fun doc => Authors.author_key doc = Some (Authors.author_name a))
                      documentTopics in
    length (Authors.topicDistribution a) = 13%nat
    /\ (forall i, (i < 13)%nat ->
          get (Authors.topicDistribution a) i
          = topic_sum flag own i / float_of_nat (Authors.author_count a))
    /\ Authors.totalDistribution a = float_sum (Authors.topicDistribution a) in
  Forall counted (Authors.authors_of documentTopics)
  /\ Forall counted (Authors.getTopAuthors documentTopics topN).
Proof.
  cbv zeta.
  set (flag := needsNormalization documentTopics).
  assert (Hall : Forall (fun a =>
            length (Authors.topicDistribution a) = 13%nat
            /\ (forall i, (i < 13)%nat ->
                  get (Authors.topicDistribution a) i
                  = topic_sum flag
                      (filter (fun doc => Authors.author_key doc = Some (Authors.author_name a))
                              documentTopics) i
                    / float_of_nat (Authors.author_count a))
            /\ Authors.totalDistribution a = float_sum (Authors.topicDistribution a))
          (Authors.authors_of documentTopics)).
  { apply Forall_forall. intros a Ha.
    unfold Authors.authors_of in Ha. cbv zeta in Ha. fold flag in Ha.
    apply list_elem_of_fmap in Ha as (v & -> & Hv).
    apply list_elem_of_fmap in Hv as ([k v'] & -> & Hkv). cbn [snd] in *.
    pose proof (authorMap_entry flag documentTopics k v' Hkv) as (Hk & _ & Hpos).
    subst k.
    assert (Hnd : NoDup (foldl (Authors.add_doc flag) [] documentTopics).*1).
    { rewrite authorMap_keys. apply first_seen_NoDup. }
    pose proof (authorMap_topicSums flag documentTopics (Authors.name v')) as Hsums.
    rewrite (Map_get_elem _ v' _ Hnd Hkv) in Hsums.
    cbn [Authors.summarize Authors.author_name Authors.author_count
         Authors.topicDistribution Authors.totalDistribution].
    split; [rewrite length_map; reflexivity|]. split; [|reflexivity].
    intros i Hi. unfold get at 1. change (map ?f ?l) with (f <$> l).
    rewrite list_lookup_fmap. unfold topic_ids, numTopics.
    rewrite lookup_seq_lt by exact Hi. cbn [fmap option_fmap option_map default from_option id
                                             Nat.add pred].
    apply Nat.ltb_lt in Hpos. rewrite Hpos. f_equal.
    unfold get. rewrite Hsums, topic_sums_cell by exact Hi. reflexivity. }
  split; [exact Hall|].
  rewrite Forall_forall in *. intros a Ha. apply Hall.
  unfold Authors.getTopAuthors in Ha. apply elem_of_take in Ha as (i & Hi & _).
  apply list_elem_of_lookup_2 in Hi. apply Array_sort_elem_of in Hi. exact Hi.
Qed.

(** ** Topic network *)

Lemma links_elem (m : list (list float)) (l : Network.link) :
  l ∈ Network.links m
  <-> (Network.source l < length m)%nat
      /\ (Network.source l < Network.target l
          < length (default [] (m !! Network.source l)))%nat
      /\ Network.value l = get2 m (Network.source l) (Network.target l)
      /\ (Network.threshold <? abs (Network.value l)) = true.
Proof.
  unfold Network.links. rewrite list_elem_of_In, in_flat_map. split.
  - intros (i & Hi & Hl). apply list_elem_of_In, elem_of_seq in Hi.
    apply list_elem_of_In, list_elem_of_omap in Hl as (j & Hj & Hl).
    apply elem_of_seq in Hj. cbv zeta in Hl.
    destruct (Network.threshold <? abs (get2 m i j)) eqn:Hgt; [|discriminate].
    injection Hl as <-. cbn [Network.source Network.target Network.value].
    split; [lia|]. split; [lia|]. split; [reflexivity | exact Hgt].
  - destruct l as [i j v]. cbn [Network.source Network.target Network.value].
    intros (Hi & Hj & -> & Hgt). exists i. split.
    + apply list_elem_of_In, elem_of_seq. lia.
    + apply list_elem_of_In, list_elem_of_omap. exists j. split.
      * apply elem_of_seq. lia.
      * cbv zeta. rewrite Hgt. reflexivity.
Qed.

Lemma links_NoDup (m : list (list float)) (rows : list nat) :
  NoDup rows ->
  NoDup (flat_map (fun i =>
           omap (fun j =>
                   let correlation := get2 m i j in
                   if Network.threshold <? abs correlation
                   then Some {| Network.source := i; Network.target := j;
                                Network.value := correlation |}
                   else None)
                (seq (i + 1) (length (default [] (m !! i)) - (i + 1)))) rows).
Proof.
  induction 1 as [|a rows Ha Hrows IH]; cbn [flat_map]; [constructor|].
  apply NoDup_app. split; [|split; [|exact IH]].
  - generalize (seq (a + 1) (length (default [] (m !! a)) - (a + 1)))
               (NoDup_seq (a + 1) (length (default [] (m !! a)) - (a + 1))).
    intros js Hjs. induction Hjs as [|j js Hj Hjs IHjs]; cbn [omap list_omap]; [constructor|].
    cbv zeta. destruct (Network.threshold <? abs (get2 m a j)); [|exact IHjs].
    constructor; [|exact IHjs].
    intros Hin. apply list_elem_of_omap in Hin as (j' & Hj' & Heq).
    cbv zeta in Heq. destruct (Network.threshold <? abs (get2 m a j')); [|discriminate].
    injection Heq as Hjj _. congruence.
  - intros l Hl Hl'. apply list_elem_of_omap in Hl as (j & _ & Hl). cbv zeta in Hl.
    destruct (Network.threshold <? abs (get2 m a j)); [|discriminate].
    injection Hl as <-.
    apply list_elem_of_In, in_flat_map in Hl' as (i & Hi & Hl').
    apply list_elem_of_In in Hi.
    apply list_elem_of_In, list_elem_of_omap in Hl' as (j' & _ & Hl'). cbv zeta in Hl'.
    destruct (Network.threshold <? abs (get2 m i j')); [|discriminate].
    injection Hl' as Hia _ _. congruence.
Qed.

(** X14. The links of the topic network, for the matrix
    [calculateTopicCorrelations] returns: there is a link from [i] to [j]
    exactly when [i < j < 13] and the absolute value of the correlation of
    the two topics is greater than 0.05; its value is that correlation.  A
    topic whose standard deviation is not greater than 0 has no link, and no
    pair of topics has two. *)
Theorem network_links (documentTopics : list document) :
  let corr := calculateTopicCorrelations documentTopics in
  let std := get (topicStdDevs documentTopics) in
  let links := Network.links corr in
  (forall l, l ∈ links <->
     (Network.source l < Network.target l < 13)%nat
     /\ Network.value l = get2 corr (Network.source l) (Network.target l)
     /\ (0.05 <? abs (Network.value l)) = true)
  /\ Forall (fun l => gt0 (std (Network.source l)) = true
                      /\ gt0 (std (Network.target l)) = true) links
  /\ NoDup links.
Proof.
  cbv zeta.
  destruct (correlationMatrix_shape (covarianceMatrix documentTopics)
              (topicStdDevs documentTopics)) as [Hlen Hrows].
  fold (calculateTopicCorrelations documentTopics) in Hlen, Hrows.
  set (corr := calculateTopicCorrelations documentTopics) in *.
  assert (Hrow : forall i, (i < 13)%nat -> length (default [] (corr !! i)) = 13%nat).
  { intros i Hi. destruct (corr !! i) as [row|] eqn:Hr.
    - rewrite Forall_forall in Hrows. apply Hrows. eapply list_elem_of_lookup_2. exact Hr.
    - apply lookup_ge_None in Hr. lia. }
  assert (Helem : forall l, l ∈ Network.links corr <->
            (Network.source l < Network.target l < 13)%nat
            /\ Network.value l = get2 corr (Network.source l) (Network.target l)
            /\ (0.05 <? abs (Network.value l)) = true).
  { intros l. rewrite links_elem, Hlen. split.
    - intros (Hi & Hj & Hv & Hgt). rewrite (Hrow _ Hi) in Hj. tauto.
    - intros (Hij & Hv & Hgt). split; [lia|]. rewrite Hrow by lia. tauto. }
  split; [exact Helem|]. split.
  - apply Forall_forall. intros l Hl. apply Helem in Hl as (Hij & Hv & Hgt).
    unfold corr, calculateTopicCorrelations in Hv.
    rewrite correlationMatrix_cell in Hv by lia.
    destruct (gt0 (get (topicStdDevs documentTopics) (Network.source l))
              && gt0 (get (topicStdDevs documentTopics) (Network.target l))) eqn:Hstd.
    + apply andb_prop in Hstd. exact Hstd.
    + rewrite Hv in Hgt. discriminate.
  - unfold Network.links. apply links_NoDup. apply NoDup_seq.
Qed.

(** ** Word cloud *)

(** The sizes for every number of words up to 30, by evaluation. *)
Lemma size_of_checked :
  forallb (fun len =>
    forallb (fun j =>
      forallb (fun i =>
        (10 <=? WordCloud.size_of j len) && (WordCloud.size_of j len <=? WordCloud.size_of i len)
        && (WordCloud.size_of i len <=? 60)) (seq 0 (S j))) (seq 0 len)) (seq 0 31) = true.
Proof. vm_compute. reflexivity. Qed.

Lemma size_of_bounds (i j len : nat) :
  (i <= j)%nat -> (j < len)%nat -> (len <= 30)%nat ->
  (10 <=? WordCloud.size_of j len) = true
  /\ (WordCloud.size_of j len <=? WordCloud.size_of i len) = true
  /\ (WordCloud.size_of i len <=? 60) = true.
Proof.
  intros Hij Hj Hlen. pose proof size_of_checked as H.
  rewrite forallb_forall in H. specialize (H len ltac:(apply in_seq; lia)).
  rewrite forallb_forall in H. specialize (H j ltac:(apply in_seq; lia)).
  rewrite forallb_forall in H. specialize (H i ltac:(apply in_seq; lia)).
  apply andb_prop in H as [H H3]. apply andb_prop in H as [H1 H2]. auto.
Qed.

Lemma slice_to_length {A} (a : list A) (maxWords : option Z) :
  length (WordCloud.slice_to a (WordCloud.clamp maxWords))
  = match maxWords with
    | Some n => Nat.min (length a) (Z.to_nat (Z.min (Z.max n 5) 30))
    | None => 0%nat
    end.
Proof.
  destruct maxWords as [n|]; [|reflexivity]. cbn [WordCloud.clamp WordCloud.slice_to].
  destruct (Z.ltb_spec (Z.min (Z.max n 5) 30) 0); [lia|].
  rewrite length_take. lia.
Qed.

Lemma slice_to_take {A} (a : list A) (n : option Z) :
  WordCloud.slice_to a (WordCloud.clamp n)
  = take (length (WordCloud.slice_to a (WordCloud.clamp n))) a.
Proof.
  destruct n as [n|]; [|reflexivity]. cbn [WordCloud.clamp WordCloud.slice_to].
  destruct (Z.ltb_spec (Z.min (Z.max n 5) 30) 0); [lia|].
  rewrite length_take, <- take_take, (take_ge a (length a)) by lia. reflexivity.
Qed.

(** X15. The words of the cloud.  The kept keywords are those that are not
    blank and do not contain [topic] in lower case; the cloud shows the first
    of them, in their order and trimmed, up to the number [maxWords] clamped
    to 5..30, and none when [maxWords] is [NaN].  The sizes start at 60,
    never go up along the list and stay between 10 and 60. *)
Theorem cloud_words toLowerCase (keywords : list jsstring) (selectedTopic : Z)
    (maxWords : option Z) :
  let words := WordCloud.words toLowerCase keywords selectedTopic maxWords in
  let kept := filter (fun keyword => WordCloud.keep toLowerCase keyword) keywords in
  length words
  = match maxWords with
    | Some n => Nat.min (length kept) (Z.to_nat (Z.min (Z.max n 5) 30))
    | None => 0%nat
    end
  /\ (length words <= 30)%nat
  /\ map WordCloud.text words = map Authors.trim (take (length words) kept)
  /\ Forall (fun w =>
       WordCloud.text w <> []
       /\ Authors.trim (WordCloud.text w) = WordCloud.text w
       /\ Wordlist.includes (toLowerCase (WordCloud.text w)) (js "topic") = false
       /\ WordCloud.topic w = selectedTopic) words
  /\ (forall w, words !! 0%nat = Some w -> WordCloud.size w = 60)
  /\ (forall i j a b, (i <= j)%nat -> words !! i = Some a -> words !! j = Some b ->
        (10 <=? WordCloud.size b) = true
        /\ (WordCloud.size b <=? WordCloud.size a) = true
        /\ (WordCloud.size a <=? 60) = true).
Proof.
  cbv zeta. unfold WordCloud.words. cbv zeta.
  set (kept := filter (fun keyword => WordCloud.keep toLowerCase keyword) keywords).
  set (limited := WordCloud.slice_to kept (WordCloud.clamp maxWords)).
  assert (Hlen : length limited
                 = match maxWords with
                   | Some n => Nat.min (length kept) (Z.to_nat (Z.min (Z.max n 5) 30))
                   | None => 0%nat
                   end) by apply slice_to_length.
  assert (Hle : (length limited <= 30)%nat).
  { rewrite Hlen. destruct maxWords; lia. }
  assert (Hlook : forall i w,
            imap (fun i keyword =>
                    {| WordCloud.text := Authors.trim keyword;
                       WordCloud.size := WordCloud.size_of i (length limited);
                       WordCloud.topic := selectedTopic |}) limited !! i = Some w ->
            exists keyword, limited !! i = Some keyword /\ keyword ∈ kept
              /\ w = {| WordCloud.text := Authors.trim keyword;
                        WordCloud.size := WordCloud.size_of i (length limited);
                        WordCloud.topic := selectedTopic |}).
  { intros i w. rewrite list_lookup_imap.
    destruct (limited !! i) as [k|] eqn:Hk; [|discriminate]. intros [= <-].
    exists k. split; [reflexivity|]. split; [|reflexivity].
    unfold limited in Hk. rewrite slice_to_take in Hk.
    apply lookup_take_Some in Hk as [Hk _]. eapply list_elem_of_lookup_2. exact Hk. }
  rewrite length_imap.
  split; [exact Hlen|]. split; [exact Hle|]. split; [|split; [|split]].
  - change (map ?f ?l) with (f <$> l). rewrite fmap_imap. cbn [compose WordCloud.text].
    replace (take (length limited) kept) with limited
      by (unfold limited; apply slice_to_take).
    apply list_eq. intros i. rewrite list_lookup_imap, list_lookup_fmap. reflexivity.
  - apply Forall_forall. intros w Hw. apply list_elem_of_lookup in Hw as [i Hi].
    destruct (Hlook i w Hi) as (k & _ & Hk & ->). cbn [WordCloud.text WordCloud.topic].
    apply list_elem_of_filter in Hk as [Hk _]. unfold WordCloud.keep in Hk.
    apply andb_prop_elim in Hk as [_ Hk]. cbv zeta in Hk.
    apply andb_prop_elim in Hk as [Ht Hn].
    split; [destruct (Authors.trim k); [contradiction|discriminate]|].
    split; [apply trim_idempotent|]. split; [|reflexivity].
    destruct (Wordlist.includes _ _); [contradiction|reflexivity].
  - intros w Hw. destruct (Hlook 0%nat w Hw) as (k & Hk & _ & ->). cbn [WordCloud.size].
    apply lookup_lt_Some in Hk.
    assert (Hc : forallb (fun len => PrimFloat.Leibniz.eqb (WordCloud.size_of 0 (S len)) 60)
                         (seq 0 30) = true)
      by (vm_compute; reflexivity).
    rewrite forallb_forall in Hc. specialize (Hc (pred (length limited))).
    replace (S (pred (length limited))) with (length limited) in Hc by lia.
    apply FloatAxioms.Leibniz.eqb_spec. apply Hc. apply in_seq. lia.
  - intros i j a b Hij Ha Hb.
    destruct (Hlook i a Ha) as (ka & Hka & _ & ->).
    destruct (Hlook j b Hb) as (kb & Hkb & _ & ->). cbn [WordCloud.size].
    apply lookup_lt_Some in Hkb. apply size_of_bounds; lia.
Qed.

(** ** Evolution chart *)

(** [x || 0]: a number other than the zeros is kept; [undefined], [NaN]
    and the zeros of either sign give [+0]. *)
Lemma or_zero_number (x : option float) :
  comparable (TopicEvolution.or_zero x) = true
  /\ (x = None -> TopicEvolution.or_zero x = 0)
  /\ (forall v, x = Some v -> comparable v = false -> TopicEvolution.or_zero x = 0)
  /\ (forall v, x = Some v -> (v =? 0) = true -> TopicEvolution.or_zero x = 0)
  /\ (forall v, x = Some v -> (v =? 0) = false -> comparable v = true ->
        TopicEvolution.or_zero x = v).
Proof.
  unfold TopicEvolution.or_zero, comparable. destruct x as [v|].
  2: { repeat split; try reflexivity; discriminate. }
  destruct (v =? 0) eqn:Hz; cbn [orb].
  - repeat split; try reflexivity; try discriminate. intros v' [= <-] H. congruence.
  - destruct (v =? v) eqn:Hc; cbn [negb].
    + split; [exact Hc|]. split; [discriminate|].
      split; [intros v' [= <-] H; congruence|].
      split; [intros v' [= <-] H; congruence|].
      intros v' [= <-] _ _. reflexivity.
    + split; [reflexivity|]. split; [discriminate|].
      split; [reflexivity|]. split; [reflexivity|].
      intros v' [= <-] _ H. congruence.
Qed.

(** X16. What the evolution chart is given, in either view: 13 series, for
    the topics 1 to 13 in order; every series has one point for every entry
    of the evolution, in the order of the entries and with the entry's year;
    the value of a point is the entry's value for the topic when that is a
    number other than 0, and [+0] when it is missing, [NaN] or a zero of
    either sign, so that no value is [NaN].  The stream view names the series by [key] only: in it
    no series is found by its [id]. *)
Theorem formatted_series (evolutionData : list Evolution.entry) (viewType : jsstring) :
  let data := TopicEvolution.formatDataForVisualization evolutionData viewType in
  length data = 13%nat
  /\ (forall i, (1 <= i <= 13)%nat ->
        exists s, data !! pred i = Some s
          /\ (if decide (viewType = js "stream")
              then TopicEvolution.key s = Some (Pie.topicKey i) /\ TopicEvolution.id s = None
              else TopicEvolution.key s = None /\ TopicEvolution.id s = Some (Pie.topicKey i))
          /\ map TopicEvolution.year (TopicEvolution.values s)
             = map Evolution.year evolutionData
          /\ Forall2 (fun p d =>
               comparable (TopicEvolution.value p) = true
               /\ (Evolution.topicDistribution d !! pred i = None ->
                   TopicEvolution.value p = 0)
               /\ (forall v, Evolution.topicDistribution d !! pred i = Some v ->
                     comparable v = false -> TopicEvolution.value p = 0)
               /\ (forall v, Evolution.topicDistribution d !! pred i = Some v ->
                     (v =? 0) = true -> TopicEvolution.value p = 0)
               /\ (forall v, Evolution.topicDistribution d !! pred i = Some v ->
                     (v =? 0) = false -> comparable v = true ->
                     TopicEvolution.value p = v))
               (TopicEvolution.values s) evolutionData)
  /\ (viewType = js "stream" ->
      forall highlightedTopic, TopicEvolution.selectedLine data highlightedTopic = None).
Proof.
  cbv zeta.
  assert (Hvalues : forall i,
            map TopicEvolution.year (TopicEvolution.topicValues evolutionData i)
            = map Evolution.year evolutionData
            /\ Forall2 (fun p d =>
                 comparable (TopicEvolution.value p) = true
                 /\ (Evolution.topicDistribution d !! pred i = None ->
                     TopicEvolution.value p = 0)
                 /\ (forall v, Evolution.topicDistribution d !! pred i = Some v ->
                       comparable v = false -> TopicEvolution.value p = 0)
                 /\ (forall v, Evolution.topicDistribution d !! pred i = Some v ->
                       (v =? 0) = true -> TopicEvolution.value p = 0)
                 /\ (forall v, Evolution.topicDistribution d !! pred i = Some v ->
                       (v =? 0) = false -> comparable v = true ->
                       TopicEvolution.value p = v))
                 (TopicEvolution.topicValues evolutionData i) evolutionData).
  { intros i. unfold TopicEvolution.topicValues. split.
    - rewrite map_map. reflexivity.
    - change (map ?f ?l) with (f <$> l). apply Forall2_fmap_l.
      apply Forall_Forall2_diag, Forall_forall. intros d _. cbn [TopicEvolution.value].
      apply or_zero_number. }
  unfold TopicEvolution.formatDataForVisualization.
  destruct (decide (viewType = js "stream")) as [Hv|Hv].
  - split; [rewrite length_map; reflexivity|]. split.
    + intros i Hi. change (map ?f ?l) with (f <$> l).
      rewrite list_lookup_fmap. unfold topic_ids, numTopics.
      rewrite lookup_seq_lt by lia. replace (1 + pred i)%nat with i by lia.
      eexists. split; [reflexivity|]. cbn [TopicEvolution.key TopicEvolution.id TopicEvolution.values].
      split; [split; reflexivity|]. apply Hvalues.
    + intros _ highlightedTopic. unfold TopicEvolution.selectedLine.
      destruct (find _ _) as [s|] eqn:Hfind; [|reflexivity].
      apply find_some in Hfind as [Hin Hid]. apply bool_decide_eq_true in Hid.
      apply list_elem_of_In, list_elem_of_fmap in Hin as (i & -> & _). discriminate.
  - split; [rewrite length_map; reflexivity|]. split; [|contradiction].
    intros i Hi. change (map ?f ?l) with (f <$> l).
    rewrite list_lookup_fmap. unfold topic_ids, numTopics.
    rewrite lookup_seq_lt by lia. replace (1 + pred i)%nat with i by lia.
    eexists. split; [reflexivity|]. cbn [TopicEvolution.key TopicEvolution.id TopicEvolution.values].
    split; [split; reflexivity|]. apply Hvalues.
Qed.

(** ** Colours *)

Lemma topicColors_keys :
  map fst Colors.topicColors = map (fun k => js "Topic_" ++ toString (Z.of_nat k)) (seq 1 13).
Proof. vm_compute. reflexivity. Qed.

Lemma lookup_color_some (key c : jsstring) :
  Colors.lookup_color key = Some c ->
  exists k, (1 <= k <= 13)%nat /\ key = js "Topic_" ++ toString (Z.of_nat k).
Proof.
  unfold Colors.lookup_color. destruct (find _ _) as [[k' c']|] eqn:Hfind; [|discriminate].
  intros _. apply find_some in Hfind as [Hin Hk]. apply bool_decide_eq_true in Hk.
  cbn [fst] in Hk. subst k'.
  assert (Hkey : key ∈ map fst Colors.topicColors).
  { apply list_elem_of_fmap. exists (key, c'). split; [reflexivity|]. apply list_elem_of_In, Hin. }
  rewrite topicColors_keys in Hkey. apply list_elem_of_fmap in Hkey as (k & -> & Hk).
  apply elem_of_seq in Hk. exists k. split; [lia | reflexivity].
Qed.

(** X17. [getTopicColor] gives the topics 1 to 13 thirteen different
    colours, none of them the grey [#999999], and gives every other integer
    that grey.  Every bar of the decade chart is filled with the colour of
    its dominant topic, one of the thirteen. *)
Theorem topic_colours (booksByYear : gmap Z Yearly.entry) :
  (forall n, (1 <= n <= 13)%Z ->
     Colors.topicColorArray !! Z.to_nat (n - 1) = Some (Colors.getTopicColor n)
     /\ Colors.getTopicColor n <> js "#999999")
  /\ (forall n, ~ (1 <= n <= 13)%Z -> Colors.getTopicColor n = js "#999999")
  /\ NoDup Colors.topicColorArray
  /\ Forall (fun e =>
       exists k, Decades.dominantTopic e = Some k
         /\ Colors.bar_fill e = Some (Colors.getTopicColor (Z.of_nat k))
         /\ Colors.getTopicColor (Z.of_nat k) ∈ Colors.topicColorArray)
       (Decades.decadeArray booksByYear).
Proof.
  assert (Hin : forall n, (1 <= n <= 13)%Z ->
            Colors.topicColorArray !! Z.to_nat (n - 1) = Some (Colors.getTopicColor n)
            /\ Colors.getTopicColor n <> js "#999999"
            /\ Colors.lookup_color (js "Topic_" ++ toString n) = Some (Colors.getTopicColor n)).
  { intros n Hn.
    assert (Hcases : (n = 1 \/ n = 2 \/ n = 3 \/ n = 4 \/ n = 5 \/ n = 6 \/ n = 7 \/ n = 8
                      \/ n = 9 \/ n = 10 \/ n = 11 \/ n = 12 \/ n = 13)%Z) by lia.
    repeat destruct Hcases as [->|Hcases]; try subst n;
      (split; [reflexivity|]; split; [discriminate | reflexivity]). }
  split; [|split; [|split]].
  - intros n Hn. destruct (Hin n Hn) as (H1 & H2 & _). auto.
  - intros n Hn. unfold Colors.getTopicColor. cbv zeta.
    destruct (Colors.lookup_color _) as [c|] eqn:Hc; [|reflexivity].
    exfalso. apply lookup_color_some in Hc as (k & Hk & Heq).
    apply app_inv_head, toString_inj in Heq. lia.
  - vm_compute. repeat constructor; rewrite ?elem_of_cons, ?elem_of_nil; intuition discriminate.
  - apply Forall_forall. intros e He.
    pose proof (decadeArray_first _ _ He) as H0.
    apply decadeArray_elem in He as (d & e0 & _ & ->).
    destruct (scan_max_spec (Decades.topicSums (Decades.finish e0)) H0)
      as (k & Hk & Hr & _).
    exists k. split; [exact Hk|].
    destruct (Hin (Z.of_nat k) ltac:(lia)) as (Harr & _ & Hlook).
    split.
    + unfold Colors.bar_fill. change (Decades.dominantTopic (Decades.finish e0))
        with (fst (Decades.scan_max (Decades.topicSums (Decades.finish e0)))) || idtac.
      rewrite Hk. exact Hlook.
    + eapply list_elem_of_lookup_2. exact Harr.
Qed.

Lemma selectedLine_found (evolutionData : list Evolution.entry) (ids : list nat) (i : nat) :
  i ∈ ids ->
  TopicEvolution.selectedLine
    (map (fun i => {| TopicEvolution.key := None;
                      TopicEvolution.id := Some (Pie.topicKey i);
                      TopicEvolution.values := TopicEvolution.topicValues evolutionData i |})
         ids) (Pie.topicKey i)
  = Some {| TopicEvolution.key := None;
            TopicEvolution.id := Some (Pie.topicKey i);
            TopicEvolution.values := TopicEvolution.topicValues evolutionData i |}.
Proof.
  unfold TopicEvolution.selectedLine.
  induction ids as [|j ids IH]; intros Hi; [inversion Hi|].
  cbn [map find TopicEvolution.id]. case_bool_decide as Hj.
  - injection Hj as Hj. apply toString_inj, Nat2Z.inj in Hj. subst j. reflexivity.
  - apply IH. apply elem_of_cons in Hi as [->|Hi]; [congruence | exact Hi].
Qed.

(** X18. The markers of a highlighted line in the line view of the
    evolution chart.  The line of every topic is found by its id, and it has
    a point for every entry of the evolution.  When the evolution is not
    empty the three markers are read at the first, the middle and the last
    point; when it is empty the first read finds no point and the loop
    fails.  The loop fails exactly when no document has a year other than
    0. *)
Theorem line_markers (documentTopics : list document) :
  let evolution := Evolution.calculateTopicEvolutionByYear documentTopics in
  let data := TopicEvolution.formatDataForVisualization evolution (js "line") in
  Forall (fun i =>
    exists s, TopicEvolution.selectedLine data (Pie.topicKey i) = Some s
      /\ length (TopicEvolution.values s) = length evolution
      /\ match TopicEvolution.markers s with
         | Some points =>
             evolution <> []
             /\ exists first middle last,
                  points = [first; middle; last]
                  /\ TopicEvolution.values s !! 0%nat = Some first
                  /\ TopicEvolution.values s !! (length evolution / 2)%nat = Some middle
                  /\ TopicEvolution.values s !! (length evolution - 1)%nat = Some last
         | None =>
             evolution = []
             /\ forall doc, doc ∈ documentTopics -> Yearly.falsy_year (Year doc) = true
         end
      /\ (TopicEvolution.markers s = None
          <-> forall doc, doc ∈ documentTopics -> Yearly.falsy_year (Year doc) = true))
    topic_ids.
Proof.
  cbv zeta. apply Forall_forall. intros i Hi.
  set (evolution := Evolution.calculateTopicEvolutionByYear documentTopics).
  assert (Hundated : (forall doc, doc ∈ documentTopics -> Yearly.falsy_year (Year doc) = true)
                     -> evolution = []).
  { intros Hall. unfold evolution, Evolution.calculateTopicEvolutionByYear.
    destruct (Evolution.sorted_keys (Evolution.yearlyData documentTopics)) as [|k ks] eqn:Hks;
      [reflexivity|]. exfalso.
    destruct (evolution_entry documentTopics k) as (y & Hy & _ & Hne & _).
    { rewrite Hks. left. }
    destruct (Evolution.documents_of y documentTopics) as [|doc l] eqn:Hdocs; [congruence|].
    assert (Hin : doc ∈ Evolution.documents_of y documentTopics) by (rewrite Hdocs; left).
    apply list_elem_of_filter in Hin as [Hyear Hin].
    specialize (Hall doc Hin). rewrite Hyear in Hall. cbn [Yearly.falsy_year] in Hall.
    apply Z.eqb_eq in Hall. congruence. }
  unfold TopicEvolution.formatDataForVisualization.
  rewrite decide_False by (vm_compute; discriminate).
  rewrite (selectedLine_found evolution topic_ids i Hi). eexists. split; [reflexivity|].
  cbn [TopicEvolution.values].
  assert (Hlen : length (TopicEvolution.topicValues evolution i) = length evolution).
  { unfold TopicEvolution.topicValues. apply length_map. }
  split; [exact Hlen|].
  match goal with |- ?A /\ (?m = None <-> ?P) =>
    assert (Hmatch : A); [|split; [exact Hmatch|]] end.
  2: { destruct (TopicEvolution.markers _) as [points|] eqn:Hm.
       - split; [discriminate|]. intros Hall. destruct Hmatch as [Hne _].
         exfalso. apply Hne, Hundated, Hall.
       - split; [intros _; apply Hmatch | reflexivity]. }
  unfold TopicEvolution.markers, TopicEvolution.positions. cbn [TopicEvolution.values].
  rewrite Hlen. set (vs := TopicEvolution.topicValues evolution i) in *.
  destruct evolution as [|e0 ev] eqn:Hev.
  - destruct vs; [|discriminate]. cbn. split; [reflexivity|].
    intros doc Hdoc. destruct (Year doc) as [y|] eqn:Hy; [|reflexivity]. cbn [Yearly.falsy_year].
    destruct (Z.eqb_spec y 0) as [|Hy0]; [reflexivity|]. exfalso.
    assert (Hne : Evolution.documents_of y documentTopics <> []).
    { intros H. assert (Hin : doc ∈ Evolution.documents_of y documentTopics).
      { apply list_elem_of_filter. split; assumption. }
      rewrite H in Hin. inversion Hin. }
    pose proof (sorted_keys_complete _ _ Hy0 Hne) as Hk.
    unfold evolution, Evolution.calculateTopicEvolutionByYear in Hev.
    apply (f_equal length) in Hev. rewrite length_map in Hev.
    destruct (Evolution.sorted_keys _); [inversion Hk|discriminate].
  - set (n := length (e0 :: ev)) in *.
    assert (Hn : (0 < n)%nat) by (unfold n; cbn [length]; lia).
    cbn [mapM]. unfold TopicEvolution.at_index.
    destruct (Z.ltb_spec 0 0); [lia|].
    destruct (Z.ltb_spec (Z.of_nat n / 2) 0) as [Hneg|_].
    { pose proof (Z.div_pos (Z.of_nat n) 2 ltac:(lia) ltac:(lia)). lia. }
    destruct (Z.ltb_spec (Z.of_nat n - 1) 0); [lia|].
    assert (Hmid : Z.to_nat (Z.of_nat n / 2) = (n / 2)%nat).
    { rewrite <- (Nat2Z.id (n / 2)). f_equal. rewrite Nat2Z.inj_div. reflexivity. }
    assert (Hlast : Z.to_nat (Z.of_nat n - 1) = (n - 1)%nat) by lia.
    rewrite Hmid, Hlast. change (Z.to_nat 0) with 0%nat.
    assert (Hmidlt : (n / 2 < n)%nat) by (apply Nat.div_lt; lia).
    destruct (lookup_lt_is_Some_2 vs 0%nat ltac:(lia)) as [p0 Hp0].
    destruct (lookup_lt_is_Some_2 vs (n / 2)%nat ltac:(lia)) as [p1 Hp1].
    destruct (lookup_lt_is_Some_2 vs (n - 1)%nat ltac:(lia)) as [p2 Hp2].
    rewrite Hp0, Hp1, Hp2. cbn. split; [discriminate|].
    exists p0, p1, p2. auto.
Qed.
